(** * Inverted-index demo: a shallow embedding of the Go sources

    The repository keeps a secondary index of the [orders] table in Redis:
    - a term index, one roaring bitmap of row ids per (field, value);
    - a sparse index over [create_time], a sorted set of bucket keys with one
      bitmap per bucket, and a forward map id -> create_time;
    - a CDC consumer that applies insert / update / delete events to both;
    - a query service that intersects term bitmaps and then scans the sparse
      index in descending order.

    Redis is modelled as a record of finite maps, the Go code as functions in a
    small state monad over it.  Go packages: [roaring] (external), [sort]
    (external, only its contract), [store], [index], [sync], [query]. *)

From stdpp Require Import base option list numbers strings gmap sets sorting.
From Stdlib Require Import DecimalString DecimalZ.

Local Open Scope Z_scope.

(** ** Machine integers *)

Definition u64_max : Z := 0xFFFFFFFFFFFFFFFF.
Definition u64_modulus : Z := u64_max + 1.

(** [uint64(x)]: conversion of a Go [int] to [uint64] (two's complement wrap). *)
Definition uint64 (x : Z) : Z := x `mod` u64_modulus.

Definition is_u64 (x : Z) : Prop := 0 ≤ x ≤ u64_max.

(** ** roaring.Bitmap

    A bitmap is the finite set of the uint32 ids it holds.  The operations
    that mutate the receiver in Go return the new value here. *)

Module roaring.

Abbreviation Bitmap := (gset Z).

Definition New : Bitmap := ∅.
Definition Add (bm : Bitmap) (id : Z) : Bitmap := {[ id ]} ∪ bm.
Definition Remove (bm : Bitmap) (id : Z) : Bitmap := bm ∖ {[ id ]}.
Definition And (bm other : Bitmap) : Bitmap := bm ∩ other.
Definition AndNot (bm other : Bitmap) : Bitmap := bm ∖ other.
Definition Clear (bm : Bitmap) : Bitmap := ∅.
Definition GetCardinality (bm : Bitmap) : Z := Z.of_nat (size bm).

(** [for it := bm.Iterator(); it.HasNext(); { ... it.Next() }]: the ids in
    ascending order. *)
Definition Iterator (bm : Bitmap) : list Z := merge_sort Z.le (elements bm).

End roaring.

(** ** sort.Slice

    The Go documentation promises a sorted permutation and nothing about the
    order of elements that compare equal ("The sort is not guaranteed to be
    stable").  The embedding keeps exactly that contract: a [SliceSorter] is any
    function that returns a permutation of its input in which no element is
    [less] than an earlier one, whenever [less] is a strict weak order. *)

Record StrictWeakOrder {A : Type} (less : A → A → bool) : Prop := {
  swo_irrefl : ∀ a, less a a = false;
  swo_trans : ∀ a b c, less a b = true → less b c = true → less a c = true;
  swo_incomp : ∀ a b c, less a b = false → less b c = false → less a c = false
}.

Class SliceSorter : Type := {
  sort_Slice : ∀ {A : Type}, (A → A → bool) → list A → list A;
  sort_Slice_Permutation :
    ∀ {A : Type} (less : A → A → bool) (l : list A), sort_Slice less l ≡ₚ l;
  sort_Slice_Sorted :
    ∀ {A : Type} (less : A → A → bool) (l : list A),
      StrictWeakOrder less →
      StronglySorted (λ a b, less b a = false) (sort_Slice less l)
}.

(** Insertion sort, which is what [sort.Slice] runs on slices of at most
    twelve elements.  [insert_stable] puts an element after the elements
    equal to it, [insert_front] before them: both are sorts in the sense of
    the contract. *)

Fixpoint insert_stable {A : Type} (less : A → A → bool) (x : A) (l : list A) : list A :=
  match l with
  | [] => [x]
  | y :: l' => if less x y then x :: y :: l' else y :: insert_stable less x l'
  end.

Fixpoint insert_front {A : Type} (less : A → A → bool) (x : A) (l : list A) : list A :=
  match l with
  | [] => [x]
  | y :: l' => if less y x then y :: insert_front less x l' else x :: y :: l'
  end.

(** Elements are inserted from the left as the Go loop does. *)
Definition insertion_sort {A : Type} (ins : A → list A → list A) (l : list A) : list A :=
  foldl (λ acc x, ins x acc) [] l.


(** Insertion sort meets the contract. *)

Section InsertionSort.
Context {A : Type} (less : A → A → bool).

Lemma insert_stable_Permutation (x : A) (l : list A) :
  insert_stable less x l ≡ₚ x :: l.
Proof.
  induction l as [|y l IH]; simpl; [done|].
  destruct (less x y); [done|].
  rewrite IH. apply Permutation_swap.
Qed.

Lemma insert_front_Permutation (x : A) (l : list A) :
  insert_front less x l ≡ₚ x :: l.
Proof.
  induction l as [|y l IH]; simpl; [done|].
  destruct (less y x); [|done].
  rewrite IH. apply Permutation_swap.
Qed.

Lemma insertion_sort_Permutation (ins : A → list A → list A) (l : list A) :
  (∀ x l, ins x l ≡ₚ x :: l) → insertion_sort ins l ≡ₚ l.
Proof.
  intros Hins. unfold insertion_sort.
  assert (∀ acc, foldl (λ acc x, ins x acc) acc l ≡ₚ l ++ acc) as H.
  { induction l as [|x l IH]; intros acc; simpl; [done|].
    rewrite IH, Hins. by rewrite Permutation_middle. }
  rewrite H. by rewrite app_nil_r.
Qed.

Lemma swo_asym (a b : A) :
  StrictWeakOrder less → less a b = true → less b a = false.
Proof.
  intros Hswo Hab. destruct (less b a) eqn:Hba; [|done].
  pose proof (swo_trans less Hswo _ _ _ Hab Hba) as Haa.
  by rewrite (swo_irrefl less Hswo) in Haa.
Qed.

Lemma insert_stable_Sorted (x : A) (l : list A) :
  StrictWeakOrder less →
  StronglySorted (λ a b, less b a = false) l →
  StronglySorted (λ a b, less b a = false) (insert_stable less x l).
Proof.
  intros Hswo. induction 1 as [|y l Hl IH Hy]; simpl.
  { repeat constructor. }
  destruct (less x y) eqn:Hxy.
  - constructor; [by constructor|]. constructor.
    + by apply swo_asym.
    + eapply Forall_impl; [exact Hy|]. simpl. intros z Hzy.
      destruct (less z x) eqn:Hzx; [|done].
      by rewrite (swo_trans less Hswo _ _ _ Hzx Hxy) in Hzy.
  - constructor; [done|].
    rewrite insert_stable_Permutation. by constructor.
Qed.

Lemma insert_front_Sorted (x : A) (l : list A) :
  StrictWeakOrder less →
  StronglySorted (λ a b, less b a = false) l →
  StronglySorted (λ a b, less b a = false) (insert_front less x l).
Proof.
  intros Hswo. induction 1 as [|y l Hl IH Hy]; simpl.
  { repeat constructor. }
  destruct (less y x) eqn:Hyx.
  - constructor; [done|].
    rewrite insert_front_Permutation. constructor; [|done].
    by apply swo_asym.
  - constructor; [by constructor|]. constructor; [done|].
    eapply Forall_impl; [exact Hy|]. simpl. intros z Hzy.
    by apply (swo_incomp less Hswo z y x).
Qed.

Lemma insertion_sort_Sorted (ins : A → list A → list A) (l : list A) :
  (∀ x l, StronglySorted (λ a b, less b a = false) l →
          StronglySorted (λ a b, less b a = false) (ins x l)) →
  StronglySorted (λ a b, less b a = false) (insertion_sort ins l).
Proof.
  intros Hins. unfold insertion_sort.
  assert (∀ acc, StronglySorted (λ a b, less b a = false) acc →
    StronglySorted (λ a b, less b a = false) (foldl (λ acc x, ins x acc) acc l)) as H.
  { induction l as [|x l IH]; intros acc Hacc; simpl; [done|]. by apply IH, Hins. }
  apply H. constructor.
Qed.

End InsertionSort.

(** The sorter that keeps equal elements in their input order. *)
Definition stable_sorter : SliceSorter := {|
  sort_Slice A less l := insertion_sort (insert_stable less) l;
  sort_Slice_Permutation A less l :=
    insertion_sort_Permutation (insert_stable less) l (insert_stable_Permutation less);
  sort_Slice_Sorted A less l Hswo :=
    insertion_sort_Sorted less (insert_stable less) l
      (λ x l', insert_stable_Sorted less x l' Hswo)
|}.

(** The sorter that puts an element before the elements equal to it. *)
Definition front_sorter : SliceSorter := {|
  sort_Slice A less l := insertion_sort (insert_front less) l;
  sort_Slice_Permutation A less l :=
    insertion_sort_Permutation (insert_front less) l (insert_front_Permutation less);
  sort_Slice_Sorted A less l Hswo :=
    insertion_sort_Sorted less (insert_front less) l
      (λ x l', insert_front_Sorted less x l' Hswo)
|}.

(** ** Redis

    One record field per family of keys; the three stores use the disjoint
    prefixes [<ns>:bm:], [<ns>:skbm:] and [<ns>:fv:], so that no key of one
    family is a key of another.  A hash field is addressed by (index key,
    field), a sorted set by its index key.  A stored bitmap stands for its
    serialized form ([ToBytes], read back by [FromBuffer]); a sorted-set
    member, the 16-digit hex rendering of a uint64, stands for that number,
    and the lexicographic order of members for the numeric order.  The
    score of a member, the same number as a float64, never decreases when
    the number grows, so that the sorted set is in the order of its
    members whatever their scores. *)

Record Redis : Type := mkRedis {
  bm_hash : gmap (string * string) (gset Z);
  skbm_zs : gmap string (gset Z);
  skbm_hm : gmap (string * Z) (gset Z);
  fv_hash : gmap (string * Z) Z
}.

Definition empty_redis : Redis := mkRedis ∅ ∅ ∅ ∅.

Inductive Level : Type := LevelDebug | LevelInfo | LevelWarn.

(** The state of a run: the Redis server and the log written by [slog]. *)
Record State : Type := mkState {
  redis : Redis;
  slog : list (Level * string)
}.

(** A computation either completes with a value and a new state, or does
    not complete normally ([None]: a Go panic or a returned error). *)
Definition M (A : Type) : Type := State → option (A * State).

Global Instance M_ret : MRet M := λ A a st, Some (a, st).
Global Instance M_bind : MBind M := λ A B f m st,
  match m st with
  | Some (a, st') => f a st'
  | None => None
  end.

Definition panic {A : Type} : M A := λ _, None.
Definition gets {A : Type} (f : Redis → A) : M A := λ st, Some (f (redis st), st).
Definition modify (f : Redis → Redis) : M unit :=
  λ st, Some (tt, mkState (f (redis st)) (slog st)).
Definition slog_write (lv : Level) (msg : string) : M unit :=
  λ st, Some (tt, mkState (redis st) (slog st ++ [(lv, msg)])).

(** [*p] on a possibly nil pointer. *)
Definition deref {A : Type} (p : option A) : M A :=
  match p with Some a => mret a | None => panic end.

(** [for _, x := range l { ... }] whose body may leave the function
    ([inr]) or go on to the next element ([inl]). *)
Fixpoint for_range {A B R : Type} (body : A → B → M (B + R)) (l : list A) (b : B)
  : M (B + R) :=
  match l with
  | [] => mret (inl b)
  | x :: l' =>
      r ← body x b;
      match r with
      | inl b' => for_range body l' b'
      | inr out => mret (inr out)
      end
  end.

(** *** Redis commands *)

(** The members of a sorted set; a key that does not exist is an empty
    sorted set. *)
Definition zset (r : Redis) (key : string) : gset Z :=
  default ∅ (skbm_zs r !! key).

(** The members of a sorted set, in ascending order. *)
Definition zset_members (r : Redis) (key : string) : list Z :=
  merge_sort Z.le (elements (zset r key)).

(** [ZRANGE key ... BYLEX [REV] LIMIT 0 count] as go-redis sends it for
    [ZRangeArgs{Key, ByLex: true, Rev, Start: "[" + start, Stop: "[" + stop,
    Count}]: the members between [start] and [stop], both included, from the
    lowest (from the highest when [rev]), no more than [count] of them when
    [count] is positive. *)
Definition zrange (r : Redis) (key : string) (start stop : Z) (rev : bool) (count : Z)
  : list Z :=
  let ms := filter (λ k, start ≤ k ≤ stop) (zset_members r key) in
  let ms := if rev then reverse ms else ms in
  if 0 <? count then take (Z.to_nat count) ms else ms.

Definition ZRangeArgs (key : string) (start stop : Z) (rev : bool) (count : Z)
  : M (list Z) :=
  gets (λ r, zrange r key start stop rev count).

Definition zadd (key : string) (members : list Z) (zs : gmap string (gset Z))
  : gmap string (gset Z) :=
  <[key := list_to_set members ∪ default ∅ (zs !! key)]> zs.

(** A sorted set that loses its last member is removed. *)
Definition zrem (key : string) (members : list Z) (zs : gmap string (gset Z))
  : gmap string (gset Z) :=
  let rest := default ∅ (zs !! key) ∖ list_to_set members in
  if decide (rest = ∅) then delete key zs else <[key := rest]> zs.

Definition ZAdd (key : string) (members : list Z) : M unit :=
  modify (λ r, mkRedis (bm_hash r) (zadd key members (skbm_zs r))
                 (skbm_hm r) (fv_hash r)).

Definition ZRem (key : string) (members : list Z) : M unit :=
  modify (λ r, mkRedis (bm_hash r) (zrem key members (skbm_zs r))
                 (skbm_hm r) (fv_hash r)).

(** [HMSET key f1 v1 f2 v2 ...] sets the fields from left to right, so the
    last value given for a field is the one kept. *)
Definition hmset {K V : Type} `{Countable K'} (mk : K → K') (pairs : list (K * V))
    (m : gmap K' V) : gmap K' V :=
  foldl (λ acc p, <[mk p.1 := p.2]> acc) m pairs.

Definition hdel {K V : Type} `{Countable K'} (mk : K → K') (fields : list K)
    (m : gmap K' V) : gmap K' V :=
  foldl (λ acc f, delete (mk f) acc) m fields.

Global Arguments hmset : simpl never.
Global Arguments hdel : simpl never.

(** ** Package store *)

(** [parseBitmap]: the empty string, which is also what a missing hash
    field reads as, decodes to a new empty bitmap; any other value decodes
    to the bitmap it is the serialized form of.  The bitmap returned is
    always a new object. *)
Definition parseBitmap (sv : option (gset Z)) : roaring.Bitmap :=
  match sv with
  | None => roaring.New
  | Some bm => bm
  end.

Record SortKeyBitmap : Type := mkSortKeyBitmap {
  SortKey : Z;
  Bitmap : option (gset Z)          (* [*roaring.Bitmap], [None] for nil *)
}.

Definition RedisBmStore_Get (indexKey valueKey : string) : M roaring.Bitmap :=
  value ← gets (λ r, bm_hash r !! (indexKey, valueKey));
  mret (parseBitmap value).

Definition RedisBmStore_Set (indexKey valueKey : string) (value : option (gset Z))
  : M unit :=
  (* delete empty bitmaps, update non-empty bitmaps *)
  match value with
  | None => modify (λ r, mkRedis (delete (indexKey, valueKey) (bm_hash r))
                           (skbm_zs r) (skbm_hm r) (fv_hash r))
  | Some bm =>
      if roaring.GetCardinality bm =? 0
      then modify (λ r, mkRedis (delete (indexKey, valueKey) (bm_hash r))
                          (skbm_zs r) (skbm_hm r) (fv_hash r))
      else modify (λ r, mkRedis (<[(indexKey, valueKey) := bm]> (bm_hash r))
                          (skbm_zs r) (skbm_hm r) (fv_hash r))
  end.

Definition RedisSortKeyBitmapStore_Scan (indexKey : string) (start stop : Z)
    (reverse : bool) (limit : Z) : M (list SortKeyBitmap) :=
  keys ← (if negb reverse
          then ZRangeArgs indexKey start stop reverse limit
          else ZRangeArgs indexKey stop start reverse limit);
  match keys with
  | [] => mret []
  | _ =>
      values ← gets (λ r, (λ key, skbm_hm r !! (indexKey, key)) <$> keys);
      mret (zip_with (λ key value, mkSortKeyBitmap key (Some (parseBitmap value)))
              keys values)
  end.

Definition is_nil_or_empty (skbm : SortKeyBitmap) : bool :=
  match Bitmap skbm with
  | None => true
  | Some bm => roaring.GetCardinality bm =? 0
  end.

Definition RedisSortKeyBitmapStore_MSet (indexKey : string) (skbms : list SortKeyBitmap)
  : M unit :=
  match skbms with
  | [] => mret tt
  | _ =>
      (* delete empty bitmaps, update non-empty bitmaps *)
      let delKeys := SortKey <$> filter (λ skbm, is_nil_or_empty skbm = true) skbms in
      let setSkbms := filter (λ skbm, is_nil_or_empty skbm = false) skbms in
      (match delKeys with
       | [] => mret tt
       | _ =>
           ZRem indexKey delKeys;;
           modify (λ r, mkRedis (bm_hash r) (skbm_zs r)
                          (hdel (λ k, (indexKey, k)) delKeys (skbm_hm r)) (fv_hash r))
       end);;
      (match setSkbms with
       | [] => mret tt
       | _ =>
           (* every bitmap of [setSkbms] is non-nil: [ToBytes] is defined *)
           let pairs := omap (λ skbm, match Bitmap skbm with
                                      | Some raw => Some (SortKey skbm, raw)
                                      | None => None
                                      end) setSkbms in
           ZAdd indexKey (SortKey <$> setSkbms);;
           modify (λ r, mkRedis (bm_hash r) (skbm_zs r)
                          (hmset (λ k, (indexKey, k)) pairs (skbm_hm r))
                          (fv_hash r))
       end)
  end.

(** [HMGET] needs a field at least: asked for no id, Redis answers with an
    error, which [MGet] returns.  A field that is missing reads as zero. *)
Definition RedisFvStore_MGet (indexKey : string) (ids : list Z) : M (list Z) :=
  match ids with
  | [] => panic                                   (* HMGet failed *)
  | _ =>
      values ← gets (λ r, (λ id, fv_hash r !! (indexKey, id)) <$> ids);
      mret (default 0 <$> values)
  end.

Definition RedisFvStore_Set (indexKey : string) (id value : Z) : M unit :=
  modify (λ r, mkRedis (bm_hash r) (skbm_zs r) (skbm_hm r)
                 (<[(indexKey, id) := value]> (fv_hash r))).

Definition RedisFvStore_Remove (indexKey : string) (id : Z) : M unit :=
  modify (λ r, mkRedis (bm_hash r) (skbm_zs r) (skbm_hm r)
                 (delete (indexKey, id) (fv_hash r))).

(** ** Package index *)

Record TermIndex : Type := mkTermIndex {
  TermIndex_TableName : string;
  TermIndex_FieldName : string
}.

Definition GetIndexKey (i : TermIndex) : string :=
  "term:" +:+ TermIndex_TableName i +:+ ":" +:+ TermIndex_FieldName i.

(** [type Term interface { int64 | *int64 }] *)
Inductive Term : Type :=
  | Int64 (value : Z)
  | PtrInt64 (value : option Z).

(** [fmt.Sprint] of an integer: its decimal rendering. *)
Definition Sprint (value : Z) : string := NilZero.string_of_int (Z.to_int value).

Definition MakeValueKey (fieldValue : Term) : string :=
  match fieldValue with
  | Int64 value => Sprint value
  | PtrInt64 None => "null"
  | PtrInt64 (Some value) => Sprint value
  end.

(** [before == after] at type [int64] compares the numbers; at type
    [*int64] it compares the pointers, which come from two separately
    decoded rows and so are equal only when both are nil. *)
Definition Term_eqb (before after : Term) : bool :=
  match before, after with
  | Int64 a, Int64 b => bool_decide (a = b)
  | PtrInt64 None, PtrInt64 None => true
  | _, _ => false
  end.

Record SparseIndex : Type := mkSparseIndex {
  SparseIndex_TableName : string;
  SparseIndex_FieldName : string
}.

Definition MakeIndexKey (i : SparseIndex) : string :=
  "sparse:" +:+ SparseIndex_TableName i +:+ ":" +:+ SparseIndex_FieldName i.

(** [SortId] is the element type of the reader's [QuerySortIds],
    [SortedId] that of the writer's [QuerySortedIds]. *)
Record SortId : Type := mkSortId { SortId_Id : Z; SortId_SortKey : Z }.
Record SortedId : Type := mkSortedId { SortedId_Id : Z; SortedId_Score : Z }.

(** order by id if sort key is the same for better stability *)
Definition SortId_less (a b : SortId) : bool :=
  if bool_decide (SortId_SortKey a = SortId_SortKey b)
  then bool_decide (SortId_Id a < SortId_Id b)
  else bool_decide (SortId_SortKey a < SortId_SortKey b).

Definition SortedId_less (a b : SortedId) : bool :=
  bool_decide (SortedId_Score a < SortedId_Score b).

Section Index.
Context `{!SliceSorter}.

Definition QuerySortIds (fieldKey : string) (bm : roaring.Bitmap) : M (list SortId) :=
  let ids := roaring.Iterator bm in
  fvs ← RedisFvStore_MGet fieldKey ids;
  let sortIds := zip_with mkSortId ids fvs in
  mret (sort_Slice SortId_less sortIds).

Definition QuerySortedIds (fieldKey : string) (bm : roaring.Bitmap) : M (list SortedId) :=
  let ids := roaring.Iterator bm in
  fvs ← RedisFvStore_MGet fieldKey ids;
  let sortIds := zip_with mkSortedId ids fvs in
  mret (sort_Slice SortedId_less sortIds).

End Index.

(** ** Package sync: the CDC consumer *)

Record TermIndexWriter : Type := mkTermIndexWriter {
  TermIndexWriter_Index : TermIndex
}.

Definition NewTermIndexWriter (tableName fieldName : string) : TermIndexWriter :=
  mkTermIndexWriter (mkTermIndex tableName fieldName).

Definition TermIndexWriter_Add (w : TermIndexWriter) (fv : Term) (id : Z) : M unit :=
  let indexKey := GetIndexKey (TermIndexWriter_Index w) in
  let key := MakeValueKey fv in
  bm ← RedisBmStore_Get indexKey key;
  let bm := roaring.Add bm id in
  RedisBmStore_Set indexKey key (Some bm).

Definition TermIndexWriter_Remove (w : TermIndexWriter) (fv : Term) (id : Z) : M unit :=
  let indexKey := GetIndexKey (TermIndexWriter_Index w) in
  let key := MakeValueKey fv in
  bm ← RedisBmStore_Get indexKey key;
  let bm := roaring.Remove bm id in
  RedisBmStore_Set indexKey key (Some bm).

Definition TermIndexWriter_Move (w : TermIndexWriter) (before after : Term) (id : Z)
  : M unit :=
  if Term_eqb before after then mret tt
  else
    TermIndexWriter_Remove w before id;;
    TermIndexWriter_Add w after id.

Record SparseU64IndexWriter : Type := mkSparseU64IndexWriter {
  SparseU64IndexWriter_Index : SparseIndex;
  SplitThreshold : Z
}.

Definition getFloorSortedBm (fieldKey : string) (fv : Z) : M (option SortKeyBitmap) :=
  sortedBms ← RedisSortKeyBitmapStore_Scan fieldKey fv 0 true 1;
  mret (head sortedBms).

(** [for _, sortId := range ids { bm.Add(sortId.Id) }] *)
Definition add_all (bm : roaring.Bitmap) (ids : list SortedId) : roaring.Bitmap :=
  foldl (λ bm sortId, roaring.Add bm (SortedId_Id sortId)) bm ids.

(** [updateSortedBms[0].Bitmap.Add(id)] *)
Definition add_to_first (updateSortedBms : list SortKeyBitmap) (id : Z)
  : M (list SortKeyBitmap) :=
  match updateSortedBms with
  | [] => panic
  | first :: rest =>
      bm ← deref (Bitmap first);
      mret (mkSortKeyBitmap (SortKey first) (Some (roaring.Add bm id)) :: rest)
  end.

Section Sync.
Context `{!SliceSorter}.

Definition SparseU64IndexWriter_Add (w : SparseU64IndexWriter) (fv id : Z) : M unit :=
  let fieldKey := MakeIndexKey (SparseU64IndexWriter_Index w) in
  floorSortedBm ← getFloorSortedBm fieldKey fv;
  updateSortedBms ←
    match floorSortedBm with
    | None => mret [mkSortKeyBitmap fv (Some roaring.New)]
    | Some floor =>
        floorBm ← deref (Bitmap floor);
        if roaring.GetCardinality floorBm <? uint64 (SplitThreshold w)
        then mret [floor]
        else
          (* sort ids by fv, split ids into 2 parts *)
          sortedIds ← QuerySortedIds fieldKey floorBm;
          let bm1 := roaring.Clear floorBm in
          let mid := (length sortedIds / 2)%nat in
          let bm1 := add_all bm1 (take mid sortedIds) in
          let bm2 := add_all roaring.New (drop mid sortedIds) in
          first ← deref (sortedIds !! 0%nat);
          second ← deref (sortedIds !! mid);
          let updateSortedBms :=
            [mkSortKeyBitmap (SortedId_Score first) (Some bm1);
             mkSortKeyBitmap (SortedId_Score second) (Some bm2)] in
          (* make first sorted bitmap the floor sorted bitmap *)
          if bool_decide (SortedId_Score second ≤ fv)
          then mret (reverse updateSortedBms)
          else mret updateSortedBms
    end;
  updateSortedBms ← add_to_first updateSortedBms id;
  RedisFvStore_Set fieldKey id fv;;
  RedisSortKeyBitmapStore_MSet fieldKey updateSortedBms.

Definition SparseU64IndexWriter_Remove (w : SparseU64IndexWriter) (fv id : Z) : M unit :=
  let fieldKey := MakeIndexKey (SparseU64IndexWriter_Index w) in
  floorSortedBm ← getFloorSortedBm fieldKey fv;
  match floorSortedBm with
  | Some floor =>
      floorBm ← deref (Bitmap floor);
      RedisSortKeyBitmapStore_MSet fieldKey
        [mkSortKeyBitmap (SortKey floor) (Some (roaring.Remove floorBm id))]
  | None => slog_write LevelWarn "cannot find floor sorted bitmap"
  end;;
  RedisFvStore_Remove fieldKey id.

Definition SparseU64IndexWriter_Move (w : SparseU64IndexWriter) (before after id : Z)
  : M unit :=
  if bool_decide (before = after) then mret tt
  else
    SparseU64IndexWriter_Remove w before id;;
    SparseU64IndexWriter_Add w after id.

Record saramaConsumer : Type := mksaramaConsumer {
  AllIndexWriter : TermIndexWriter;
  OrderStatusIndexWriter : TermIndexWriter;
  ProductIdIndexWriter : TermIndexWriter;
  ProviderIdIndexWriter : TermIndexWriter;
  CreateTimeIndexWriter : SparseU64IndexWriter
}.

(** The consumer that [Consumer.Start] builds. *)
Definition Start : saramaConsumer := {|
  AllIndexWriter := NewTermIndexWriter "orders" "__all";
  OrderStatusIndexWriter := NewTermIndexWriter "orders" "order_status";
  ProductIdIndexWriter := NewTermIndexWriter "orders" "product_id";
  ProviderIdIndexWriter := NewTermIndexWriter "orders" "provider_id";
  CreateTimeIndexWriter :=
    mkSparseU64IndexWriter (mkSparseIndex "orders" "create_time") 1000
|}.

Record Order : Type := mkOrder {
  ID : Z;
  OrderStatus : Z;
  ProductID : Z;
  ProviderID : option Z;
  CreateTime : Z
}.

Record DataChangedMessage : Type := mkDataChangedMessage {
  Op : string;
  Before : option Order;
  After : option Order
}.

Definition onInsert (consumer : saramaConsumer) (order : Order) : M unit :=
  TermIndexWriter_Add (AllIndexWriter consumer) (Int64 0) (ID order);;
  TermIndexWriter_Add (OrderStatusIndexWriter consumer) (Int64 (OrderStatus order)) (ID order);;
  TermIndexWriter_Add (ProductIdIndexWriter consumer) (Int64 (ProductID order)) (ID order);;
  TermIndexWriter_Add (ProviderIdIndexWriter consumer) (PtrInt64 (ProviderID order)) (ID order);;
  SparseU64IndexWriter_Add (CreateTimeIndexWriter consumer) (CreateTime order) (ID order).

Definition onUpdate (consumer : saramaConsumer) (before after : Order) : M unit :=
  TermIndexWriter_Move (OrderStatusIndexWriter consumer)
    (Int64 (OrderStatus before)) (Int64 (OrderStatus after)) (ID after);;
  TermIndexWriter_Move (ProductIdIndexWriter consumer)
    (Int64 (ProductID before)) (Int64 (ProductID after)) (ID after);;
  TermIndexWriter_Move (ProviderIdIndexWriter consumer)
    (PtrInt64 (ProviderID before)) (PtrInt64 (ProviderID after)) (ID after);;
  SparseU64IndexWriter_Move (CreateTimeIndexWriter consumer)
    (CreateTime before) (CreateTime after) (ID after).

Definition onDelete (consumer : saramaConsumer) (order : Order) : M unit :=
  TermIndexWriter_Remove (AllIndexWriter consumer) (Int64 0) (ID order);;
  TermIndexWriter_Remove (OrderStatusIndexWriter consumer) (Int64 (OrderStatus order)) (ID order);;
  TermIndexWriter_Remove (ProductIdIndexWriter consumer) (Int64 (ProductID order)) (ID order);;
  TermIndexWriter_Remove (ProviderIdIndexWriter consumer) (PtrInt64 (ProviderID order)) (ID order);;
  SparseU64IndexWriter_Remove (CreateTimeIndexWriter consumer) (CreateTime order) (ID order).

(** The body of the [ConsumeClaim] loop for one decoded message. *)
Definition ConsumeMessage (consumer : saramaConsumer) (m : DataChangedMessage) : M unit :=
  if bool_decide (Op m = "r" ∨ Op m = "c")
  then after ← deref (After m); onInsert consumer after
  else if bool_decide (Op m = "u")
  then before ← deref (Before m); after ← deref (After m); onUpdate consumer before after
  else if bool_decide (Op m = "d")
  then before ← deref (Before m); onDelete consumer before
  else panic (* Unknown op *).

(** [ConsumeClaim] over the decoded messages of a claim, in order, until
    the channel of the claim is closed. *)
Fixpoint ConsumeClaim (consumer : saramaConsumer) (messages : list DataChangedMessage)
  : M unit :=
  match messages with
  | [] => slog_write LevelInfo "Message channel was closed"
  | m :: rest =>
      slog_write LevelDebug "Message claimed";;
      ConsumeMessage consumer m;;
      ConsumeClaim consumer rest
  end.

End Sync.

(** ** Package query *)

Record TermIndexReader : Type := mkTermIndexReader {
  TermIndexReader_Index : TermIndex
}.

Definition TermIndexReader_Get (r : TermIndexReader) (fv : Term) : M roaring.Bitmap :=
  RedisBmStore_Get (GetIndexKey (TermIndexReader_Index r)) (MakeValueKey fv).

Record SparseU64IndexReader : Type := mkSparseU64IndexReader {
  SparseU64IndexReader_Index : SparseIndex
}.

Inductive NullableValueFilterMode : Type :=
  | FilterModeEq
  | FilterModeNull
  | FilterModeNotNull.

Record NullableValueFilter : Type := mkNullableValueFilter {
  Mode : NullableValueFilterMode;
  Value : Z
}.

Record Request : Type := mkRequest {
  OrderStatusEq : option Z;
  ProductIDEq : option Z;
  ProviderIDFilter : option NullableValueFilter;
  Limit : option Z
}.

Record Response : Type := mkResponse {
  IDs : list Z;
  Total : Z
}.

Record OrdersSearchService : Type := mkOrdersSearchService {
  AllIndexReader : TermIndexReader;
  OrderStatusIndexReader : TermIndexReader;
  ProductIdIndexReader : TermIndexReader;
  ProviderIdIndexReader : TermIndexReader;
  CreateTimeIndexReader : SparseU64IndexReader
}.

Definition NewOrdersSearchService : OrdersSearchService := {|
  AllIndexReader := mkTermIndexReader (mkTermIndex "orders" "__all");
  OrderStatusIndexReader := mkTermIndexReader (mkTermIndex "orders" "order_status");
  ProductIdIndexReader := mkTermIndexReader (mkTermIndex "orders" "product_id");
  ProviderIdIndexReader := mkTermIndexReader (mkTermIndex "orders" "provider_id");
  CreateTimeIndexReader := mkSparseU64IndexReader (mkSparseIndex "orders" "create_time")
|}.

(** The callback [List] hands to [Scan]; [resultIds] is the variable the
    Go closure captures. *)
Fixpoint List_proc (limit : option Z) (sortedIds : list SortId) (resultIds : list Z)
  : bool * list Z :=
  match sortedIds with
  | [] => (true, resultIds)
  | sortId :: rest =>
      let resultIds := resultIds ++ [SortId_Id sortId] in
      if match limit with
         | Some n => bool_decide (n ≤ Z.of_nat (length resultIds))
         | None => false
         end
      then (false, resultIds)
      else List_proc limit rest resultIds
  end.

Section Query.
Context `{!SliceSorter}.

(** One pass of the [for _, sortedBm := range sortedBms] loop of [Scan]. *)
Definition Scan_bucket {B : Type} (indexKey : string) (baseBm : roaring.Bitmap)
    (reverse_ : bool) (proc : list SortId → B → bool * B)
    (sortedBm : SortKeyBitmap) (b : B) : M (B + B) :=
  bm ← deref (Bitmap sortedBm);
  let bm := roaring.And bm baseBm in
  if roaring.GetCardinality bm =? 0 then mret (inl b)          (* continue *)
  else
    sortedIds ← QuerySortIds indexKey bm;
    let sortedIds := if reverse_ then reverse sortedIds else sortedIds in
    let '(continue, b) := proc sortedIds b in
    if continue then mret (inl b) else mret (inr b)             (* return nil *).

(** The [for start != end] loop of [Scan]; [fuel] bounds the number of
    pages read. *)
Fixpoint Scan_loop {B : Type} (fuel : nat) (indexKey : string) (baseBm : roaring.Bitmap)
    (reverse_ : bool) (proc : list SortId → B → bool * B) (start end_ : Z) (b : B)
  : M B :=
  if bool_decide (start = end_) then mret b
  else
    match fuel with
    | O => panic
    | S fuel =>
        sortedBms ← RedisSortKeyBitmapStore_Scan indexKey start end_ reverse_ 100;
        match last sortedBms with
        | None => mret b                                         (* break *)
        | Some lastBm =>
            let start := SortKey lastBm in
            let start :=
              if bool_decide (start ≠ end_)
              then if negb reverse_ then uint64 (start + 1) else uint64 (start - 1)
              else start in
            res ← for_range (Scan_bucket indexKey baseBm reverse_ proc) sortedBms b;
            match res with
            | inl b => Scan_loop fuel indexKey baseBm reverse_ proc start end_ b
            | inr b => mret b
            end
        end
    end.

(** Every page but the last advances the cursor past at least one member
    of the sorted set, so one more page than there are members is enough. *)
Definition SparseU64IndexReader_Scan {B : Type} (r : SparseU64IndexReader)
    (baseBm : roaring.Bitmap) (reverse_ : bool) (proc : list SortId → B → bool * B)
    (b : B) : M B :=
  (* scan bitmaps, sort by fv *)
  let '(start, end_) := if reverse_ then (u64_max, 0) else (0, u64_max) in
  let indexKey := MakeIndexKey (SparseU64IndexReader_Index r) in
  fuel ← gets (λ rd, S (length (zset_members rd indexKey)));
  Scan_loop fuel indexKey baseBm reverse_ proc start end_ b.

(** Lines 81 to 120 of [List]: the accumulator after the filters. *)
Definition List_accBm (s : OrdersSearchService) (r : Request) : M roaring.Bitmap :=
  accBm ← TermIndexReader_Get (AllIndexReader s) (Int64 0);
  accBm ← match OrderStatusEq r with
          | Some v =>
              bm ← TermIndexReader_Get (OrderStatusIndexReader s) (Int64 v);
              mret (roaring.And accBm bm)
          | None => mret accBm
          end;
  accBm ← match ProductIDEq r with
          | Some v =>
              bm ← TermIndexReader_Get (ProductIdIndexReader s) (Int64 v);
              mret (roaring.And accBm bm)
          | None => mret accBm
          end;
  match ProviderIDFilter r with
  | Some f =>
      match Mode f with
      | FilterModeEq =>
          bm ← TermIndexReader_Get (ProviderIdIndexReader s) (PtrInt64 (Some (Value f)));
          mret (roaring.And accBm bm)
      | FilterModeNull =>
          bm ← TermIndexReader_Get (ProviderIdIndexReader s) (PtrInt64 None);
          mret (roaring.And accBm bm)
      | FilterModeNotNull =>
          bm ← TermIndexReader_Get (ProviderIdIndexReader s) (PtrInt64 None);
          mret (roaring.AndNot accBm bm)
      end
  | None => mret accBm
  end.

(** List returns a list of order IDs matching the given query ordered by
    createTime desc. *)
Definition OrdersSearchService_List (s : OrdersSearchService) (r : Request) : M Response :=
  slog_write LevelDebug "Querying orders";;
  accBm ← List_accBm s r;
  let resp := mkResponse [] (roaring.GetCardinality accBm) in
  if bool_decide (Limit r = Some 0) || (Total resp =? 0) then mret resp
  else
    resultIds ← SparseU64IndexReader_Scan (CreateTimeIndexReader s) accBm true
                  (List_proc (Limit r)) [];
    mret (mkResponse resultIds (Total resp)).

End Query.

(** ** Reference definitions

    What the claims say, written without the paging loop and without a
    particular sort routine.  The theorems relate the code to them. *)

(** The sort keys of the stored buckets of an index, ascending.  A member
    of the sorted set is the rendering of a uint64. *)
Definition bucket_keys (rd : Redis) (indexKey : string) : list Z :=
  filter (λ k, 0 ≤ k ≤ u64_max) (zset_members rd indexKey).

(** The stored bitmap of a bucket, empty if there is none. *)
Definition bucket (rd : Redis) (indexKey : string) (key : Z) : gset Z :=
  parseBitmap (skbm_hm rd !! (indexKey, key)).

(** The forward value of an id; zero if the forward map has no entry. *)
Definition forward_value (rd : Redis) (indexKey : string) (id : Z) : Z :=
  default 0 (fv_hash rd !! (indexKey, id)).

(** The order by (forward value, id). *)
Definition SortId_le (a b : SortId) : Prop :=
  SortId_SortKey a < SortId_SortKey b ∨
  (SortId_SortKey a = SortId_SortKey b ∧ SortId_Id a ≤ SortId_Id b).

Global Instance SortId_le_dec (a b : SortId) : Decision (SortId_le a b).
Proof. unfold SortId_le. apply _. Defined.

(** The ids of a bitmap with their forward values, ascending by
    (forward value, id). *)
Definition sorted_ids (rd : Redis) (indexKey : string) (bm : gset Z) : list SortId :=
  merge_sort SortId_le ((λ id, mkSortId id (forward_value rd indexKey id)) <$> elements bm).

(** What [Scan] hands to the callback for one bucket: nothing if no id of
    the bucket is in the base bitmap. *)
Definition bucket_batch (rd : Redis) (indexKey : string) (baseBm : gset Z)
    (reverse_ : bool) (key : Z) : option (list SortId) :=
  let bm := bucket rd indexKey key ∩ baseBm in
  if bool_decide (bm = ∅) then None
  else Some (if reverse_ then reverse (sorted_ids rd indexKey bm)
             else sorted_ids rd indexKey bm).

(** Calling the callback on the batches in turn until it returns false:
    [inl] when every batch was delivered, [inr] when the callback stopped
    the scan. *)
Fixpoint deliver {B : Type} (proc : list SortId → B → bool * B)
    (batches : list (list SortId)) (b : B) : B + B :=
  match batches with
  | [] => inl b
  | batch :: rest =>
      let '(continue, b) := proc batch b in
      if continue then deliver proc rest b else inr b
  end.

Definition outcome {B : Type} (r : B + B) : B :=
  match r with inl b => b | inr b => b end.

(** The buckets the paging loop gets to, given the keys in scan order:
    page after page of a hundred keys, until a page ends on the end of the
    key space or right before it. *)
Fixpoint reached (n : nat) (end_ step : Z) (keys : list Z) : list Z :=
  match n with
  | O => []
  | S n =>
      match last (take 100 keys) with
      | None => []
      | Some x =>
          take 100 keys ++
          (if bool_decide (x = end_ ∨ x + step = end_) then []
           else reached n end_ step (drop 100 keys))
      end
  end.

Definition scan_keys (rd : Redis) (indexKey : string) (reverse_ : bool) : list Z :=
  if reverse_ then reverse (bucket_keys rd indexKey) else bucket_keys rd indexKey.

Definition reached_keys (rd : Redis) (indexKey : string) (reverse_ : bool) : list Z :=
  let keys := scan_keys rd indexKey reverse_ in
  if reverse_ then reached (length keys) 0 (-1) keys
  else reached (length keys) u64_max 1 keys.

(** The keys a scan still has before it when its cursor is at [start]. *)
Definition keys_from (rd : Redis) (indexKey : string) (reverse_ : bool) (start : Z)
  : list Z :=
  if reverse_
  then reverse (filter (λ k, 0 ≤ k ≤ start) (zset_members rd indexKey))
  else filter (λ k, start ≤ k ≤ u64_max) (zset_members rd indexKey).

Definition scan_end (reverse_ : bool) : Z := if reverse_ then 0 else u64_max.
Definition scan_step (reverse_ : bool) : Z := if reverse_ then -1 else 1.
Definition scan_lt (reverse_ : bool) : relation Z :=
  if reverse_ then flip Z.lt else Z.lt.

(** The posting of a term: the stored bitmap, empty if there is none. *)
Definition term_posting (rd : Redis) (i : TermIndex) (value : Term) : gset Z :=
  parseBitmap (bm_hash rd !! (GetIndexKey i, MakeValueKey value)).

(** The ids that pass the equality filters on [order_status] and
    [product_id]. *)
Definition equality_matches (rd : Redis) (s : OrdersSearchService)
    (status product : option Z) : gset Z :=
  let A := term_posting rd (TermIndexReader_Index (AllIndexReader s)) (Int64 0) in
  let A := match status with
           | Some v => A ∩ term_posting rd (TermIndexReader_Index (OrderStatusIndexReader s)) (Int64 v)
           | None => A
           end in
  match product with
  | Some v => A ∩ term_posting rd (TermIndexReader_Index (ProductIdIndexReader s)) (Int64 v)
  | None => A
  end.

(** A predicate [provider_id = value] on an accumulator, where [value] may
    be null. *)
Definition provider_equals (rd : Redis) (s : OrdersSearchService) (value : option Z)
    (A : gset Z) : gset Z :=
  A ∩ term_posting rd (TermIndexReader_Index (ProviderIdIndexReader s)) (PtrInt64 value).

(** Bitmap compaction: no stored bitmap, of a term posting or of a bucket,
    is empty. *)
Definition compact (rd : Redis) : Prop :=
  map_Forall (λ _ bm, bm ≠ (∅ : gset Z)) (bm_hash rd) ∧
  map_Forall (λ _ bm, bm ≠ (∅ : gset Z)) (skbm_hm rd).

(** A computation keeps the store compact. *)
Definition preserves_compact {A : Type} (m : M A) : Prop :=
  ∀ st, compact (redis st) →
        match m st with
        | Some (_, st') => compact (redis st')
        | None => True
        end.

(** The write operations of the two indexes. *)
Inductive WriteOp : Type :=
  | BmStoreSet (indexKey valueKey : string) (value : option (gset Z))
  | SortKeyBitmapStoreMSet (indexKey : string) (skbms : list SortKeyBitmap)
  | TermAdd (w : TermIndexWriter) (fv : Term) (id : Z)
  | TermRemove (w : TermIndexWriter) (fv : Term) (id : Z)
  | TermMove (w : TermIndexWriter) (before after : Term) (id : Z)
  | SparseAdd (w : SparseU64IndexWriter) (fv id : Z)
  | SparseRemove (w : SparseU64IndexWriter) (fv id : Z)
  | SparseMove (w : SparseU64IndexWriter) (before after id : Z).

Definition run_write `{!SliceSorter} (op : WriteOp) : M unit :=
  match op with
  | BmStoreSet indexKey valueKey value => RedisBmStore_Set indexKey valueKey value
  | SortKeyBitmapStoreMSet indexKey skbms => RedisSortKeyBitmapStore_MSet indexKey skbms
  | TermAdd w fv id => TermIndexWriter_Add w fv id
  | TermRemove w fv id => TermIndexWriter_Remove w fv id
  | TermMove w before after id => TermIndexWriter_Move w before after id
  | SparseAdd w fv id => SparseU64IndexWriter_Add w fv id
  | SparseRemove w fv id => SparseU64IndexWriter_Remove w fv id
  | SparseMove w before after id => SparseU64IndexWriter_Move w before after id
  end.

(** The floor bucket of a value: the greatest sort key not above it. *)
Definition floor_key (rd : Redis) (indexKey : string) (fv : Z) : option Z :=
  head (keys_from rd indexKey true fv).

(** What [MSet] leaves in the store. *)
Definition mset_redis (indexKey : string) (skbms : list SortKeyBitmap) (rd : Redis)
  : Redis :=
  let delKeys := SortKey <$> filter (λ skbm, is_nil_or_empty skbm = true) skbms in
  let setSkbms := filter (λ skbm, is_nil_or_empty skbm = false) skbms in
  let pairs := omap (λ skbm, match Bitmap skbm with
                             | Some raw => Some (SortKey skbm, raw)
                             | None => None
                             end) setSkbms in
  let rd1 := match delKeys with
             | [] => rd
             | _ => mkRedis (bm_hash rd) (zrem indexKey delKeys (skbm_zs rd))
                      (hdel (λ k, (indexKey, k)) delKeys (skbm_hm rd)) (fv_hash rd)
             end in
  match setSkbms with
  | [] => rd1
  | _ => mkRedis (bm_hash rd1) (zadd indexKey (SortKey <$> setSkbms) (skbm_zs rd1))
           (hmset (λ k, (indexKey, k)) pairs (skbm_hm rd1)) (fv_hash rd1)
  end.

(** A delete that stops before its last write, the removal of the forward
    entry: what a partially applied [Remove] has done. *)
Definition Remove_until_MSet (w : SparseU64IndexWriter) (fv id : Z) : M unit :=
  let fieldKey := MakeIndexKey (SparseU64IndexWriter_Index w) in
  floorSortedBm ← getFloorSortedBm fieldKey fv;
  match floorSortedBm with
  | Some floor =>
      floorBm ← deref (Bitmap floor);
      RedisSortKeyBitmapStore_MSet fieldKey
        [mkSortKeyBitmap (SortKey floor) (Some (roaring.Remove floorBm id))]
  | None => slog_write LevelWarn "cannot find floor sorted bitmap"
  end.

(** The ids that pass every filter of a request. *)
Definition matching_ids (rd : Redis) (s : OrdersSearchService) (r : Request) : gset Z :=
  let A := equality_matches rd s (OrderStatusEq r) (ProductIDEq r) in
  match ProviderIDFilter r with
  | Some f =>
      match Mode f with
      | FilterModeEq => provider_equals rd s (Some (Value f)) A
      | FilterModeNull => provider_equals rd s None A
      | FilterModeNotNull =>
          A ∖ term_posting rd (TermIndexReader_Index (ProviderIdIndexReader s))
                (PtrInt64 None)
      end
  | None => A
  end.

(** The answer of [List] in terms of the store: the count of the matching
    ids, and the ids the callback collects from a descending scan. *)
Definition List_response (rd : Redis) (s : OrdersSearchService) (r : Request) : Response :=
  let A := matching_ids rd s r in
  let indexKey := MakeIndexKey (SparseU64IndexReader_Index (CreateTimeIndexReader s)) in
  mkResponse
    (if bool_decide (Limit r = Some 0) || bool_decide (A = ∅) then []
     else outcome (deliver (List_proc (Limit r))
            (omap (bucket_batch rd indexKey A true) (reached_keys rd indexKey true)) []))
    (Z.of_nat (size A)).

(** *** The table the index is built for

    The rows of [orders] after a sequence of CDC events, and the answer the
    query of a request has on them: the count of the rows that satisfy every
    predicate, and their ids by [create_time] descending, then id
    descending, cut at the limit. *)

Definition apply_event (rows : gmap Z Order) (m : DataChangedMessage) : gmap Z Order :=
  if bool_decide (Op m = "r" ∨ Op m = "c")
  then match After m with Some after => <[ID after := after]> rows | None => rows end
  else if bool_decide (Op m = "u")
  then match Before m, After m with
       | Some before, Some after => <[ID after := after]> (delete (ID before) rows)
       | _, _ => rows
       end
  else if bool_decide (Op m = "d")
  then match Before m with Some before => delete (ID before) rows | None => rows end
  else rows.

Definition rows_after (events : list DataChangedMessage) : gmap Z Order :=
  foldl apply_event ∅ events.

Definition satisfies (r : Request) (o : Order) : bool :=
  match OrderStatusEq r with
  | Some v => bool_decide (OrderStatus o = v)
  | None => true
  end &&
  match ProductIDEq r with
  | Some v => bool_decide (ProductID o = v)
  | None => true
  end &&
  match ProviderIDFilter r with
  | Some f =>
      match Mode f with
      | FilterModeEq => bool_decide (ProviderID o = Some (Value f))
      | FilterModeNull => bool_decide (ProviderID o = None)
      | FilterModeNotNull => bool_decide (ProviderID o ≠ None)
      end
  | None => true
  end.

(** [create_time] descending, then id descending. *)
Definition newer (a b : Order) : Prop :=
  CreateTime b < CreateTime a ∨ (CreateTime a = CreateTime b ∧ ID b ≤ ID a).

Global Instance newer_dec (a b : Order) : Decision (newer a b).
Proof. unfold newer. apply _. Defined.

Definition expected_response (rows : gmap Z Order) (r : Request) : Response :=
  let live := filter (λ o, satisfies r o = true) (snd <$> map_to_list rows) in
  let ids := ID <$> merge_sort newer live in
  mkResponse
    (match Limit r with
     | Some n => take (Z.to_nat n) ids
     | None => ids
     end)
    (Z.of_nat (length live)).

(** *** Inputs of the examples *)

Definition initial : State := mkState empty_redis [].

(** An insert event for a row with the given id and create_time. *)
Definition created (id create_time : Z) : DataChangedMessage :=
  mkDataChangedMessage "c" None (Some (mkOrder id 1 1 None create_time)).

(** A hundred and one rows inserted from the newest to the oldest: ids 1
    to 101 with create_time 100 down to 0. *)
Definition newest_first : list DataChangedMessage :=
  (λ i : nat, created (Z.of_nat i + 1) (100 - Z.of_nat i)) <$> seq 0 101.

Definition any_order : Request := mkRequest None None None None.

(** A writer that splits buckets of two ids. *)
Definition small_writer : SparseU64IndexWriter :=
  mkSparseU64IndexWriter (mkSparseIndex "orders" "create_time") 2.

(** The state a computation ends in, the initial state if it has none. *)
Definition state_after {A : Type} (m : M A) (st : State) : State :=
  match m st with
  | Some (_, st') => st'
  | None => st
  end.

Definition completes {A : Type} (m : M A) (st : State) : bool :=
  match m st with
  | Some _ => true
  | None => false
  end.

(** A delete event for a row with the given id and create_time. *)
Definition deleted (id create_time : Z) : DataChangedMessage :=
  mkDataChangedMessage "d" (Some (mkOrder id 1 1 None create_time)) None.

Definition create_time_key : string := "sparse:orders:create_time".

(** Three inserts with the same create_time, into buckets of two. *)
Definition split_with_ties `{!SliceSorter} : M unit :=
  SparseU64IndexWriter_Add small_writer 10 1;;
  SparseU64IndexWriter_Add small_writer 10 2;;
  SparseU64IndexWriter_Add small_writer 10 3.

(** A bucket that lost the row it was created for, then split. *)
Definition split_after_delete `{!SliceSorter} : M unit :=
  SparseU64IndexWriter_Add small_writer 10 1;;
  SparseU64IndexWriter_Add small_writer 20 2;;
  SparseU64IndexWriter_Remove small_writer 10 1;;
  SparseU64IndexWriter_Add small_writer 30 3;;
  SparseU64IndexWriter_Add small_writer 40 4.

(** The same bucket, split by the insert of a value under the smallest it
    holds. *)
Definition split_below_smallest `{!SliceSorter} : M unit :=
  SparseU64IndexWriter_Add small_writer 10 1;;
  SparseU64IndexWriter_Add small_writer 20 2;;
  SparseU64IndexWriter_Remove small_writer 10 1;;
  SparseU64IndexWriter_Add small_writer 30 3;;
  SparseU64IndexWriter_Add small_writer 15 4.


(** Two rows in one bucket. *)
Definition two_rows `{!SliceSorter} : M unit :=
  SparseU64IndexWriter_Add small_writer 10 1;;
  SparseU64IndexWriter_Add small_writer 20 2.

(** A computation completes, and its result and final state are as said. *)
Definition ends_with {A : Type} (m : M A) (st : State) (P : A → State → Prop) : Prop :=
  match m st with
  | Some (a, st') => P a st'
  | None => False
  end.

Global Instance compact_dec (rd : Redis) : Decision (compact rd).
Proof. unfold compact. apply _. Defined.

(** One row in the sparse index. *)
Definition one_row : State :=
  state_after (SparseU64IndexWriter_Add (H:=stable_sorter) small_writer 10 1) initial.

(** The delete of that row, cut short before the forward entry is removed. *)
Definition partial_delete : State :=
  state_after (Remove_until_MSet small_writer 10 1) one_row.

(** No two ids of the floor bucket of [fv] have the same forward value. *)
Definition distinct_floor (w : SparseU64IndexWriter) (fv : Z) (rd : Redis) : Prop :=
  let fieldKey := MakeIndexKey (SparseU64IndexWriter_Index w) in
  match floor_key rd fieldKey fv with
  | Some k => NoDup (forward_value rd fieldKey <$> elements (bucket rd fieldKey k))
  | None => True
  end.

Global Instance distinct_floor_dec (w : SparseU64IndexWriter) (fv : Z) (rd : Redis) :
  Decision (distinct_floor w fv rd).
Proof. unfold distinct_floor. cbv zeta. destruct (floor_key _ _ _); apply _. Defined.

(** The floor bucket of [fv] holds two ids. *)
Definition floor_of_two (w : SparseU64IndexWriter) (fv : Z) (rd : Redis) : Prop :=
  let fieldKey := MakeIndexKey (SparseU64IndexWriter_Index w) in
  match floor_key rd fieldKey fv with
  | Some k => size (bucket rd fieldKey k) = 2%nat
  | None => False
  end.

Global Instance floor_of_two_dec (w : SparseU64IndexWriter) (fv : Z) (rd : Redis) :
  Decision (floor_of_two w fv rd).
Proof. unfold floor_of_two. cbv zeta. destruct (floor_key _ _ _); apply _. Defined.

(** ** Package strconv, and the encodings of the stores *)

(** The value of a byte as a digit: ['0'] to ['9'], then the letters of
    either case from ten on ([lower(c) - 'a' + 10]). *)
Definition digit_value (c : Ascii.ascii) : option Z :=
  let b := Z.of_N (Ascii.N_of_ascii c) in
  if (48 <=? b) && (b <=? 57) then Some (b - 48)
  else if (97 <=? b) && (b <=? 122) then Some (b - 97 + 10)
  else if (65 <=? b) && (b <=? 90) then Some (b - 65 + 10)
  else None.

(** The loop of [strconv.ParseUint(s, base, 64)] for a base from 2 to 36
    given by the caller: no prefix and no underscore is accepted; a byte
    that is no digit of the base is a syntax error, a value that does not
    fit 64 bits a range error. *)
Fixpoint ParseUint_loop (base : Z) (s : string) (n : Z) : option Z :=
  match s with
  | EmptyString => Some n
  | String c s =>
      match digit_value c with
      | None => None                                             (* syntax error *)
      | Some d =>
          if base <=? d then None                                (* syntax error *)
          else if u64_max / base + 1 <=? n then None            (* n*base overflows *)
          else
            let n1 := n * base + d in
            if u64_max <? n1 then None                           (* n+d overflows *)
            else ParseUint_loop base s n1
      end
  end.

Definition ParseUint (s : string) (base : Z) : option Z :=
  match s with
  | EmptyString => None                                          (* syntax error *)
  | _ => ParseUint_loop base s 0
  end.

(** [strconv.ParseInt(s, 10, 64)]: an optional sign, then [ParseUint]; the
    value has to fit a signed 64-bit integer. *)
Definition ParseInt (s : string) : option Z :=
  match s with
  | EmptyString => None
  | String c rest =>
      let b := Z.of_N (Ascii.N_of_ascii c) in
      let neg := bool_decide (b = 45) in                          (* '-' *)
      let digits := if bool_decide (b = 43) || neg then rest else s in   (* '+' *)
      un ← ParseUint digits 10;
      let cutoff := 2 ^ 63 in
      if negb neg && (cutoff <=? un) then None
      else if neg && (cutoff <? un) then None
      else Some (if neg then - un else un)
  end.

(** A hex digit in lower case, as the verb [%x] prints it. *)
Definition hex_digit (d : Z) : Ascii.ascii :=
  Ascii.ascii_of_N (Z.to_N (if d <? 10 then 48 + d else 87 + d)).

(** The last [n] hex digits of [u], put before [acc]. *)
Fixpoint hex_digits (n : nat) (u : Z) (acc : string) : string :=
  match n with
  | O => acc
  | S n => hex_digits n (u / 16) (String (hex_digit (u `mod` 16)) acc)
  end.

(** [fmt.Sprintf("%016x", u)] for a uint64, which has no more than 16 hex
    digits. *)
Definition u64ToHex (u : Z) : string := hex_digits 16 u "".

Definition hexToU64 (s : string) : option Z := ParseUint s 16.

(** The number a string of decimal digits stands for, read from the left
    after the digits that gave [n]. *)
Fixpoint uint_value (d : Decimal.uint) (n : Z) : Z :=
  match d with
  | Decimal.Nil => n
  | Decimal.D0 d => uint_value d (n * 10 + 0)
  | Decimal.D1 d => uint_value d (n * 10 + 1)
  | Decimal.D2 d => uint_value d (n * 10 + 2)
  | Decimal.D3 d => uint_value d (n * 10 + 3)
  | Decimal.D4 d => uint_value d (n * 10 + 4)
  | Decimal.D5 d => uint_value d (n * 10 + 5)
  | Decimal.D6 d => uint_value d (n * 10 + 6)
  | Decimal.D7 d => uint_value d (n * 10 + 7)
  | Decimal.D8 d => uint_value d (n * 10 + 8)
  | Decimal.D9 d => uint_value d (n * 10 + 9)
  end.

(** ** What [List] collects

    The ids the callback of [List] keeps from a sequence of ids when it has
    [len] of them already: all of them without a limit; with a limit it
    stops after the append that reaches it, so after one id at least. *)
Definition take_quota (limit : option Z) (len : nat) (ids : list Z) : list Z :=
  match limit with
  | Some n => take (Z.to_nat (Z.max 1 (n - Z.of_nat len))) ids
  | None => ids
  end.

(** ** Package main: the handler of [GET /orders] *)

Module main.

(** The query parameters as [BindQuery] leaves them; a parameter that is
    absent leaves a nil pointer or an empty string. *)
Record Query : Type := mkQuery {
  OrderStatusEq : option Z;
  ProductIDEq : option Z;
  ProviderIDEq : string;
  ProviderIDNotNull : string;
  Limit : option Z
}.

Record Order : Type := mkOrder {
  ID : Z;
  OrderStatus : Z;
  ProductID : Z;
  ProviderID : option Z;
  CreateTime : string
}.

(** The request [QueryOrders] hands to [List]; [None] when it answers
    400, "Invalid provider_id_eq". *)
Definition request (q : Query) : option Request :=
  let r filter := mkRequest (OrderStatusEq q) (ProductIDEq q) filter (Limit q) in
  if bool_decide (ProviderIDEq q = "null")
  then Some (r (Some (mkNullableValueFilter FilterModeNull 0)))
  else if bool_decide (ProviderIDEq q ≠ "")
  then match ParseInt (ProviderIDEq q) with
       | None => None
       | Some id => Some (r (Some (mkNullableValueFilter FilterModeEq id)))
       end
  else if bool_decide (ProviderIDNotNull q ≠ "")
  then Some (r (Some (mkNullableValueFilter FilterModeNotNull 0)))
  else Some (r None).

(** [orderMap]: the rows the database returned, by id. *)
Definition orderMap (orders : list Order) : gmap Z Order :=
  foldl (λ m order, <[ID order := order]> m) ∅ orders.

(** [resp.Orders]: one order for each id of [listResp.IDs]; an id the
    database has no row for gets an order with nothing but the id. *)
Definition orders_of (ids : list Z) (orders : list Order) : list Order :=
  (λ id, match orderMap orders !! id with
         | Some order => order
         | None => mkOrder id 0 0 None ""
         end) <$> ids.

End main.

(** ** Invariants and reference definitions for the writers, the consumer
    and the table *)


(** The posting stored under a hash field, empty if there is none. *)
Definition posting (rd : Redis) (indexKey valueKey : string) : gset Z :=
  parseBitmap (bm_hash rd !! (indexKey, valueKey)).

(** What a write to the term index leaves untouched. *)
Definition same_but_postings (st st' : State) : Prop :=
  skbm_zs (redis st') = skbm_zs (redis st) ∧ skbm_hm (redis st') = skbm_hm (redis st) ∧
  fv_hash (redis st') = fv_hash (redis st) ∧ slog st' = slog st.

(** A sort key is a member of the sorted set of an index exactly if the
    hash of the index has a bitmap for it. *)
Definition in_sync (rd : Redis) : Prop :=
  ∀ indexKey key, key ∈ zset rd indexKey ↔ is_Some (skbm_hm rd !! (indexKey, key)).

(** A computation keeps a property of the store. *)
Definition preserves {A : Type} (P : Redis → Prop) (m : M A) : Prop :=
  ∀ st, P (redis st) →
        match m st with
        | Some (_, st') => P (redis st')
        | None => True
        end.

(** A store that is compact and in sync. *)
Definition well_kept (rd : Redis) : Prop := compact rd ∧ in_sync rd.

(** The store after the forward value of an id was set. *)
Definition set_fv (indexKey : string) (id value : Z) (rd : Redis) : Redis :=
  mkRedis (bm_hash rd) (skbm_zs rd) (skbm_hm rd) (<[(indexKey, id) := value]> (fv_hash rd)).

(** The store after the forward value of an id was removed. *)
Definition remove_fv (indexKey : string) (id : Z) (rd : Redis) : Redis :=
  mkRedis (bm_hash rd) (skbm_zs rd) (skbm_hm rd) (delete (indexKey, id) (fv_hash rd)).

Global Instance Order_eq_dec : EqDecision Order.
Proof. solve_decision. Defined.

(** An event the table can have produced when its rows are [rows]: the
    insert of a row with a new id, or the update or delete of a row with
    the row as it is as the before image; an update keeps the id. *)
Definition event_ok (rows : gmap Z Order) (m : DataChangedMessage) : Prop :=
  if bool_decide (Op m = "r" ∨ Op m = "c")
  then match After m with
       | Some after => rows !! ID after = None
       | None => False
       end
  else if bool_decide (Op m = "u")
  then match Before m, After m with
       | Some before, Some after => rows !! ID before = Some before ∧ ID after = ID before
       | _, _ => False
       end
  else if bool_decide (Op m = "d")
  then match Before m with
       | Some before => rows !! ID before = Some before
       | None => False
       end
  else False.

Fixpoint events_ok (rows : gmap Z Order) (events : list DataChangedMessage) : Prop :=
  match events with
  | [] => True
  | m :: rest => event_ok rows m ∧ events_ok (apply_event rows m) rest
  end.

Global Instance event_ok_dec (rows : gmap Z Order) (m : DataChangedMessage) :
  Decision (event_ok rows m).
Proof.
  unfold event_ok.
  destruct (bool_decide (Op m = "r" ∨ Op m = "c")); [destruct (After m); apply _|].
  destruct (bool_decide (Op m = "u")); [destruct (Before m), (After m); apply _|].
  destruct (bool_decide (Op m = "d")); [destruct (Before m); apply _|apply _].
Defined.

Global Instance events_ok_dec (rows : gmap Z Order) (events : list DataChangedMessage) :
  Decision (events_ok rows events).
Proof. revert rows. induction events; intros rows; simpl; apply _. Defined.

(** The postings of a term index are those of the table: an id is in the
    posting of a value key exactly if the table has a row with this id
    whose value [f] has this key. *)
Definition term_exact (i : TermIndex) (f : Order → Term) (rows : gmap Z Order)
    (rd : Redis) : Prop :=
  ∀ valueKey id,
    id ∈ posting rd (GetIndexKey i) valueKey ↔
    ∃ o, rows !! id = Some o ∧ MakeValueKey (f o) = valueKey.

(** The term indexes and the forward map of [create_time] are those of
    the table. *)
Definition terms_exact (consumer : saramaConsumer) (rows : gmap Z Order) (rd : Redis)
  : Prop :=
  term_exact (TermIndexWriter_Index (AllIndexWriter consumer)) (λ _, Int64 0) rows rd ∧
  term_exact (TermIndexWriter_Index (OrderStatusIndexWriter consumer))
    (λ o, Int64 (OrderStatus o)) rows rd ∧
  term_exact (TermIndexWriter_Index (ProductIdIndexWriter consumer))
    (λ o, Int64 (ProductID o)) rows rd ∧
  term_exact (TermIndexWriter_Index (ProviderIdIndexWriter consumer))
    (λ o, PtrInt64 (ProviderID o)) rows rd ∧
  ∀ id, fv_hash rd !! (MakeIndexKey (SparseU64IndexWriter_Index
                                       (CreateTimeIndexWriter consumer)), id) =
        CreateTime <$> rows !! id.

(** The four term indexes of a consumer have four index keys. *)
Definition distinct_indexes (consumer : saramaConsumer) : Prop :=
  NoDup [GetIndexKey (TermIndexWriter_Index (AllIndexWriter consumer));
         GetIndexKey (TermIndexWriter_Index (OrderStatusIndexWriter consumer));
         GetIndexKey (TermIndexWriter_Index (ProductIdIndexWriter consumer));
         GetIndexKey (TermIndexWriter_Index (ProviderIdIndexWriter consumer))].

(** Every row of the table is under its id. *)
Definition keyed_by_id (rows : gmap Z Order) : Prop :=
  ∀ id o, rows !! id = Some o → ID o = id.

(** The rows that a request asks for. *)
Definition live_rows (rows : gmap Z Order) (r : Request) : list Order :=
  filter (λ o, satisfies r o = true) (snd <$> map_to_list rows).

(** The sparse index of an index key is exact for the forward values
    [fvs]: the forward map is [fvs]; the members of the sorted set are the
    sort keys of the non-empty buckets; and every id of [fvs] is in one
    bucket, the floor bucket of its value, which holds no other ids. *)
Definition sparse_exact (indexKey : string) (fvs : gmap Z Z) (rd : Redis) : Prop :=
  (∀ id, fv_hash rd !! (indexKey, id) = fvs !! id) ∧
  (∀ k, k ∈ zset rd indexKey ↔ bucket rd indexKey k ≠ ∅) ∧
  (∀ k id, id ∈ bucket rd indexKey k ↔
           ∃ v, fvs !! id = Some v ∧ floor_key rd indexKey v = Some k) ∧
  (∀ id v, fvs !! id = Some v → is_Some (floor_key rd indexKey v)).

(** An event with which the table stays within one bucket and above the
    last sort key of a descending scan: an insert finds fewer rows than
    the split threshold, and the row an insert or update brings has a
    [create_time] from 1 to the greatest uint64. *)
Definition event_fits (threshold : Z) (rows : gmap Z Order) (m : DataChangedMessage)
  : Prop :=
  match After m with
  | Some after => 1 ≤ CreateTime after ≤ u64_max
  | None => True
  end ∧
  (Op m = "r" ∨ Op m = "c" → Z.of_nat (size rows) < threshold).

Fixpoint events_fit (threshold : Z) (rows : gmap Z Order)
    (events : list DataChangedMessage) : Prop :=
  match events with
  | [] => True
  | m :: rest => event_fits threshold rows m ∧ events_fit threshold (apply_event rows m) rest
  end.

Global Instance event_fits_dec (threshold : Z) (rows : gmap Z Order)
    (m : DataChangedMessage) : Decision (event_fits threshold rows m).
Proof. unfold event_fits. destruct (After m); apply _. Defined.

Global Instance events_fit_dec (threshold : Z) (rows : gmap Z Order)
    (events : list DataChangedMessage) : Decision (events_fit threshold rows events).
Proof. revert rows. induction events; intros rows; simpl; apply _. Defined.

(** The sparse index of [create_time] is exact for a table that fits. *)
Definition sparse_fits (indexKey : string) (threshold : Z) (rows : gmap Z Order)
    (rd : Redis) : Prop :=
  sparse_exact indexKey (CreateTime <$> rows) rd ∧
  (∀ k, k ∈ zset rd indexKey → 1 ≤ k) ∧
  Z.of_nat (size rows) ≤ threshold ∧
  (∀ id o, rows !! id = Some o → 1 ≤ CreateTime o ≤ u64_max).

(** The order in which a descending scan hands over the ids: forward value
    descending, then id descending, strictly. *)
Definition SortId_after (a b : SortId) : Prop :=
  SortId_SortKey b < SortId_SortKey a ∨
  (SortId_SortKey a = SortId_SortKey b ∧ SortId_Id b < SortId_Id a).

(** A row as [QuerySortIds] sees it. *)
Definition SortId_of (o : Order) : SortId := mkSortId (ID o) (CreateTime o).

(** Two rows inserted and the older one deleted. *)
Definition insert_two_delete_one : list DataChangedMessage :=
  [created 1 10; created 2 20; deleted 1 10].

(** A message the consumer cannot handle: its op is none of r, c, u and
    d, or it lacks the row image its op reads. *)
Definition bad_message (m : DataChangedMessage) : Prop :=
  if bool_decide (Op m = "r" ∨ Op m = "c") then After m = None
  else if bool_decide (Op m = "u") then Before m = None ∨ After m = None
  else if bool_decide (Op m = "d") then Before m = None
  else True.

(** The bucket that the insert of [split_below_smallest] finds: the row
    it was created for is gone, and it is full. *)
Definition before_split_below `{!SliceSorter} : M unit :=
  SparseU64IndexWriter_Add small_writer 10 1;;
  SparseU64IndexWriter_Add small_writer 20 2;;
  SparseU64IndexWriter_Remove small_writer 10 1;;
  SparseU64IndexWriter_Add small_writer 30 3.

(** The insert of [split_below_smallest], then the delete of the row it
    brought. *)
Definition remove_after_split_below `{!SliceSorter} : M unit :=
  SparseU64IndexWriter_Add small_writer 10 1;;
  SparseU64IndexWriter_Add small_writer 20 2;;
  SparseU64IndexWriter_Remove small_writer 10 1;;
  SparseU64IndexWriter_Add small_writer 30 3;;
  SparseU64IndexWriter_Add small_writer 15 4;;
  SparseU64IndexWriter_Remove small_writer 15 4.

(** A callback that keeps every batch it is given and never stops the
    scan. *)
Definition keep_batches (sortedIds : list SortId) (batches : list (list SortId))
  : bool * list (list SortId) :=
  (true, batches ++ [sortedIds]).

(** The ids of the rows of [newest_first]. *)
Definition ids_1_to_101 : gset Z := list_to_set (Z.of_nat <$> seq 1 101).

(** The order by (score, id) on the elements that [QuerySortedIds]
    sorts. *)
Definition SortedId_le (a b : SortedId) : Prop :=
  SortedId_Score a < SortedId_Score b ∨
  (SortedId_Score a = SortedId_Score b ∧ SortedId_Id a ≤ SortedId_Id b).

Global Instance SortedId_le_dec (a b : SortedId) : Decision (SortedId_le a b).
Proof. unfold SortedId_le. apply _. Defined.

(** Two values that [==] compares by what they hold: two int64, or two
    *int64 of which one at least is nil.  Two non-nil pointers are equal
    when they are one pointer, which their values do not tell. *)
Definition compared_by_value (before after : Term) : Prop :=
  match before, after with
  | PtrInt64 (Some _), PtrInt64 (Some _) => False
  | _, _ => True
  end.

Global Instance compared_by_value_dec (before after : Term) :
  Decision (compared_by_value before after).
Proof. unfold compared_by_value. destruct before as [|[|]], after as [|[|]]; apply _. Defined.




(** * Properties *)

(** ** The state monad *)

Lemma bind_run {A B : Type} (m : M A) (f : A → M B) (st st' : State) (a : A) :
  m st = Some (a, st') → (m ≫= f) st = f a st'.
Proof. intros H. unfold mbind, M_bind. by rewrite H. Qed.

Lemma gets_run {A : Type} (f : Redis → A) (st : State) :
  gets f st = Some (f (redis st), st).
Proof. done. Qed.

(** ** Sorted sets *)

Lemma StronglySorted_le_lt (l : list Z) :
  StronglySorted Z.le l → NoDup l → StronglySorted Z.lt l.
Proof.
  induction 1 as [|x l Hl IH Hx]; intros Hnd; [constructor|].
  apply NoDup_cons in Hnd as [Hx' Hnd].
  constructor; [by apply IH|].
  apply Forall_forall. intros y Hy.
  rewrite Forall_forall in Hx. specialize (Hx y Hy).
  assert (x ≠ y) by (intros ->; done). lia.
Qed.

Lemma elem_of_zset_members (rd : Redis) (key : string) (k : Z) :
  k ∈ zset_members rd key ↔ k ∈ zset rd key.
Proof.
  unfold zset_members. by rewrite merge_sort_Permutation, elem_of_elements.
Qed.

Lemma zset_members_sorted (rd : Redis) (key : string) :
  StronglySorted Z.lt (zset_members rd key).
Proof.
  apply StronglySorted_le_lt.
  - apply StronglySorted_merge_sort; apply _.
  - unfold zset_members. rewrite merge_sort_Permutation. apply NoDup_elements.
Qed.

Lemma lookup_zadd (key key' : string) (members : list Z) (zs : gmap string (gset Z)) :
  default ∅ (zadd key members zs !! key') =
  if decide (key = key') then list_to_set members ∪ default ∅ (zs !! key)
  else default ∅ (zs !! key').
Proof. unfold zadd. rewrite lookup_insert. by case_decide; subst. Qed.

Lemma lookup_zrem (key key' : string) (members : list Z) (zs : gmap string (gset Z)) :
  default ∅ (zrem key members zs !! key') =
  if decide (key = key') then default ∅ (zs !! key) ∖ list_to_set members
  else default ∅ (zs !! key').
Proof.
  unfold zrem.
  destruct (decide (default ∅ (zs !! key) ∖ list_to_set members = ∅)) as [He|He].
  - rewrite lookup_delete. case_decide; subst; [by rewrite He|done].
  - rewrite lookup_insert. by case_decide; subst.
Qed.

(** ** Strictly sorted lists *)

Section StrictlySorted.
Context {A : Type} (R : relation A) `{!StrictOrder R}.

Lemma StronglySorted_strict_NoDup (l : list A) : StronglySorted R l → NoDup l.
Proof.
  induction 1 as [|x l Hl IH Hx]; constructor; [|done].
  intros Hin. rewrite Forall_forall in Hx.
  by apply (irreflexivity R x), Hx.
Qed.

(** Two strictly sorted lists with the same elements are the same list. *)
Lemma StronglySorted_strict_ext (l1 l2 : list A) :
  StronglySorted R l1 → StronglySorted R l2 → (∀ x, x ∈ l1 ↔ x ∈ l2) → l1 = l2.
Proof.
  intros H1 H2 Hel.
  apply (StronglySorted_unique_strong R); [|done|done|].
  - intros x1 x2 _ _ H12 H21.
    destruct (irreflexivity R x1). by etrans.
  - apply NoDup_Permutation; [by apply StronglySorted_strict_NoDup..|done].
Qed.

(** In a strictly sorted list, what follows a prefix is what lies beyond
    the last element of the prefix. *)
Lemma elem_of_StronglySorted_suffix (l1 l2 : list A) (x k : A) :
  StronglySorted R (l1 ++ l2) → last l1 = Some x →
  k ∈ l2 ↔ k ∈ l1 ++ l2 ∧ R x k.
Proof.
  intros Hs Hlast. apply last_Some in Hlast as [l1' ->].
  split.
  - intros Hk. split; [set_solver|].
    eapply StronglySorted_app_1_elem_of; [exact Hs| |done]. set_solver.
  - intros [Hk Hxk]. apply elem_of_app in Hk as [Hk|Hk]; [|done].
    exfalso. apply StronglySorted_app_1_l in Hs.
    apply elem_of_app in Hk as [Hk|Hk].
    + apply (irreflexivity R x). etrans; [exact Hxk|].
      eapply StronglySorted_app_1_elem_of; [exact Hs|done|set_solver].
    + apply list_elem_of_singleton in Hk as ->. by apply (irreflexivity R x).
Qed.

Lemma StronglySorted_filter (P : A → Prop) `{!∀ x, Decision (P x)} (l : list A) :
  StronglySorted R l → StronglySorted R (filter P l).
Proof.
  induction 1 as [|x l Hl IH Hx]; [constructor|].
  rewrite filter_cons. case_decide; [|done].
  constructor; [done|]. apply Forall_forall. intros y Hy.
  apply list_elem_of_filter in Hy as [_ Hy]. rewrite Forall_forall in Hx. auto.
Qed.

Lemma StronglySorted_take (n : nat) (l : list A) :
  StronglySorted R l → StronglySorted R (take n l).
Proof. rewrite <-(take_drop n l) at 1. apply StronglySorted_app_1_l. Qed.

Lemma StronglySorted_drop (n : nat) (l : list A) :
  StronglySorted R l → StronglySorted R (drop n l).
Proof. rewrite <-(take_drop n l) at 1. apply StronglySorted_app_1_r. Qed.

End StrictlySorted.

Lemma StronglySorted_reverse {A : Type} (R : relation A) (l : list A) :
  StronglySorted R l → StronglySorted (flip R) (reverse l).
Proof.
  induction 1 as [|x l Hl IH Hx]; [constructor|].
  rewrite reverse_cons. apply StronglySorted_app_2; [|done|repeat constructor].
  intros x1 x2 H1 H2. apply list_elem_of_singleton in H2 as ->.
  rewrite elem_of_reverse in H1. rewrite Forall_forall in Hx.
  unfold flip. by apply Hx.
Qed.

Lemma StronglySorted_iff {A : Type} (R1 R2 : relation A) (l : list A) :
  (∀ x y, R1 x y → R2 x y) → StronglySorted R1 l → StronglySorted R2 l.
Proof.
  intros HR. induction 1 as [|x l Hl IH Hx]; constructor; [done|].
  eapply Forall_impl; [exact Hx|]. intros y. apply HR.
Qed.

Global Instance Z_gt_strict : StrictOrder (flip Z.lt).
Proof. split; [intros x ?|intros x y z ??]; unfold flip in *; lia. Qed.

(** ** The order of [QuerySortIds] *)

Global Instance SortId_le_trans : Transitive SortId_le.
Proof. intros [] [] []. unfold SortId_le. simpl. lia. Qed.

Global Instance SortId_le_total : base.Total SortId_le.
Proof. intros [] []. unfold SortId_le. simpl. lia. Qed.

Global Instance SortId_le_antisymm : AntiSymm eq SortId_le.
Proof.
  intros [i1 k1] [i2 k2]. unfold SortId_le. simpl. intros ??.
  f_equal; lia.
Qed.

Lemma SortId_less_spec (a b : SortId) : SortId_less b a = false ↔ SortId_le a b.
Proof.
  destruct a as [i1 k1], b as [i2 k2]. unfold SortId_less, SortId_le. simpl.
  repeat case_bool_decide; split; intros; try done; lia.
Qed.

Lemma SortId_less_swo : StrictWeakOrder SortId_less.
Proof.
  split.
  - intros [i k]. unfold SortId_less. simpl.
    rewrite bool_decide_eq_true_2 by done. apply bool_decide_eq_false. lia.
  - intros [] [] []. unfold SortId_less. simpl.
    repeat case_bool_decide; intros; try done; lia.
  - intros a b c. rewrite !SortId_less_spec. intros ??. by etrans.
Qed.

Lemma SortedId_less_swo : StrictWeakOrder SortedId_less.
Proof.
  split; unfold SortedId_less.
  - intros a. apply bool_decide_eq_false. lia.
  - intros a b c. rewrite !bool_decide_eq_true. lia.
  - intros a b c. rewrite !bool_decide_eq_false. lia.
Qed.

(** Whatever the sort routine does with equal elements, the slice that
    [QuerySortIds] sorts has one sorted order only. *)
Lemma sort_Slice_SortId `{!SliceSorter} (l : list SortId) :
  sort_Slice SortId_less l = merge_sort SortId_le l.
Proof.
  apply (StronglySorted_unique SortId_le).
  - eapply StronglySorted_iff; [|apply sort_Slice_Sorted, SortId_less_swo].
    intros x y. apply SortId_less_spec.
  - apply StronglySorted_merge_sort; apply _.
  - by rewrite sort_Slice_Permutation, merge_sort_Permutation.
Qed.

Lemma Iterator_nil (bm : gset Z) : roaring.Iterator bm = [] ↔ bm = ∅.
Proof.
  unfold roaring.Iterator. split.
  - intros Hnil. apply leibniz_equiv, elements_empty_inv, Permutation_nil_r.
    by rewrite <-(merge_sort_Permutation Z.le), Hnil.
  - intros ->. by rewrite elements_empty.
Qed.

Lemma RedisFvStore_MGet_run (indexKey : string) (ids : list Z) (st : State) :
  ids ≠ [] →
  RedisFvStore_MGet indexKey ids st =
  Some (forward_value (redis st) indexKey <$> ids, st).
Proof.
  intros Hids. destruct ids as [|id ids]; [done|].
  unfold RedisFvStore_MGet, mbind, M_bind, mret, M_ret, gets. do 2 f_equal.
  by rewrite <-list_fmap_compose.
Qed.

Lemma QuerySortIds_run `{!SliceSorter} (fieldKey : string) (bm : gset Z) (st : State) :
  bm ≠ ∅ →
  QuerySortIds fieldKey bm st = Some (sorted_ids (redis st) fieldKey bm, st).
Proof.
  intros Hbm. unfold QuerySortIds, sorted_ids.
  rewrite (bind_run _ _ _ _ _ (RedisFvStore_MGet_run _ _ st
             (λ Hnil, Hbm (proj1 (Iterator_nil bm) Hnil)))).
  unfold mret, M_ret. do 2 f_equal.
  rewrite sort_Slice_SortId.
  apply (StronglySorted_unique SortId_le).
  - apply StronglySorted_merge_sort; apply _.
  - apply StronglySorted_merge_sort; apply _.
  - rewrite !merge_sort_Permutation.
    rewrite zip_with_fmap_r, zip_with_diag.
    unfold roaring.Iterator. by rewrite merge_sort_Permutation.
Qed.

(** ** Reading a page of buckets *)

Lemma RedisSortKeyBitmapStore_Scan_run (indexKey : string) (start stop : Z)
    (reverse_ : bool) (limit : Z) (st : State) :
  RedisSortKeyBitmapStore_Scan indexKey start stop reverse_ limit st =
  Some ((λ key, mkSortKeyBitmap key (Some (bucket (redis st) indexKey key))) <$>
          (if reverse_ then zrange (redis st) indexKey stop start true limit
           else zrange (redis st) indexKey start stop false limit), st).
Proof.
  unfold RedisSortKeyBitmapStore_Scan, ZRangeArgs.
  destruct reverse_; simpl.
  - rewrite (bind_run _ _ _ _ _ (gets_run _ st)).
    destruct (zrange _ _ _ _ _ _) as [|k ks] eqn:Hk; [done|].
    unfold mbind, M_bind, gets, mret, M_ret. simpl. do 3 f_equal.
    by rewrite zip_with_fmap_r, zip_with_diag.
  - rewrite (bind_run _ _ _ _ _ (gets_run _ st)).
    destruct (zrange _ _ _ _ _ _) as [|k ks] eqn:Hk; [done|].
    unfold mbind, M_bind, gets, mret, M_ret. simpl. do 3 f_equal.
    by rewrite zip_with_fmap_r, zip_with_diag.
Qed.

Lemma GetCardinality_0 (bm : gset Z) : (roaring.GetCardinality bm =? 0) = bool_decide (bm = ∅).
Proof.
  unfold roaring.GetCardinality. case_bool_decide as H.
  - subst. by rewrite size_empty.
  - apply Z.eqb_neq. intros Hs. apply H, leibniz_equiv, size_empty_iff. lia.
Qed.

Section ScanProofs.
Context `{!SliceSorter} {B : Type}.
Context (indexKey : string) (baseBm : gset Z) (reverse_ : bool).
Context (proc : list SortId → B → bool * B).

Lemma Scan_bucket_run (key : Z) (b : B) (st : State) :
  Scan_bucket indexKey baseBm reverse_ proc
    (mkSortKeyBitmap key (Some (bucket (redis st) indexKey key))) b st =
  Some (match bucket_batch (redis st) indexKey baseBm reverse_ key with
        | None => inl b
        | Some batch => let '(continue, b') := proc batch b in
                        if continue then inl b' else inr b'
        end, st).
Proof.
  unfold Scan_bucket, bucket_batch. simpl.
  unfold mbind at 1, M_bind at 1. simpl.
  rewrite GetCardinality_0. unfold roaring.And.
  case_bool_decide as He; [done|].
  rewrite (bind_run _ _ _ _ _ (QuerySortIds_run _ _ st He)).
  by destruct (proc _ b) as [[] b'].
Qed.

Lemma for_range_Scan_bucket (keys : list Z) (b : B) (st : State) :
  for_range (Scan_bucket indexKey baseBm reverse_ proc)
    ((λ key, mkSortKeyBitmap key (Some (bucket (redis st) indexKey key))) <$> keys) b st =
  Some (deliver proc (omap (bucket_batch (redis st) indexKey baseBm reverse_) keys) b, st).
Proof.
  revert b. induction keys as [|key keys IH]; intros b; [done|].
  rewrite fmap_cons. simpl for_range.
  rewrite (bind_run _ _ _ _ _ (Scan_bucket_run key b st)).
  simpl omap. destruct (bucket_batch _ _ _ _ key) as [batch|]; [|apply IH].
  simpl. destruct (proc batch b) as [[] b']; [apply IH|done].
Qed.

End ScanProofs.

Lemma deliver_app {B : Type} (proc : list SortId → B → bool * B)
    (l1 l2 : list (list SortId)) (b : B) :
  deliver proc (l1 ++ l2) b =
  match deliver proc l1 b with
  | inl b' => deliver proc l2 b'
  | inr b' => inr b'
  end.
Proof.
  revert b. induction l1 as [|x l1 IH]; intros b; simpl; [done|].
  destruct (proc x b) as [[] b']; [apply IH|done].
Qed.

(** ** The cursor of the paging loop *)

Global Instance scan_lt_strict (reverse_ : bool) : StrictOrder (scan_lt reverse_).
Proof. destruct reverse_; simpl; apply _. Qed.

Lemma keys_from_sorted (rd : Redis) (indexKey : string) (reverse_ : bool) (start : Z) :
  StronglySorted (scan_lt reverse_) (keys_from rd indexKey reverse_ start).
Proof.
  destruct reverse_; simpl.
  - apply StronglySorted_reverse, StronglySorted_filter, zset_members_sorted.
  - apply StronglySorted_filter, zset_members_sorted.
Qed.

Lemma elem_of_keys_from (rd : Redis) (indexKey : string) (reverse_ : bool) (start k : Z) :
  k ∈ keys_from rd indexKey reverse_ start ↔
  k ∈ zset_members rd indexKey ∧
  (if reverse_ then 0 ≤ k ≤ start else start ≤ k ≤ u64_max).
Proof.
  destruct reverse_; simpl.
  - rewrite elem_of_reverse, list_elem_of_filter. tauto.
  - rewrite list_elem_of_filter. tauto.
Qed.

Lemma keys_from_start (rd : Redis) (indexKey : string) (reverse_ : bool) :
  keys_from rd indexKey reverse_ (if reverse_ then u64_max else 0) =
  scan_keys rd indexKey reverse_.
Proof. by destruct reverse_. Qed.

(** After a page, the cursor stands on the keys the page left over. *)
Lemma keys_from_next (rd : Redis) (indexKey : string) (reverse_ : bool)
    (start x : Z) (n : nat) :
  last (take n (keys_from rd indexKey reverse_ start)) = Some x →
  keys_from rd indexKey reverse_ (x + scan_step reverse_) =
  drop n (keys_from rd indexKey reverse_ start).
Proof.
  intros Hlast.
  pose proof (keys_from_sorted rd indexKey reverse_ start) as Hs.
  apply (StronglySorted_strict_ext (scan_lt reverse_)).
  - apply keys_from_sorted.
  - by apply StronglySorted_drop.
  - intros k.
    assert (x ∈ keys_from rd indexKey reverse_ start) as Hx.
    { apply last_Some in Hlast as [l' Hl'].
      rewrite <-(take_drop n (keys_from _ _ _ _)), Hl'. set_solver. }
    rewrite <-(take_drop n (keys_from rd indexKey reverse_ start)) in Hs.
    rewrite (elem_of_StronglySorted_suffix _ _ _ x k Hs Hlast).
    rewrite take_drop.
    rewrite !elem_of_keys_from. rewrite elem_of_keys_from in Hx.
    destruct reverse_; simpl in *; unfold flip; intuition lia.
Qed.

Lemma reached_S (n : nat) (end_ step : Z) (keys : list Z) :
  reached (S n) end_ step keys =
  match last (take 100 keys) with
  | None => []
  | Some x =>
      take 100 keys ++
      (if bool_decide (x = end_ ∨ x + step = end_) then []
       else reached n end_ step (drop 100 keys))
  end.
Proof. done. Qed.

Lemma reached_fuel (n m : nat) (end_ step : Z) (keys : list Z) :
  (length keys ≤ n)%nat → (length keys ≤ m)%nat →
  reached n end_ step keys = reached m end_ step keys.
Proof.
  revert m keys. induction n as [|n IH]; intros m keys Hn Hm.
  - destruct keys; [|simpl in Hn; lia]. by destruct m.
  - destruct keys as [|k keys]; [by destruct m|].
    destruct m as [|m]; [simpl in Hm; lia|].
    rewrite !reached_S. destruct (last _); [|done].
    case_bool_decide; [done|]. f_equal.
    apply IH; rewrite length_drop; simpl in *; lia.
Qed.

Lemma reached_prefix (n : nat) (end_ step : Z) (keys : list Z) :
  reached n end_ step keys `prefix_of` keys.
Proof.
  revert keys. induction n as [|n IH]; intros keys; [apply prefix_nil|].
  rewrite reached_S. destruct (last _); [|apply prefix_nil].
  rewrite <-(take_drop 100 keys) at 3. apply prefix_app.
  case_bool_decide; [apply prefix_nil|apply IH].
Qed.

(** ** The paging loop of Scan *)

Lemma zrange_page (rd : Redis) (indexKey : string) (reverse_ : bool) (start : Z) :
  (if reverse_ then zrange rd indexKey (scan_end reverse_) start true 100
   else zrange rd indexKey start (scan_end reverse_) false 100) =
  take 100 (keys_from rd indexKey reverse_ start).
Proof. by destruct reverse_. Qed.

Section ScanLoop.
Context `{!SliceSorter} {B : Type}.
Context (indexKey : string) (baseBm : gset Z) (reverse_ : bool).
Context (proc : list SortId → B → bool * B).

Lemma Scan_loop_S (fuel : nat) (start end_ : Z) (b : B) :
  Scan_loop (S fuel) indexKey baseBm reverse_ proc start end_ b =
  if bool_decide (start = end_) then mret b
  else
    sortedBms ← RedisSortKeyBitmapStore_Scan indexKey start end_ reverse_ 100;
    match last sortedBms with
    | None => mret b
    | Some lastBm =>
        let start := SortKey lastBm in
        let start :=
          if bool_decide (start ≠ end_)
          then if negb reverse_ then uint64 (start + 1) else uint64 (start - 1)
          else start in
        res ← for_range (Scan_bucket indexKey baseBm reverse_ proc) sortedBms b;
        match res with
        | inl b => Scan_loop fuel indexKey baseBm reverse_ proc start end_ b
        | inr b => mret b
        end
    end.
Proof. done. Qed.

Lemma Scan_loop_end (fuel : nat) (end_ : Z) (b : B) (st : State) :
  Scan_loop fuel indexKey baseBm reverse_ proc end_ end_ b st = Some (b, st).
Proof. destruct fuel; simpl; by rewrite bool_decide_eq_true_2. Qed.

Lemma Scan_loop_run (fuel : nat) (start : Z) (b : B) (st : State) :
  is_u64 start → start ≠ scan_end reverse_ →
  (length (keys_from (redis st) indexKey reverse_ start) < fuel)%nat →
  Scan_loop fuel indexKey baseBm reverse_ proc start (scan_end reverse_) b st =
  Some (outcome (deliver proc
          (omap (bucket_batch (redis st) indexKey baseBm reverse_)
             (reached (length (keys_from (redis st) indexKey reverse_ start))
                (scan_end reverse_) (scan_step reverse_)
                (keys_from (redis st) indexKey reverse_ start))) b), st).
Proof.
  revert start b. induction fuel as [|fuel IH]; intros start b Hu Hne Hlen; [lia|].
  rewrite Scan_loop_S, bool_decide_eq_false_2 by done.
  rewrite (bind_run _ _ _ _ _ (RedisSortKeyBitmapStore_Scan_run _ _ _ _ _ st)).
  rewrite zrange_page, fmap_last.
  set (keys := keys_from (redis st) indexKey reverse_ start) in *.
  destruct (last (take 100 keys)) as [x|] eqn:Hlast; simpl.
  2:{ apply last_None in Hlast. destruct keys as [|k keys']; [done|done]. }
  assert (x ∈ keys) as Hx.
  { apply last_Some in Hlast as [l' Hl'].
    rewrite <-(take_drop 100 keys), Hl'. set_solver. }
  destruct (length keys) as [|n] eqn:Hn.
  { destruct keys; [by apply elem_of_nil in Hx|done]. }
  rewrite reached_S, Hlast, omap_app, deliver_app.
  rewrite (bind_run _ _ _ _ _ (for_range_Scan_bucket _ _ _ _ _ _ st)).
  destruct (deliver proc (omap _ (take 100 keys)) b) as [b'|b']; [|done].
  apply elem_of_keys_from in Hx as [_ Hx].
  destruct (decide (x = scan_end reverse_)) as [Hxe|Hxe].
  { (* the page ends on the end of the key space *)
    rewrite (bool_decide_eq_true_2 (x = _ ∨ _)) by auto. simpl.
    rewrite (bool_decide_eq_false_2 (x ≠ _)) by auto. rewrite Hxe. apply Scan_loop_end. }
  rewrite (bool_decide_eq_true_2 (x ≠ _)) by done.
  case_bool_decide as Hstop.
  - (* the page ends right before the end of the key space *)
    destruct Hstop as [?|Hstop]; [done|]. simpl.
    replace (if negb reverse_ then uint64 (x + 1) else uint64 (x - 1))
      with (scan_end reverse_); [apply Scan_loop_end|].
    rewrite <-Hstop. unfold uint64, is_u64 in *.
    destruct reverse_; simpl in *; rewrite Z.mod_small; unfold u64_modulus; lia.
  - (* there may be more: the cursor moves past the page *)
    assert (x + scan_step reverse_ ≠ scan_end reverse_) as Hxs by tauto.
    replace (if negb reverse_ then uint64 (x + 1) else uint64 (x - 1))
      with (x + scan_step reverse_).
    2:{ unfold uint64, is_u64, u64_modulus in *.
        destruct reverse_; simpl in *; rewrite Z.mod_small; lia. }
    pose proof (keys_from_next (redis st) indexKey reverse_ start x 100 Hlast) as Hnext.
    fold keys in Hnext.
    assert (length (drop 100 keys) ≤ n)%nat as Hdrop.
    { rewrite length_drop, Hn. lia. }
    rewrite IH.
    + rewrite Hnext. do 5 f_equal. apply reached_fuel; [done|lia].
    + unfold is_u64 in *. destruct reverse_; simpl in *; lia.
    + done.
    + rewrite Hnext. lia.
Qed.

End ScanLoop.

Lemma reached_complete (reverse_ : bool) (n : nat) (keys : list Z) :
  StronglySorted (scan_lt reverse_) keys → Forall is_u64 keys →
  scan_end reverse_ ∉ keys → (length keys ≤ n)%nat →
  reached n (scan_end reverse_) (scan_step reverse_) keys = keys.
Proof.
  revert keys. induction n as [|n IH]; intros keys Hs Hu Hend Hn.
  { destruct keys; [done|simpl in Hn; lia]. }
  rewrite reached_S. destruct (last (take 100 keys)) as [x|] eqn:Hlast.
  2:{ apply last_None in Hlast. by destruct keys. }
  assert (x ∈ keys) as Hx.
  { apply last_Some in Hlast as [l' Hl'].
    rewrite <-(take_drop 100 keys), Hl'. set_solver. }
  transitivity (take 100 keys ++ drop 100 keys); [|apply take_drop]. f_equal.
  case_bool_decide as Hstop.
  - destruct Hstop as [->|Hstop]; [done|].
    destruct (drop 100 keys) as [|k rest] eqn:Hdrop; [done|]. exfalso.
    assert (k ∈ drop 100 keys) as Hk by (rewrite Hdrop; set_solver).
    rewrite <-(take_drop 100 keys) in Hs.
    apply (elem_of_StronglySorted_suffix _ _ _ x k Hs Hlast) in Hk as [Hk Hxk].
    rewrite take_drop in Hk. apply Hend.
    rewrite Forall_forall in Hu. pose proof (Hu k Hk) as Huk.
    replace (scan_end reverse_) with k; [done|].
    unfold is_u64 in *. destruct reverse_; simpl in *; unfold flip in *; lia.
  - destruct keys as [|k0 keys0]; [done|].
    apply IH.
    + by apply StronglySorted_drop.
    + by apply Forall_drop.
    + intros Hin. apply Hend. rewrite <-(take_drop 100 (k0 :: keys0)).
      apply elem_of_app. by right.
    + rewrite length_drop. simpl in *. lia.
Qed.


Lemma scan_keys_sorted (rd : Redis) (indexKey : string) (reverse_ : bool) :
  StronglySorted (scan_lt reverse_) (scan_keys rd indexKey reverse_).
Proof. rewrite <-keys_from_start. apply keys_from_sorted. Qed.

Lemma elem_of_scan_keys (rd : Redis) (indexKey : string) (reverse_ : bool) (k : Z) :
  k ∈ scan_keys rd indexKey reverse_ ↔ k ∈ zset rd indexKey ∧ is_u64 k.
Proof.
  rewrite <-keys_from_start, elem_of_keys_from, elem_of_zset_members.
  unfold is_u64. destruct reverse_; intuition lia.
Qed.

Lemma SparseU64IndexReader_Scan_run `{!SliceSorter} {B : Type}
    (r : SparseU64IndexReader) (baseBm : gset Z) (reverse_ : bool)
    (proc : list SortId → B → bool * B) (b : B) (st : State) :
  SparseU64IndexReader_Scan r baseBm reverse_ proc b st =
  Some (outcome (deliver proc
          (omap (bucket_batch (redis st) (MakeIndexKey (SparseU64IndexReader_Index r))
                   baseBm reverse_)
             (reached_keys (redis st) (MakeIndexKey (SparseU64IndexReader_Index r))
                reverse_)) b), st).
Proof.
  unfold SparseU64IndexReader_Scan, reached_keys.
  set (indexKey := MakeIndexKey (SparseU64IndexReader_Index r)).
  rewrite <-keys_from_start.
  assert (∀ start, (length (keys_from (redis st) indexKey reverse_ start)
                    < S (length (zset_members (redis st) indexKey)))%nat) as Hlen.
  { intros start. apply Nat.lt_succ_r. destruct reverse_; simpl.
    - rewrite length_reverse. apply length_filter.
    - apply length_filter. }
  destruct reverse_.
  - rewrite (bind_run _ _ _ _ _ (gets_run _ st)).
    apply (Scan_loop_run indexKey baseBm true proc); [|done|apply Hlen].
    unfold is_u64, u64_max. lia.
  - rewrite (bind_run _ _ _ _ _ (gets_run _ st)).
    apply (Scan_loop_run indexKey baseBm false proc); [|done|apply Hlen].
    unfold is_u64, u64_max. lia.
Qed.

Lemma sorted_ids_sorted (rd : Redis) (indexKey : string) (bm : gset Z) :
  StronglySorted SortId_le (sorted_ids rd indexKey bm).
Proof. apply StronglySorted_merge_sort; apply _. Qed.

Lemma sorted_ids_Permutation (rd : Redis) (indexKey : string) (bm : gset Z) :
  sorted_ids rd indexKey bm ≡ₚ
  (λ id, mkSortId id (forward_value rd indexKey id)) <$> elements bm.
Proof. apply merge_sort_Permutation. Qed.

(** ** The filters of List *)

Lemma RedisBmStore_Get_run (indexKey valueKey : string) (st : State) :
  RedisBmStore_Get indexKey valueKey st =
  Some (parseBitmap (bm_hash (redis st) !! (indexKey, valueKey)), st).
Proof. done. Qed.

Lemma TermIndexReader_Get_run (r : TermIndexReader) (fv : Term) (st : State) :
  TermIndexReader_Get r fv st =
  Some (term_posting (redis st) (TermIndexReader_Index r) fv, st).
Proof. done. Qed.

Lemma List_accBm_run (s : OrdersSearchService) (r : Request) (st : State) :
  List_accBm s r st = Some (matching_ids (redis st) s r, st).
Proof.
  unfold List_accBm, matching_ids, equality_matches, provider_equals.
  rewrite (bind_run _ _ _ _ _ (TermIndexReader_Get_run _ _ st)).
  destruct r as [status product filter limit]. simpl.
  destruct status as [v1|], product as [v2|], filter as [[[] v3]|]; done.
Qed.

Lemma Sprint_not_null (value : Z) : Sprint value ≠ "null".
Proof.
  unfold Sprint. destruct value as [|p|p]; simpl; [done| |done].
  unfold NilZero.string_of_uint. by destruct (Pos.to_uint p).
Qed.

(** ** List *)

Lemma OrdersSearchService_List_run `{!SliceSorter} (s : OrdersSearchService)
    (r : Request) (st : State) :
  OrdersSearchService_List s r st =
  Some (List_response (redis st) s r,
        mkState (redis st) (slog st ++ [(LevelDebug, "Querying orders")])).
Proof.
  unfold OrdersSearchService_List, List_response.
  set (st' := mkState (redis st) (slog st ++ [(LevelDebug, "Querying orders")])).
  rewrite (bind_run _ _ st st' tt) by done.
  rewrite (bind_run _ _ _ _ _ (List_accBm_run s r st')). cbn [Total].
  rewrite GetCardinality_0. change (redis st') with (redis st).
  destruct (bool_decide (Limit r = Some 0) || _); [done|].
  by rewrite (bind_run _ _ _ _ _ (SparseU64IndexReader_Scan_run _ _ _ _ _ st')).
Qed.

(** ** Bitmap compaction *)

Lemma preserves_compact_ret {A : Type} (a : A) : preserves_compact (mret a).
Proof. by intros st. Qed.

Lemma preserves_compact_panic {A : Type} : preserves_compact (@panic A).
Proof. by intros st. Qed.

Lemma preserves_compact_gets {A : Type} (f : Redis → A) : preserves_compact (gets f).
Proof. by intros st. Qed.

Lemma preserves_compact_slog (lv : Level) (msg : string) :
  preserves_compact (slog_write lv msg).
Proof. by intros st. Qed.

Lemma preserves_compact_deref {A : Type} (p : option A) : preserves_compact (deref p).
Proof. destruct p; [apply preserves_compact_ret|apply preserves_compact_panic]. Qed.

Lemma preserves_compact_bind {A B : Type} (m : M A) (f : A → M B) :
  preserves_compact m → (∀ a, preserves_compact (f a)) → preserves_compact (m ≫= f).
Proof.
  intros Hm Hf st Hst. specialize (Hm st Hst).
  unfold mbind, M_bind. destruct (m st) as [[a st']|]; [|done].
  by apply Hf.
Qed.

Lemma map_Forall_hdel {K K' V : Type} `{Countable K'} (P : K' → V → Prop)
    (mk : K → K') (fields : list K) (m : gmap K' V) :
  map_Forall P m → map_Forall P (hdel mk fields m).
Proof.
  unfold hdel. revert m. induction fields as [|f fields IH]; intros m Hm; [done|].
  simpl. by apply IH, map_Forall_delete.
Qed.

Lemma map_Forall_hmset {K K' V : Type} `{Countable K'} (P : K' → V → Prop)
    (mk : K → K') (pairs : list (K * V)) (m : gmap K' V) :
  Forall (λ p, P (mk p.1) p.2) pairs → map_Forall P m →
  map_Forall P (hmset mk pairs m).
Proof.
  unfold hmset. revert m. induction pairs as [|p pairs IH]; intros m Hp Hm; [done|].
  apply Forall_cons in Hp as [Hp Hps]. simpl.
  by apply IH, map_Forall_insert_2.
Qed.

Lemma preserves_compact_Set (indexKey valueKey : string) (value : option (gset Z)) :
  preserves_compact (RedisBmStore_Set indexKey valueKey value).
Proof.
  intros st [Hbm Hhm]. unfold RedisBmStore_Set.
  destruct value as [bm|]; [rewrite GetCardinality_0; case_bool_decide|].
  all: simpl; split; simpl; try done.
  - by apply map_Forall_delete.
  - by apply map_Forall_insert_2.
  - by apply map_Forall_delete.
Qed.

Lemma is_nil_or_empty_false (skbm : SortKeyBitmap) :
  is_nil_or_empty skbm = false ↔ ∃ bm, Bitmap skbm = Some bm ∧ bm ≠ ∅.
Proof.
  unfold is_nil_or_empty. destruct (Bitmap skbm) as [bm|].
  - rewrite GetCardinality_0, bool_decide_eq_false. split.
    + intros Hne. by exists bm.
    + intros (bm' & Heq & Hne). by simplify_eq.
  - split; [done|]. by intros (bm' & Heq & _).
Qed.

Lemma preserves_compact_modify (f : Redis → Redis) :
  (∀ rd, compact rd → compact (f rd)) → preserves_compact (modify f).
Proof. intros Hf st Hst. by apply Hf. Qed.

Lemma preserves_compact_MSet (indexKey : string) (skbms : list SortKeyBitmap) :
  preserves_compact (RedisSortKeyBitmapStore_MSet indexKey skbms).
Proof.
  unfold RedisSortKeyBitmapStore_MSet.
  destruct skbms as [|skbm skbms]; [apply preserves_compact_ret|].
  set (all := skbm :: skbms). clearbody all.
  apply preserves_compact_bind; [|intros _].
  - destruct (SortKey <$> _) as [|k ks]; [apply preserves_compact_ret|].
    apply preserves_compact_bind; [|intros _].
    + by apply preserves_compact_modify.
    + apply preserves_compact_modify. intros rd [Hbm Hhm]. split; [exact Hbm|].
      by apply map_Forall_hdel.
  - remember (filter (λ skbm, is_nil_or_empty skbm = false) all) as setSkbms eqn:Hset.
    assert (Forall (λ skbm, ∃ bm, Bitmap skbm = Some bm ∧ bm ≠ ∅) setSkbms) as Hne.
    { subst setSkbms. apply Forall_forall. intros e He.
      apply list_elem_of_filter in He as [He _]. by apply is_nil_or_empty_false. }
    clear Hset. destruct setSkbms as [|s ss]; [apply preserves_compact_ret|].
    apply preserves_compact_bind; [|intros _].
    + by apply preserves_compact_modify.
    + apply preserves_compact_modify. intros rd [Hbm Hhm]. split; [exact Hbm|].
      apply map_Forall_hmset; [|exact Hhm].
      apply Forall_forall. intros [k raw] Hin.
      apply list_elem_of_omap in Hin as (e & He & Hraw).
      rewrite Forall_forall in Hne. destruct (Hne e He) as (bm & Hbm' & Hbmne).
      rewrite Hbm' in Hraw. by simplify_eq.
Qed.

Lemma preserves_compact_FvSet (indexKey : string) (id value : Z) :
  preserves_compact (RedisFvStore_Set indexKey id value).
Proof. by intros st. Qed.

Lemma preserves_compact_FvRemove (indexKey : string) (id : Z) :
  preserves_compact (RedisFvStore_Remove indexKey id).
Proof. by intros st. Qed.

Lemma preserves_compact_Get (indexKey valueKey : string) :
  preserves_compact (RedisBmStore_Get indexKey valueKey).
Proof. by intros st. Qed.

Lemma preserves_compact_Scan (indexKey : string) (start stop : Z) (reverse_ : bool)
    (limit : Z) :
  preserves_compact (RedisSortKeyBitmapStore_Scan indexKey start stop reverse_ limit).
Proof. intros st Hst. by rewrite RedisSortKeyBitmapStore_Scan_run. Qed.

Lemma preserves_compact_MGet (indexKey : string) (ids : list Z) :
  preserves_compact (RedisFvStore_MGet indexKey ids).
Proof. intros st. by destruct ids. Qed.

Create HintDb compact.
#[global] Hint Resolve preserves_compact_ret preserves_compact_panic
  preserves_compact_gets preserves_compact_slog preserves_compact_deref
  preserves_compact_Set preserves_compact_MSet preserves_compact_FvSet
  preserves_compact_FvRemove preserves_compact_Get preserves_compact_Scan
  preserves_compact_MGet : compact.

(** Goes through a computation bind by bind, case by case. *)
Ltac preserves_compact :=
  repeat first
    [ progress eauto with compact
    | apply preserves_compact_bind; [|intros ?]
    | match goal with
      | |- preserves_compact (match ?x with _ => _ end) => destruct x
      | |- preserves_compact (if ?x then _ else _) => destruct x
      end ].

Lemma preserves_compact_write `{!SliceSorter} (op : WriteOp) :
  preserves_compact (run_write op).
Proof.
  destruct op; simpl.
  - preserves_compact.
  - preserves_compact.
  - unfold TermIndexWriter_Add. preserves_compact.
  - unfold TermIndexWriter_Remove. preserves_compact.
  - unfold TermIndexWriter_Move, TermIndexWriter_Remove, TermIndexWriter_Add.
    preserves_compact.
  - unfold SparseU64IndexWriter_Add, getFloorSortedBm, QuerySortedIds, add_to_first.
    preserves_compact.
  - unfold SparseU64IndexWriter_Remove, getFloorSortedBm. preserves_compact.
  - unfold SparseU64IndexWriter_Move, SparseU64IndexWriter_Remove,
      SparseU64IndexWriter_Add, getFloorSortedBm, QuerySortedIds, add_to_first.
    preserves_compact.
Qed.

(** ** The sparse index writer *)

Lemma getFloorSortedBm_run (fieldKey : string) (fv : Z) (st : State) :
  getFloorSortedBm fieldKey fv st =
  Some ((λ key, mkSortKeyBitmap key (Some (bucket (redis st) fieldKey key))) <$>
          floor_key (redis st) fieldKey fv, st).
Proof.
  unfold getFloorSortedBm.
  rewrite (bind_run _ _ _ _ _ (RedisSortKeyBitmapStore_Scan_run _ _ _ _ _ st)).
  unfold mret, M_ret, floor_key. do 2 f_equal.
  change (zrange (redis st) fieldKey 0 fv true 1)
    with (take 1 (keys_from (redis st) fieldKey true fv)).
  by destruct (keys_from _ _ _ _).
Qed.

Lemma floor_key_Some (rd : Redis) (indexKey : string) (fv k : Z) :
  floor_key rd indexKey fv = Some k ↔
  k ∈ zset rd indexKey ∧ 0 ≤ k ≤ fv ∧
  ∀ k', k' ∈ zset rd indexKey → 0 ≤ k' ≤ fv → k' ≤ k.
Proof.
  unfold floor_key.
  pose proof (keys_from_sorted rd indexKey true fv) as Hs.
  pose proof (elem_of_keys_from rd indexKey true fv) as Hel.
  setoid_rewrite elem_of_zset_members in Hel.
  destruct (keys_from rd indexKey true fv) as [|x l]; simpl.
  - split; [done|]. intros (Hin & Hr & _). exfalso.
    by apply (elem_of_nil k), Hel.
  - apply StronglySorted_inv in Hs as [_ Hx]. rewrite Forall_forall in Hx.
    split.
    + intros [= ->]. destruct (proj1 (Hel k)) as [Hin Hr]; [apply list_elem_of_here|].
      repeat split; [done|lia|lia|].
      intros k' Hin' Hr'. assert (k' ∈ k :: l) as Hk' by (by apply Hel).
      apply elem_of_cons in Hk' as [->|Hk']; [lia|].
      specialize (Hx k' Hk'). unfold flip in Hx. simpl in Hx. lia.
    + intros (Hin & Hr & Hmax). f_equal.
      assert (k ∈ x :: l) as Hk by (by apply Hel).
      apply elem_of_cons in Hk as [->|Hk]; [done|].
      specialize (Hx k Hk). unfold flip in Hx. simpl in Hx.
      destruct (proj1 (Hel x)) as [Hinx Hrx]; [apply list_elem_of_here|].
      specialize (Hmax x Hinx Hrx). lia.
Qed.

Lemma floor_key_None (rd : Redis) (indexKey : string) (fv : Z) :
  floor_key rd indexKey fv = None ↔
  ∀ k, k ∈ zset rd indexKey → ¬ (0 ≤ k ≤ fv).
Proof.
  unfold floor_key. rewrite head_None.
  pose proof (elem_of_keys_from rd indexKey true fv) as Hel.
  setoid_rewrite elem_of_zset_members in Hel.
  split.
  - intros Hnil k Hin Hr. apply (elem_of_nil k). rewrite <-Hnil. by apply Hel.
  - intros Hno. destruct (keys_from rd indexKey true fv) as [|x l]; [done|].
    destruct (proj1 (Hel x)) as [Hin Hr]; [apply list_elem_of_here|]. by destruct (Hno x).
Qed.

Lemma RedisSortKeyBitmapStore_MSet_run (indexKey : string) (skbms : list SortKeyBitmap)
    (st : State) :
  RedisSortKeyBitmapStore_MSet indexKey skbms st =
  Some (tt, mkState (mset_redis indexKey skbms (redis st)) (slog st)).
Proof.
  unfold RedisSortKeyBitmapStore_MSet, mset_redis.
  destruct st as [rd log].
  destruct skbms as [|skbm skbms]; [by destruct rd|].
  set (all := skbm :: skbms). clearbody all.
  destruct (SortKey <$> filter (λ skbm, is_nil_or_empty skbm = true) all) as [|dk dks],
    (filter (λ skbm, is_nil_or_empty skbm = false) all) as [|sk sks];
    try done; by destruct rd.
Qed.

Lemma Remove_until_MSet_then (w : SparseU64IndexWriter) (fv id : Z) (st : State) :
  SparseU64IndexWriter_Remove w fv id st =
  (Remove_until_MSet w fv id;;
   RedisFvStore_Remove (MakeIndexKey (SparseU64IndexWriter_Index w)) id) st.
Proof.
  unfold SparseU64IndexWriter_Remove, Remove_until_MSet.
  unfold mbind, M_bind. rewrite getFloorSortedBm_run.
  by destruct (floor_key _ _ _).
Qed.

Lemma Remove_no_floor (w : SparseU64IndexWriter) (fv id : Z) (st : State) :
  floor_key (redis st) (MakeIndexKey (SparseU64IndexWriter_Index w)) fv = None →
  SparseU64IndexWriter_Remove w fv id st =
  Some (tt, mkState
              (mkRedis (bm_hash (redis st)) (skbm_zs (redis st)) (skbm_hm (redis st))
                 (delete (MakeIndexKey (SparseU64IndexWriter_Index w), id)
                    (fv_hash (redis st))))
              (slog st ++ [(LevelWarn, "cannot find floor sorted bitmap")])).
Proof.
  intros Hfloor. unfold SparseU64IndexWriter_Remove.
  rewrite (bind_run _ _ _ _ _ (getFloorSortedBm_run _ _ st)), Hfloor. done.
Qed.

(** C7: when [Remove(v, id)] finds no floor bucket for [v] it returns no
    error; it logs a warning, leaves every bitmap and the sorted set as
    they are and removes the forward entry of [id].  Run again on the
    state it left, it leaves the same store; and run on the state left by a
    delete that was cut short before the removal of the forward entry, it
    ends in the store the whole delete would have left. *)
Theorem Remove_without_floor_bucket (w : SparseU64IndexWriter) (fv id : Z) (st : State) :
  let fieldKey := MakeIndexKey (SparseU64IndexWriter_Index w) in
  let rd := redis st in
  let rd' := mkRedis (bm_hash rd) (skbm_zs rd) (skbm_hm rd)
               (delete (fieldKey, id) (fv_hash rd)) in
  let warning := (LevelWarn, "cannot find floor sorted bitmap") in
  floor_key rd fieldKey fv = None →
  SparseU64IndexWriter_Remove w fv id st = Some (tt, mkState rd' (slog st ++ [warning])) ∧
  (∀ log, SparseU64IndexWriter_Remove w fv id (mkState rd' log) =
          Some (tt, mkState rd' (log ++ [warning]))) ∧
  (∀ st0, Remove_until_MSet w fv id st0 = Some (tt, st) →
          SparseU64IndexWriter_Remove w fv id st0 = Some (tt, mkState rd' (slog st))).
Proof.
  intros fieldKey rd rd' warning Hfloor. repeat split.
  - by apply Remove_no_floor.
  - intros log. rewrite Remove_no_floor by done. simpl.
    by rewrite delete_delete_eq.
  - intros st0 Hpartial. rewrite Remove_until_MSet_then.
    by rewrite (bind_run _ _ _ _ _ Hpartial).
Qed.

Lemma QuerySortedIds_run `{!SliceSorter} (fieldKey : string) (bm : gset Z) (st : State) :
  bm ≠ ∅ →
  QuerySortedIds fieldKey bm st =
  Some (sort_Slice SortedId_less
          ((λ id, mkSortedId id (forward_value (redis st) fieldKey id)) <$>
             roaring.Iterator bm), st).
Proof.
  intros Hbm. unfold QuerySortedIds.
  rewrite (bind_run _ _ _ _ _ (RedisFvStore_MGet_run _ _ st
             (λ Hnil, Hbm (proj1 (Iterator_nil bm) Hnil)))).
  unfold mret, M_ret. do 3 f_equal.
  by rewrite zip_with_fmap_r, zip_with_diag.
Qed.

Lemma QuerySortedIds_empty `{!SliceSorter} (fieldKey : string) (st : State) :
  QuerySortedIds fieldKey ∅ st = None.
Proof. done. Qed.

Lemma add_all_spec (bm : gset Z) (ids : list SortedId) :
  add_all bm ids = list_to_set (SortedId_Id <$> ids) ∪ bm.
Proof.
  unfold add_all. revert bm. induction ids as [|x ids IH]; intros bm; simpl.
  - by rewrite (left_id_L ∅ (∪)).
  - rewrite IH. unfold roaring.Add.
    rewrite (assoc_L (∪)). f_equal. apply (comm_L (∪)).
Qed.

Lemma SortedId_Score_sorted `{!SliceSorter} (l : list SortedId) :
  StronglySorted (λ a b, SortedId_Score a ≤ SortedId_Score b)
    (sort_Slice SortedId_less l).
Proof.
  eapply StronglySorted_iff; [|apply sort_Slice_Sorted, SortedId_less_swo].
  intros a b. unfold SortedId_less. rewrite bool_decide_eq_false. lia.
Qed.

(** What [MSet] does with two non-empty bitmaps under different keys. *)
Lemma mset_redis_two (indexKey : string) (k1 k2 : Z) (b1 b2 : gset Z) (rd : Redis) :
  b1 ≠ ∅ → b2 ≠ ∅ → k1 ≠ k2 →
  let rd' := mset_redis indexKey
               [mkSortKeyBitmap k1 (Some b1); mkSortKeyBitmap k2 (Some b2)] rd in
  bucket rd' indexKey k1 = b1 ∧ bucket rd' indexKey k2 = b2 ∧
  k1 ∈ zset rd' indexKey ∧ k2 ∈ zset rd' indexKey ∧
  fv_hash rd' = fv_hash rd ∧ bm_hash rd' = bm_hash rd.
Proof.
  intros Hb1 Hb2 Hk rd'. subst rd'. unfold mset_redis, bucket.
  assert (∀ k b, b ≠ ∅ → is_nil_or_empty (mkSortKeyBitmap k (Some b)) = false) as Hne.
  { intros k b Hb. apply is_nil_or_empty_false. by exists b. }
  rewrite !filter_cons, !filter_nil.
  rewrite !Hne by done. unfold hmset, hdel. simpl.
  split_and!; try done.
  - rewrite lookup_insert_ne by congruence. by rewrite lookup_insert_eq.
  - by rewrite lookup_insert_eq.
  - unfold zset. cbn [skbm_zs]. rewrite lookup_zadd, decide_True by done.
    apply elem_of_union_l, elem_of_union_l. by apply elem_of_singleton.
  - unfold zset. cbn [skbm_zs]. rewrite lookup_zadd, decide_True by done.
    apply elem_of_union_l, elem_of_union_r, elem_of_union_l.
    by apply elem_of_singleton.
Qed.

(** The split path of [Add]: when the floor bucket B of [v] holds at least
    [SplitThreshold] ids, [Add(v, id)] sorts the ids of B by forward value,
    cuts the sorted slice at [m = n / 2] into L and U, and hands [MSet] two
    buckets: L under the forward value of the first id, which is L[0] when
    L is not empty, and U under the forward value of U[0]; [id] is added to
    the second unless [v < U[0].fv], and the second key is the greater one.
    When the two keys differ, the store then holds L and U under them. *)
Theorem Add_split_path `{!SliceSorter} (w : SparseU64IndexWriter) (fv id k : Z)
    (st : State) :
  let fieldKey := MakeIndexKey (SparseU64IndexWriter_Index w) in
  let rd := redis st in
  let B := bucket rd fieldKey k in
  floor_key rd fieldKey fv = Some k →
  uint64 (SplitThreshold w) ≤ roaring.GetCardinality B →
  B ≠ ∅ →
  ∃ (sortedIds : list SortedId) (first second : SortedId),
    let m := (length sortedIds / 2)%nat in
    let L := take m sortedIds in
    let U := drop m sortedIds in
    let bmL : gset Z := list_to_set (SortedId_Id <$> L) in
    let bmU : gset Z := list_to_set (SortedId_Id <$> U) in
    let updateSortedBms :=
      if bool_decide (SortedId_Score second ≤ fv)
      then [mkSortKeyBitmap (SortedId_Score second) (Some ({[id]} ∪ bmU));
            mkSortKeyBitmap (SortedId_Score first) (Some bmL)]
      else [mkSortKeyBitmap (SortedId_Score first) (Some ({[id]} ∪ bmL));
            mkSortKeyBitmap (SortedId_Score second) (Some bmU)] in
    QuerySortedIds fieldKey B st = Some (sortedIds, st) ∧
    sortedIds ≡ₚ (λ id, mkSortedId id (forward_value rd fieldKey id)) <$> elements B ∧
    StronglySorted (λ a b, SortedId_Score a ≤ SortedId_Score b) sortedIds ∧
    head sortedIds = Some first ∧ head U = Some second ∧
    (L ≠ [] → head L = Some first) ∧
    SortedId_Score first ≤ SortedId_Score second ∧
    SparseU64IndexWriter_Add w fv id st =
      (RedisFvStore_Set fieldKey id fv;;
       RedisSortKeyBitmapStore_MSet fieldKey updateSortedBms) st ∧
    (SortedId_Score first ≠ SortedId_Score second →
     ∃ st', SparseU64IndexWriter_Add w fv id st = Some (tt, st') ∧
            bucket (redis st') fieldKey (SortedId_Score first) =
              (if bool_decide (SortedId_Score second ≤ fv) then bmL else {[id]} ∪ bmL) ∧
            bucket (redis st') fieldKey (SortedId_Score second) =
              (if bool_decide (SortedId_Score second ≤ fv) then {[id]} ∪ bmU else bmU) ∧
            SortedId_Score first ∈ zset (redis st') fieldKey ∧
            SortedId_Score second ∈ zset (redis st') fieldKey ∧
            forward_value (redis st') fieldKey id = fv).
Proof.
  intros fieldKey rd B Hfloor Hcard HB.
  pose proof (QuerySortedIds_run fieldKey B st HB) as Hq.
  set (sortedIds := sort_Slice SortedId_less _) in Hq.
  assert (sortedIds ≡ₚ (λ id, mkSortedId id (forward_value rd fieldKey id)) <$> elements B)
    as Hperm.
  { unfold sortedIds, roaring.Iterator.
    by rewrite sort_Slice_Permutation, merge_sort_Permutation. }
  assert (StronglySorted (λ a b, SortedId_Score a ≤ SortedId_Score b) sortedIds) as Hsorted
    by apply SortedId_Score_sorted.
  assert (length sortedIds ≠ 0%nat) as Hlen.
  { rewrite Hperm, length_fmap. intros Hz. apply HB, leibniz_equiv, size_empty_iff. done. }
  clearbody sortedIds.
  destruct sortedIds as [|first rest] eqn:Hids; [done|]. rewrite <-Hids in *.
  assert (length sortedIds / 2 < length sortedIds)%nat as Hmid.
  { apply Nat.div_lt; lia. }
  destruct (lookup_lt_is_Some_2 _ _ Hmid) as [second Hsecond].
  assert (head sortedIds = Some first) as Hfirst by (by rewrite Hids).
  assert (sortedIds !! 0%nat = Some first) as Hfirst' by (by rewrite Hids).
  exists sortedIds, first, second. cbv zeta.
  set (m := (length sortedIds / 2)%nat) in *.
  set (bmL := list_to_set (SortedId_Id <$> take m sortedIds) : gset Z).
  set (bmU := list_to_set (SortedId_Id <$> drop m sortedIds) : gset Z).
  assert (SortedId_Score first ≤ SortedId_Score second) as Hle.
  { destruct m as [|m'] eqn:Hm; [rewrite Hfirst' in Hsecond; by simplify_eq|].
    rewrite Hids in Hsorted, Hsecond. apply StronglySorted_inv in Hsorted as [_ Hall].
    rewrite Forall_forall in Hall. apply Hall. simpl in Hsecond.
    by eapply list_elem_of_lookup_2. }
  assert (SparseU64IndexWriter_Add w fv id st =
    (RedisFvStore_Set fieldKey id fv;;
     RedisSortKeyBitmapStore_MSet fieldKey
       (if bool_decide (SortedId_Score second ≤ fv)
        then [mkSortKeyBitmap (SortedId_Score second) (Some ({[id]} ∪ bmU));
              mkSortKeyBitmap (SortedId_Score first) (Some bmL)]
        else [mkSortKeyBitmap (SortedId_Score first) (Some ({[id]} ∪ bmL));
              mkSortKeyBitmap (SortedId_Score second) (Some bmU)])) st) as Hadd.
  { unfold SparseU64IndexWriter_Add. fold fieldKey.
    rewrite (bind_run _ _ _ _ _ (getFloorSortedBm_run _ _ st)).
    fold rd. rewrite Hfloor. simpl fmap. fold B.
    unfold mbind at 1, M_bind at 1.
    unfold mbind at 1, M_bind at 1. simpl deref. unfold mret at 1, M_ret at 1.
    rewrite (proj2 (Z.ltb_ge _ _)) by done.
    rewrite (bind_run _ _ _ _ _ Hq). cbv zeta. fold m.
    rewrite Hfirst', Hsecond. simpl deref.
    rewrite (bind_run _ _ st st first) by done.
    rewrite (bind_run _ _ st st second) by done.
    rewrite !add_all_spec. unfold roaring.Clear, roaring.New.
    rewrite !(right_id_L ∅ (∪)). fold bmL bmU.
    case_bool_decide; done. }
  assert (head (drop m sortedIds) = Some second) as HU.
  { by rewrite head_lookup, lookup_drop, Nat.add_0_r. }
  assert (take m sortedIds ≠ [] → head (take m sortedIds) = Some first) as HL.
  { destruct m; [done|]. by rewrite Hids. }
  repeat split; try done.
  intros Hkeys.
  assert (bmU ≠ ∅) as HbmU.
  { apply non_empty_inhabited_L with (SortedId_Id second).
    apply elem_of_list_to_set, list_elem_of_fmap_2. by apply head_Some_elem_of. }
  assert (bmL ≠ ∅) as HbmL.
  { apply non_empty_inhabited_L with (SortedId_Id first).
    apply elem_of_list_to_set, list_elem_of_fmap_2, head_Some_elem_of, HL.
    destruct m as [|m'] eqn:Hm; [|by rewrite Hids].
    rewrite Hfirst' in Hsecond. by simplify_eq. }
  assert (∀ X : gset Z, {[id]} ∪ X ≠ ∅) as Hid.
  { intros X. apply non_empty_inhabited_L with id.
    apply elem_of_union_l. by apply elem_of_singleton. }
  rewrite Hadd.
  rewrite (bind_run _ _ st
             (mkState (mkRedis (bm_hash rd) (skbm_zs rd) (skbm_hm rd)
                         (<[(fieldKey, id) := fv]> (fv_hash rd))) (slog st)) tt) by done.
  rewrite RedisSortKeyBitmapStore_MSet_run. eexists. split; [done|].
  cbn [redis]. unfold forward_value.
  case_bool_decide.
  - destruct (mset_redis_two fieldKey (SortedId_Score second) (SortedId_Score first)
                ({[id]} ∪ bmU) bmL
                (mkRedis (bm_hash rd) (skbm_zs rd) (skbm_hm rd)
                   (<[(fieldKey, id) := fv]> (fv_hash rd))))
      as (H1 & H2 & H3 & H4 & H5 & _); [done..|].
    rewrite H5. simpl. by rewrite lookup_insert_eq.
  - destruct (mset_redis_two fieldKey (SortedId_Score first) (SortedId_Score second)
                ({[id]} ∪ bmL) bmU
                (mkRedis (bm_hash rd) (skbm_zs rd) (skbm_hm rd)
                   (<[(fieldKey, id) := fv]> (fv_hash rd))))
      as (H1 & H2 & H3 & H4 & H5 & _); [done..|].
    rewrite H5. simpl. by rewrite lookup_insert_eq.
Qed.

(** ** Deleting instead of writing *)

Lemma lookup_hmset_ne {K K' V : Type} `{Countable K'} (mk : K → K')
    (pairs : list (K * V)) (m : gmap K' V) (k : K') :
  (∀ p, p ∈ pairs → mk p.1 ≠ k) → hmset mk pairs m !! k = m !! k.
Proof.
  unfold hmset. revert m. induction pairs as [|p pairs IH]; intros m Hne; [done|].
  simpl. rewrite IH.
  - apply lookup_insert_ne, Hne, list_elem_of_here.
  - intros q Hq. apply Hne. by apply list_elem_of_further.
Qed.

Lemma lookup_hdel_elem_of {K K' V : Type} `{Countable K'} (mk : K → K')
    (fields : list K) (m : gmap K' V) (f : K) :
  m !! mk f = None ∨ f ∈ fields → hdel mk fields m !! mk f = None.
Proof.
  unfold hdel. revert m. induction fields as [|f' fields IH]; intros m [Hm|Hin]; simpl.
  - done.
  - by apply elem_of_nil in Hin.
  - apply IH. left. rewrite lookup_delete. by case_decide.
  - apply IH. apply elem_of_cons in Hin as [->|Hin]; [left|by right].
    apply lookup_delete_eq.
Qed.

Lemma MSet_deletes (indexKey : string) (skbms : list SortKeyBitmap) (e : SortKeyBitmap)
    (rd : Redis) :
  e ∈ skbms → is_nil_or_empty e = true →
  (∀ e', e' ∈ skbms → SortKey e' = SortKey e → is_nil_or_empty e' = true) →
  skbm_hm (mset_redis indexKey skbms rd) !! (indexKey, SortKey e) = None ∧
  SortKey e ∉ zset (mset_redis indexKey skbms rd) indexKey.
Proof.
  intros He Hempty Hsame. unfold mset_redis.
  set (delKeys := SortKey <$> filter (λ skbm, is_nil_or_empty skbm = true) skbms).
  set (setSkbms := filter (λ skbm, is_nil_or_empty skbm = false) skbms).
  assert (SortKey e ∈ delKeys) as Hdel.
  { apply list_elem_of_fmap_2, list_elem_of_filter. by split. }
  assert (SortKey e ∉ SortKey <$> setSkbms) as Hset.
  { intros Hin. apply list_elem_of_fmap in Hin as (e' & Heq & He').
    apply list_elem_of_filter in He' as [Hne He'].
    by rewrite (Hsame e' He') in Hne. }
  set (rd1 := mkRedis (bm_hash rd) (zrem indexKey delKeys (skbm_zs rd))
                (hdel (λ k, (indexKey, k)) delKeys (skbm_hm rd)) (fv_hash rd)).
  assert (skbm_hm rd1 !! (indexKey, SortKey e) = None ∧ SortKey e ∉ zset rd1 indexKey)
    as [Hhm1 Hzs1].
  { split.
    - apply (lookup_hdel_elem_of (λ k, (indexKey, k))). by right.
    - unfold rd1, zset. cbn [skbm_zs]. rewrite lookup_zrem, decide_True by done.
      intros Hin. apply elem_of_difference in Hin as [_ Hnot].
      by apply Hnot, elem_of_list_to_set. }
  clearbody rd1.
  destruct delKeys as [|dk dks]; [by apply elem_of_nil in Hdel|].
  destruct setSkbms as [|sk sks] eqn:Hs; [done|]. rewrite <-Hs in *. clear Hs.
  cbn [skbm_hm]. split.
  - rewrite lookup_hmset_ne; [done|].
    intros [k raw] Hin Heq. simpl in Heq. apply Hset.
    apply list_elem_of_omap in Hin as (e' & He' & Hraw).
    destruct (Bitmap e') eqn:Hb; [|done]. simplify_eq.
    match goal with Hk : SortKey e' = SortKey e |- _ => rewrite <-Hk end.
    by apply list_elem_of_fmap_2.
  - replace (mkRedis (bm_hash rd1) _ _ _) with
      (mkRedis (bm_hash rd1)
         (zadd indexKey (SortKey <$> setSkbms) (skbm_zs rd1))
         (hmset (λ k, (indexKey, k))
            (omap (λ skbm, match Bitmap skbm with
                           | Some raw => Some (SortKey skbm, raw)
                           | None => None
                           end) setSkbms) (skbm_hm rd1))
         (fv_hash rd1)) by done.
    intros Hin. unfold zset in Hin. cbn [skbm_zs] in Hin.
    rewrite lookup_zadd, decide_True in Hin by done.
    apply elem_of_union in Hin as [Hin|Hin]; [|done].
    apply elem_of_list_to_set in Hin. by apply Hset.
Qed.

(** C6: every write operation of the term index and of the sparse index
    keeps the stored bitmaps non-empty.  [Set] deletes the hash field of a
    nil or empty bitmap; [MSet] deletes the hash field and the sorted-set
    member of a bucket whose bitmap is nil or empty (and that is given no
    other bitmap in the same call). *)
Theorem writes_keep_bitmaps_non_empty `{!SliceSorter} (op : WriteOp) (st : State) :
  compact (redis st) →
  match run_write op st with
  | Some (_, st') => compact (redis st')
  | None => True
  end ∧
  (∀ indexKey valueKey value,
     value = None ∨ value = Some ∅ →
     ∃ st', RedisBmStore_Set indexKey valueKey value st = Some (tt, st') ∧
            bm_hash (redis st') !! (indexKey, valueKey) = None) ∧
  (∀ indexKey skbms e,
     e ∈ skbms → is_nil_or_empty e = true →
     (∀ e', e' ∈ skbms → SortKey e' = SortKey e → is_nil_or_empty e' = true) →
     ∃ st', RedisSortKeyBitmapStore_MSet indexKey skbms st = Some (tt, st') ∧
            compact (redis st') ∧
            skbm_hm (redis st') !! (indexKey, SortKey e) = None ∧
            SortKey e ∉ zset (redis st') indexKey).
Proof.
  intros Hst. split_and!.
  - by apply preserves_compact_write.
  - intros indexKey valueKey value [->| ->]; eexists; (split; [done|]); simpl;
      apply lookup_delete_eq.
  - intros indexKey skbms e He Hempty Hsame.
    rewrite RedisSortKeyBitmapStore_MSet_run. eexists. split; [done|].
    split.
    + pose proof (preserves_compact_MSet indexKey skbms st Hst) as Hc.
      by rewrite RedisSortKeyBitmapStore_MSet_run in Hc.
    + by apply MSet_deletes.
Qed.

(** ** The query path *)

(** What [Scan] delivers: it goes through buckets in ascending sort-key order,
    descending when [reverse]; a bucket with no id in the base bitmap is
    skipped; for the others the callback gets the ids of the intersection
    ascending by (forward value, id), reversed when [reverse]; and nothing
    more is read once the callback has returned false.  The buckets gone
    through are a prefix of the stored ones in scan order (all of them when
    no bucket has the last key of the key space). *)
Theorem Scan_delivers_sorted_batches `{!SliceSorter} {B : Type}
    (r : SparseU64IndexReader) (baseBm : gset Z) (reverse_ : bool)
    (proc : list SortId → B → bool * B) (b : B) (st : State) :
  let indexKey := MakeIndexKey (SparseU64IndexReader_Index r) in
  let rd := redis st in
  SparseU64IndexReader_Scan r baseBm reverse_ proc b st =
    Some (outcome (deliver proc
            (omap (bucket_batch rd indexKey baseBm reverse_)
               (reached_keys rd indexKey reverse_)) b), st) ∧
  reached_keys rd indexKey reverse_ `prefix_of` scan_keys rd indexKey reverse_ ∧
  (scan_end reverse_ ∉ scan_keys rd indexKey reverse_ →
   reached_keys rd indexKey reverse_ = scan_keys rd indexKey reverse_) ∧
  StronglySorted (scan_lt reverse_) (scan_keys rd indexKey reverse_) ∧
  (∀ k, k ∈ scan_keys rd indexKey reverse_ ↔ k ∈ zset rd indexKey ∧ is_u64 k) ∧
  (∀ bm, StronglySorted SortId_le (sorted_ids rd indexKey bm) ∧
         sorted_ids rd indexKey bm ≡ₚ
           (λ id, mkSortId id (forward_value rd indexKey id)) <$> elements bm).
Proof.
  intros indexKey rd. split_and!.
  - apply SparseU64IndexReader_Scan_run.
  - unfold reached_keys. destruct reverse_; apply reached_prefix.
  - intros Hend. unfold reached_keys.
    pose proof (scan_keys_sorted rd indexKey reverse_) as Hs.
    assert (Forall is_u64 (scan_keys rd indexKey reverse_)) as Hu.
    { apply Forall_forall. intros k Hk. by apply elem_of_scan_keys in Hk as [_ ?]. }
    destruct reverse_; by apply (reached_complete _ _ _ Hs Hu Hend).
  - apply scan_keys_sorted.
  - intros k. apply elem_of_scan_keys.
  - intros bm. split; [apply sorted_ids_sorted|apply sorted_ids_Permutation].
Qed.

(** C5: with a provider filter in mode notNull, [List] takes the bitmap
    stored under the key "null" away from the accumulator; in mode null it
    intersects the accumulator with that bitmap, which is what an equality
    predicate does with the value key of a nil pointer, "null"; no other
    value has that key.  [Total] is the cardinality of the result. *)
Theorem List_provider_null_filters `{!SliceSorter} (s : OrdersSearchService)
    (status product limit : option Z) (value : Z) (st : State) :
  let rd := redis st in
  let A := equality_matches rd s status product in
  let P := parseBitmap (bm_hash rd !!
             (GetIndexKey (TermIndexReader_Index (ProviderIdIndexReader s)), "null")) in
  let request mode := mkRequest status product (Some (mkNullableValueFilter mode value)) limit in
  List_accBm s (request FilterModeNotNull) st = Some (A ∖ P, st) ∧
  List_accBm s (request FilterModeNull) st = Some (A ∩ P, st) ∧
  List_accBm s (request FilterModeEq) st = Some (provider_equals rd s (Some value) A, st) ∧
  provider_equals rd s None A = A ∩ P ∧
  MakeValueKey (PtrInt64 None) = "null" ∧
  (∀ v, MakeValueKey (PtrInt64 (Some v)) ≠ "null") ∧
  (∀ mode, ∃ resp st' accBm,
     OrdersSearchService_List s (request mode) st = Some (resp, st') ∧
     List_accBm s (request mode) st = Some (accBm, st) ∧
     Total resp = Z.of_nat (size accBm)).
Proof.
  intros rd A P request. split_and!.
  - by rewrite List_accBm_run.
  - by rewrite List_accBm_run.
  - by rewrite List_accBm_run.
  - done.
  - done.
  - intros v. apply Sprint_not_null.
  - intros mode. rewrite OrdersSearchService_List_run, List_accBm_run.
    by eexists _, _, _.
Qed.

(** C9: [List] writes nothing: when it returns, the Redis store is the
    one it was called on.  What it intersects and subtracts are the bitmaps
    [parseBitmap] decoded for this call; only the log has grown, by the
    debug record. *)
Theorem List_leaves_store_unchanged `{!SliceSorter} (s : OrdersSearchService)
    (r : Request) (st : State) :
  (∃ resp, OrdersSearchService_List s r st =
           Some (resp, mkState (redis st) (slog st ++ [(LevelDebug, "Querying orders")]))) ∧
  (∃ accBm, List_accBm s r st = Some (accBm, st)) ∧
  (∀ reader fv, TermIndexReader_Get reader fv st =
     Some (parseBitmap (bm_hash (redis st) !!
             (GetIndexKey (TermIndexReader_Index reader), MakeValueKey fv)), st)) ∧
  (∀ B baseBm reverse_ (proc : list SortId → B → bool * B) b,
     ∃ b', SparseU64IndexReader_Scan (CreateTimeIndexReader s) baseBm reverse_ proc b st =
           Some (b', st)).
Proof.
  split_and!.
  - rewrite OrdersSearchService_List_run. by eexists.
  - rewrite List_accBm_run. by eexists.
  - done.
  - intros B baseBm reverse_ proc b. rewrite SparseU64IndexReader_Scan_run. by eexists.
Qed.

(** ** Runs of the consumer and of the query *)

(** After the rows were inserted from the newest to the oldest, a query
    without filter and without limit answers with a hundred ids and a
    total of a hundred and one.  Every bucket holds one id, so the sort
    routine has no say in this. *)
Lemma List_after_newest_first `{!SliceSorter} :
  fst <$> (ConsumeClaim Start newest_first;;
           OrdersSearchService_List NewOrdersSearchService any_order) initial =
  Some (mkResponse (Z.of_nat <$> seq 1 100) 101).
Proof.
  assert (completes (ConsumeClaim Start newest_first) initial = true) as Hc
    by (vm_compute; reflexivity).
  unfold mbind, M_bind. unfold completes in Hc.
  destruct (ConsumeClaim Start newest_first initial) as [[[] st]|] eqn:Hst; [|done].
  rewrite OrdersSearchService_List_run. simpl fmap. f_equal.
  replace st with (state_after (ConsumeClaim Start newest_first) initial)
    by (unfold state_after; by rewrite Hst).
  vm_compute. reflexivity.
Qed.

(** C1, at a failing input: the consumer applies a hundred and one
    inserts, create_time 100 down to 0, and [List] is asked for every row.
    The rows sorted by create_time descending are the ids 1 to 101; [List]
    returns the right total and the ids 1 to 100 only. *)
Theorem List_differs_from_the_table `{!SliceSorter} :
  ∃ resp,
    fst <$> (ConsumeClaim Start newest_first;;
             OrdersSearchService_List NewOrdersSearchService any_order) initial =
      Some resp ∧
    Total resp = Total (expected_response (rows_after newest_first) any_order) ∧
    IDs (expected_response (rows_after newest_first) any_order) = IDs resp ++ [101] ∧
    resp ≠ expected_response (rows_after newest_first) any_order.
Proof.
  eexists. split; [apply List_after_newest_first|].
  assert (expected_response (rows_after newest_first) any_order =
          mkResponse (Z.of_nat <$> seq 1 101) 101) as -> by (vm_compute; reflexivity).
  split_and!; [done|by vm_compute|]. intros Heq. by vm_compute in Heq.
Qed.

(** C10, at a failing input: same events, a request without limit.  The
    filter intersection holds 101 ids; the scan ends before the bucket with
    sort key 0, and the id in it, 101, is not among the 100 ids returned. *)
Theorem List_stops_before_the_last_bucket `{!SliceSorter} :
  match (ConsumeClaim Start newest_first;;
         OrdersSearchService_List NewOrdersSearchService any_order) initial with
  | Some (resp, st) =>
      Limit any_order = None ∧
      matching_ids (redis st) NewOrdersSearchService any_order ≠ ∅ ∧
      Total resp = 101 ∧ length (IDs resp) = 100%nat ∧
      101 ∈ matching_ids (redis st) NewOrdersSearchService any_order ∧
      101 ∈ bucket (redis st) create_time_key 0 ∧
      0 ∈ zset (redis st) create_time_key ∧
      101 ∉ IDs resp
  | None => False
  end.
Proof.
  pose proof List_after_newest_first as Hresp.
  set (m := ConsumeClaim Start newest_first;; _) in *.
  assert (bool_decide
    (matching_ids (redis (state_after m initial)) NewOrdersSearchService any_order ≠ ∅ ∧
     101 ∈ matching_ids (redis (state_after m initial)) NewOrdersSearchService any_order ∧
     101 ∈ bucket (redis (state_after m initial)) create_time_key 0 ∧
     0 ∈ zset (redis (state_after m initial)) create_time_key) = true) as Hst.
  { subst m. unfold state_after, mbind, M_bind.
    assert (completes (ConsumeClaim Start newest_first) initial = true) as Hc
      by (vm_compute; reflexivity).
    unfold completes in Hc.
    destruct (ConsumeClaim Start newest_first initial) as [[[] st]|] eqn:Hst; [|done].
    rewrite OrdersSearchService_List_run. cbn [redis].
    replace st with (state_after (ConsumeClaim Start newest_first) initial)
      by (unfold state_after; by rewrite Hst).
    vm_compute. reflexivity. }
  apply bool_decide_eq_true in Hst. unfold state_after in Hst.
  destruct (m initial) as [[resp st]|]; [|done].
  simpl in Hresp. simplify_eq. destruct Hst as (H1 & H2 & H3 & H4).
  split_and!; try done. apply (bool_decide_unpack _). by vm_compute.
Qed.

(** C4, at a failing input: the store after the same events, a descending
    scan over every id with a callback that never returns false.  The
    buckets in scan order have the sort keys 100 down to 0, one id each,
    and every one of them meets the base bitmap.  [Scan] delivers the
    buckets with sort keys 100 down to 1 and returns: the bucket with sort
    key 0, whose intersection with the base bitmap is the id 101, is not
    delivered. *)
Theorem Scan_misses_the_last_bucket `{!SliceSorter} :
  let st := state_after (ConsumeClaim Start newest_first) initial in
  let reader := CreateTimeIndexReader NewOrdersSearchService in
  completes (ConsumeClaim Start newest_first) initial = true ∧
  scan_keys (redis st) create_time_key true = (λ i : nat, 100 - Z.of_nat i) <$> seq 0 101 ∧
  (∀ k, k ∈ scan_keys (redis st) create_time_key true →
        bucket (redis st) create_time_key k ∩ ids_1_to_101 = {[101 - k]}) ∧
  bucket (redis st) create_time_key 0 ∩ ids_1_to_101 = {[101]} ∧
  SparseU64IndexReader_Scan reader ids_1_to_101 true keep_batches [] st =
    Some ((λ i : nat, [mkSortId (Z.of_nat i + 1) (100 - Z.of_nat i)]) <$> seq 0 100, st).
Proof.
  intros st reader.
  assert (completes (ConsumeClaim Start newest_first) initial = true) as Hc
    by (vm_compute; reflexivity).
  assert (scan_keys (redis st) create_time_key true =
          (λ i : nat, 100 - Z.of_nat i) <$> seq 0 101) as Hkeys
    by (vm_compute; reflexivity).
  split_and!; [done|done| | |].
  - intros k Hk. rewrite Hkeys in Hk. revert k Hk. apply Forall_forall.
    apply (bool_decide_unpack _). vm_compute. exact I.
  - vm_compute. reflexivity.
  - rewrite SparseU64IndexReader_Scan_run.
    apply (f_equal (λ batches, Some (batches, st))). vm_compute. reflexivity.
Qed.


Lemma ends_with_run {A : Type} (m : M A) (st : State) (P : A → State → Prop)
    `{!∀ a st', Decision (P a st')} :
  match m st with
  | Some (a, st') => bool_decide (P a st')
  | None => false
  end = true →
  ends_with m st P.
Proof.
  unfold ends_with. destruct (m st) as [[a st']|]; [|done].
  apply bool_decide_eq_true.
Qed.

Lemma ends_with_bind {A : Type} (m : M unit) (f : unit → M A) (st : State)
    (P : A → State → Prop) :
  completes m st = true →
  ends_with (f tt) (state_after m st) P →
  ends_with (m ≫= f) st P.
Proof.
  unfold completes, state_after, ends_with, mbind, M_bind.
  by destruct (m st) as [[[] st']|].
Qed.

(** ** The writer and the sort routine *)

(** With no two forward values equal, the slice that [QuerySortedIds]
    sorts has one sorted order only. *)
Lemma sort_Slice_SortedId `{!SliceSorter} (l : list SortedId) :
  NoDup (SortedId_Score <$> l) →
  sort_Slice SortedId_less l = sort_Slice (SliceSorter:=stable_sorter) SortedId_less l.
Proof.
  intros Hnd.
  apply (StronglySorted_unique_strong (λ a b, SortedId_Score a ≤ SortedId_Score b));
    [|apply SortedId_Score_sorted..|by rewrite !sort_Slice_Permutation].
  intros x1 x2 H1 H2 H12 H21.
  rewrite sort_Slice_Permutation in H1. rewrite sort_Slice_Permutation in H2.
  assert (SortedId_Score x1 = SortedId_Score x2) as Heq by lia.
  clear H12 H21. induction l as [|y l IH]; [by apply elem_of_nil in H1|].
  rewrite fmap_cons in Hnd. apply NoDup_cons in Hnd as [Hy Hnd].
  apply elem_of_cons in H1 as [->|H1], H2 as [->|H2]; auto.
  - destruct Hy. rewrite Heq. by apply list_elem_of_fmap_2.
  - destruct Hy. rewrite <-Heq. by apply list_elem_of_fmap_2.
Qed.

(** A slice of two has two orders, the one a stable sort leaves and the
    one [front_sorter] leaves. *)
Lemma sort_Slice_two `{!SliceSorter} (a b : SortedId) :
  sort_Slice SortedId_less [a; b] =
    sort_Slice (SliceSorter:=stable_sorter) SortedId_less [a; b] ∨
  sort_Slice SortedId_less [a; b] =
    sort_Slice (SliceSorter:=front_sorter) SortedId_less [a; b].
Proof.
  pose proof (sort_Slice_Permutation SortedId_less [a; b]) as Hperm.
  pose proof (SortedId_Score_sorted [a; b]) as Hsorted.
  destruct (sort_Slice SortedId_less [a; b]) as [|x [|y [|z l]]];
    try (apply Permutation_length in Hperm; discriminate Hperm).
  apply StronglySorted_inv in Hsorted as [_ Hxy].
  apply Forall_cons in Hxy as [Hxy _].
  apply Permutation_length_2 in Hperm as [[-> ->]|[-> ->]].
  - cbn. unfold SortedId_less. repeat case_bool_decide; auto; lia.
  - cbn. unfold SortedId_less. repeat case_bool_decide; auto; lia.
Qed.

Section AnySorter.
Context `{!SliceSorter}.
Context (w : SparseU64IndexWriter) (fv id : Z) (st : State).

(** Where the sort routine has no choice, [Add] does not depend on it. *)
Lemma Add_any_sorter :
  distinct_floor w fv (redis st) →
  SparseU64IndexWriter_Add w fv id st =
  SparseU64IndexWriter_Add (H:=stable_sorter) w fv id st.
Proof.
  unfold distinct_floor. cbv zeta. intros Hnd.
  unfold SparseU64IndexWriter_Add.
  rewrite !(bind_run _ _ _ _ _ (getFloorSortedBm_run _ _ st)).
  destruct (floor_key _ _ _) as [k|]; [|done].
  cbn [fmap option_fmap option_map Bitmap deref].
  unfold mbind, M_bind, mret, M_ret.
  destruct (_ <? _); [done|].
  destruct (decide (bucket (redis st) (MakeIndexKey (SparseU64IndexWriter_Index w)) k = ∅))
    as [He|Hne]; [by rewrite He|].
  rewrite !(QuerySortedIds_run _ _ _ Hne), sort_Slice_SortedId; [done|].
  rewrite <-list_fmap_compose. unfold roaring.Iterator.
  rewrite merge_sort_Permutation. exact Hnd.
Qed.

(** Where it sorts two ids, [Add] does what it does with one of two sort
    routines. *)
Lemma Add_two_sorters :
  floor_of_two w fv (redis st) →
  SparseU64IndexWriter_Add w fv id st =
    SparseU64IndexWriter_Add (H:=stable_sorter) w fv id st ∨
  SparseU64IndexWriter_Add w fv id st =
    SparseU64IndexWriter_Add (H:=front_sorter) w fv id st.
Proof.
  unfold floor_of_two. cbv zeta. intros Htwo.
  unfold SparseU64IndexWriter_Add.
  rewrite !(bind_run _ _ _ _ _ (getFloorSortedBm_run _ _ st)).
  destruct (floor_key _ _ _) as [k|]; [|done].
  cbn [fmap option_fmap option_map Bitmap deref].
  unfold mbind, M_bind, mret, M_ret.
  destruct (_ <? _); [by left|].
  assert (bucket (redis st) (MakeIndexKey (SparseU64IndexWriter_Index w)) k ≠ ∅) as Hne.
  { intros He. by rewrite He in Htwo. }
  rewrite !(QuerySortedIds_run _ _ _ Hne).
  assert (length (roaring.Iterator
            (bucket (redis st) (MakeIndexKey (SparseU64IndexWriter_Index w)) k)) = 2%nat)
    as Hlen.
  { unfold roaring.Iterator. by rewrite merge_sort_Permutation. }
  destruct (roaring.Iterator _) as [|a [|b [|c l]]]; try discriminate Hlen.
  rewrite !fmap_cons, fmap_nil.
  set (fieldKey := MakeIndexKey (SparseU64IndexWriter_Index w)).
  destruct (sort_Slice_two (mkSortedId a (forward_value (redis st) fieldKey a))
              (mkSortedId b (forward_value (redis st) fieldKey b))) as [->| ->]; auto.
Qed.

Lemma ends_with_Add_any {A : Type} (f : unit → M A) (P : A → State → Prop) :
  distinct_floor w fv (redis st) →
  completes (SparseU64IndexWriter_Add (H:=stable_sorter) w fv id) st = true →
  ends_with (f tt)
    (state_after (SparseU64IndexWriter_Add (H:=stable_sorter) w fv id) st) P →
  ends_with (SparseU64IndexWriter_Add w fv id ≫= f) st P.
Proof.
  intros Hd Hc Hf.
  apply ends_with_bind; unfold completes, state_after; by rewrite Add_any_sorter.
Qed.

Lemma ends_with_Add_last (P : unit → State → Prop) :
  distinct_floor w fv (redis st) →
  ends_with (SparseU64IndexWriter_Add (H:=stable_sorter) w fv id) st P →
  ends_with (SparseU64IndexWriter_Add w fv id) st P.
Proof. intros Hd. unfold ends_with. by rewrite Add_any_sorter. Qed.

Lemma ends_with_Add_two (P : unit → State → Prop) :
  floor_of_two w fv (redis st) →
  ends_with (SparseU64IndexWriter_Add (H:=stable_sorter) w fv id) st P →
  ends_with (SparseU64IndexWriter_Add (H:=front_sorter) w fv id) st P →
  ends_with (SparseU64IndexWriter_Add w fv id) st P.
Proof.
  intros Htwo. unfold ends_with. by destruct (Add_two_sorters Htwo) as [->| ->].
Qed.

End AnySorter.

(** One step of a run whose sort routine is not known: the step is run
    with the stable routine, which it does not differ from. *)
Ltac any_sorter_step :=
  lazymatch goal with
  | |- ends_with (SparseU64IndexWriter_Add _ _ _ ≫= _) _ _ =>
      apply ends_with_Add_any;
      [apply (bool_decide_unpack _); vm_compute; exact I
      |vm_compute; reflexivity
      |cbv beta]
  | |- ends_with (SparseU64IndexWriter_Add _ _ _) _ _ =>
      apply ends_with_Add_last;
      [apply (bool_decide_unpack _); vm_compute; exact I|]
  | |- ends_with (_ ≫= _) _ _ =>
      apply ends_with_bind; [vm_compute; reflexivity|cbv beta]
  end.

(** C2, at failing inputs, for a writer with buckets of two and every
    sort routine.  A bucket whose first row was deleted is split: its ids 2
    and 3 go to the buckets with sort keys 20 and 30 and stay in the bucket
    with sort key 10.  Three rows with one create_time: the split leaves one
    bucket, which holds one id, and the two other ids have a forward value
    and no bucket.  An insert under the smallest forward value of the
    bucket it splits: its id is in one bucket, whose sort key is above the
    value, and the ids of the split bucket are in two. *)
Theorem Add_breaks_id_exclusivity `{!SliceSorter} :
  ends_with split_after_delete initial
    (λ _ st,
       bucket_keys (redis st) create_time_key = [10; 20; 30] ∧
       bucket (redis st) create_time_key 10 = {[2; 3]} ∧
       bucket (redis st) create_time_key 20 = {[2]} ∧
       bucket (redis st) create_time_key 30 = {[3; 4]}) ∧
  ends_with split_with_ties initial
    (λ _ st,
       bucket_keys (redis st) create_time_key = [10] ∧
       (bucket (redis st) create_time_key 10 = {[1]} ∨
        bucket (redis st) create_time_key 10 = {[2]}) ∧
       fv_hash (redis st) !! (create_time_key, 1) = Some 10 ∧
       fv_hash (redis st) !! (create_time_key, 2) = Some 10 ∧
       fv_hash (redis st) !! (create_time_key, 3) = Some 10) ∧
  ends_with split_below_smallest initial
    (λ _ st,
       bucket_keys (redis st) create_time_key = [10; 20; 30] ∧
       bucket (redis st) create_time_key 10 = {[2; 3]} ∧
       bucket (redis st) create_time_key 20 = {[2; 4]} ∧
       bucket (redis st) create_time_key 30 = {[3]} ∧
       fv_hash (redis st) !! (create_time_key, 4) = Some 15).
Proof.
  split_and!.
  - unfold split_after_delete. do 5 any_sorter_step.
    refine (ends_with_run _ _ _ _). vm_compute. reflexivity.
  - unfold split_with_ties. do 2 any_sorter_step.
    apply ends_with_Add_two; [apply (bool_decide_unpack _); vm_compute; exact I|..];
      refine (ends_with_run _ _ _ _); vm_compute; reflexivity.
  - unfold split_below_smallest. do 5 any_sorter_step.
    refine (ends_with_run _ _ _ _). vm_compute. reflexivity.
Qed.

(** C3, at a failing input, for a writer with buckets of two and every
    sort routine.  The bucket with sort key 10 holds the ids 2 and 3, whose
    forward values are 20 and 30; it is full, and it is the floor bucket of
    15.  [Add(15, 4)] splits it into L = [2] under L[0].fv = 20 and U = [3]
    under U[0].fv = 30 and, 15 being below U[0].fv, adds the id 4 to the
    first of the two.  That bucket is not the floor of 15: its sort key is
    above 15.  The floor bucket of 15 is as before the one with sort key
    10, and the id is not in it; so [Remove(15, 4)] removes the forward
    value and leaves the id in the bucket with sort key 20. *)
Theorem Add_split_misses_the_floor `{!SliceSorter} :
  ends_with before_split_below initial
    (λ _ st,
       floor_key (redis st) create_time_key 15 = Some 10 ∧
       bucket (redis st) create_time_key 10 = {[2; 3]} ∧
       uint64 (SplitThreshold small_writer) ≤
         roaring.GetCardinality (bucket (redis st) create_time_key 10) ∧
       forward_value (redis st) create_time_key 2 = 20 ∧
       forward_value (redis st) create_time_key 3 = 30) ∧
  ends_with split_below_smallest initial
    (λ _ st,
       bucket_keys (redis st) create_time_key = [10; 20; 30] ∧
       bucket (redis st) create_time_key 20 = {[2; 4]} ∧
       bucket (redis st) create_time_key 30 = {[3]} ∧
       forward_value (redis st) create_time_key 4 = 15 ∧
       floor_key (redis st) create_time_key 15 = Some 10 ∧
       4 ∉ bucket (redis st) create_time_key 10) ∧
  ends_with remove_after_split_below initial
    (λ _ st,
       4 ∈ bucket (redis st) create_time_key 20 ∧
       fv_hash (redis st) !! (create_time_key, 4) = None).
Proof.
  split_and!.
  - unfold before_split_below. do 4 any_sorter_step.
    refine (ends_with_run _ _ _ _). vm_compute. reflexivity.
  - unfold split_below_smallest. do 5 any_sorter_step.
    refine (ends_with_run _ _ _ _). vm_compute. reflexivity.
  - unfold remove_after_split_below. do 5 any_sorter_step.
    refine (ends_with_run _ _ _ _). vm_compute. reflexivity.
Qed.



















(** ** The theorems with hypotheses, at concrete inputs *)

(** The split path at the insert of (30, 3) into a bucket of two that is
    full. *)
Lemma Add_split_path_witness :
  floor_key (redis (state_after (two_rows (H:=stable_sorter)) initial))
    create_time_key 30 = Some 10 ∧
  ∃ sortedIds first second,
    sortedIds = [first; second] ∧
    SortedId_Score first ≤ SortedId_Score second ∧
    SparseU64IndexWriter_Add (H:=stable_sorter) small_writer 30 3
      (state_after (two_rows (H:=stable_sorter)) initial) =
    (RedisFvStore_Set create_time_key 3 30;;
     RedisSortKeyBitmapStore_MSet create_time_key
       (if bool_decide (SortedId_Score second ≤ 30)
        then [mkSortKeyBitmap (SortedId_Score second)
                (Some ({[3]} ∪ list_to_set (SortedId_Id <$> drop 1 sortedIds)));
              mkSortKeyBitmap (SortedId_Score first)
                (Some (list_to_set (SortedId_Id <$> take 1 sortedIds)))]
        else [mkSortKeyBitmap (SortedId_Score first)
                (Some ({[3]} ∪ list_to_set (SortedId_Id <$> take 1 sortedIds)));
              mkSortKeyBitmap (SortedId_Score second)
                (Some (list_to_set (SortedId_Id <$> drop 1 sortedIds)))]))
      (state_after (two_rows (H:=stable_sorter)) initial).
Proof.
  set (st := state_after (two_rows (H:=stable_sorter)) initial).
  assert (floor_key (redis st) create_time_key 30 = Some 10) as Hfloor
    by (vm_compute; reflexivity).
  assert (uint64 (SplitThreshold small_writer) ≤
          roaring.GetCardinality (bucket (redis st) create_time_key 10)) as Hcard
    by (vm_compute; discriminate).
  assert (bucket (redis st) create_time_key 10 ≠ ∅) as Hne
    by (apply (bool_decide_unpack _); vm_compute; exact I).
  split; [exact Hfloor|].
  destruct (Add_split_path (H:=stable_sorter) small_writer 30 3 10 st Hfloor Hcard Hne)
    as (sortedIds & first & second & Hq & Hperm & Hsorted & Hfirst & Hsecond & HL & Hle
        & Hadd & _).
  exists sortedIds, first, second.
  assert (length sortedIds = 2%nat) as Hlen.
  { rewrite Hperm, length_fmap. vm_compute. reflexivity. }
  destruct sortedIds as [|a [|b [|c rest]]]; try discriminate Hlen.
  simpl in Hfirst, Hsecond. injection Hfirst as ->. injection Hsecond as ->.
  split; [reflexivity|]. split; [exact Hle|]. exact Hadd.
Defined.

(** C6 at the removal of the only id of a bucket. *)
Lemma writes_keep_bitmaps_non_empty_witness :
  compact (redis one_row) ∧
  match run_write (H:=stable_sorter) (SparseRemove small_writer 10 1) one_row with
  | Some (_, st') => compact (redis st')
  | None => True
  end.
Proof.
  assert (compact (redis one_row)) as Hc
    by (apply (bool_decide_unpack _); vm_compute; exact I).
  split; [exact Hc|].
  exact (proj1 (writes_keep_bitmaps_non_empty (H:=stable_sorter)
                  (SparseRemove small_writer 10 1) one_row Hc)).
Defined.

(** C7 at the replay of a delete that had removed the bucket of its row
    and not yet the forward entry. *)
Lemma Remove_without_floor_bucket_witness :
  floor_key (redis partial_delete) create_time_key 10 = None ∧
  SparseU64IndexWriter_Remove small_writer 10 1 partial_delete =
  Some (tt, mkState
              (mkRedis (bm_hash (redis partial_delete)) (skbm_zs (redis partial_delete))
                 (skbm_hm (redis partial_delete))
                 (delete (create_time_key, 1) (fv_hash (redis partial_delete))))
              (slog partial_delete ++ [(LevelWarn, "cannot find floor sorted bitmap")])).
Proof.
  assert (floor_key (redis partial_delete) create_time_key 10 = None) as Hfloor
    by (vm_compute; reflexivity).
  split; [exact Hfloor|].
  exact (proj1 (Remove_without_floor_bucket small_writer 10 1 partial_delete Hfloor)).
Defined.

(** * The rest of the code *)

(** ** The encodings of the stores *)

Lemma digit_value_hex_digit (d : Z) :
  0 ≤ d < 16 → digit_value (hex_digit d) = Some d.
Proof.
  intros Hd. unfold digit_value, hex_digit.
  rewrite Ascii.N_ascii_embedding by (destruct (d <? 10) eqn:?; lia).
  rewrite Z2N.id by (destruct (d <? 10); lia).
  destruct (d <? 10) eqn:Hlt.
  - apply Z.ltb_lt in Hlt.
    rewrite (proj2 (Z.leb_le 48 _)), (proj2 (Z.leb_le _ 57)) by lia.
    simpl. f_equal. lia.
  - apply Z.ltb_ge in Hlt.
    rewrite (proj2 (Z.leb_le 48 _)) by lia.
    rewrite (proj2 (Z.leb_gt _ 57)) by lia.
    rewrite (proj2 (Z.leb_le 97 _)), (proj2 (Z.leb_le _ 122)) by lia.
    simpl. f_equal. lia.
Qed.

Lemma ParseUint_loop_hex_digits (n : nat) (u n0 : Z) (acc : string) :
  0 ≤ u → 0 ≤ n0 → n0 * 16 ^ Z.of_nat n + u `mod` 16 ^ Z.of_nat n ≤ u64_max →
  ParseUint_loop 16 (hex_digits n u acc) n0 =
  ParseUint_loop 16 acc (n0 * 16 ^ Z.of_nat n + u `mod` 16 ^ Z.of_nat n).
Proof.
  revert u n0 acc. induction n as [|n IH]; intros u n0 acc Hu Hn0 Hmax.
  - simpl. rewrite Z.mod_1_r. f_equal. lia.
  - assert (16 ^ Z.of_nat (S n) = 16 * 16 ^ Z.of_nat n) as Hpow
      by (rewrite Nat2Z.inj_succ, Z.pow_succ_r by lia; done).
    assert (0 < 16 ^ Z.of_nat n) as Hpos by (apply Z.pow_pos_nonneg; lia).
    rewrite Hpow in *.
    rewrite Z.rem_mul_r in * by lia.
    pose proof (Z.mod_pos_bound u 16 ltac:(lia)) as Hd.
    pose proof (Z.mod_pos_bound (u / 16) (16 ^ Z.of_nat n) Hpos) as Hh.
    simpl hex_digits. rewrite IH; [|apply Z.div_pos; lia|lia|nia].
    simpl ParseUint_loop. rewrite digit_value_hex_digit by lia.
    rewrite (proj2 (Z.leb_gt 16 _)) by lia.
    change (u64_max / 16 + 1) with 1152921504606846976.
    unfold u64_max in *.
    rewrite (proj2 (Z.leb_gt _ _)) by nia.
    cbv zeta. rewrite (proj2 (Z.ltb_ge _ _)) by nia.
    f_equal. lia.
Qed.

Lemma hex_digits_length (n : nat) (u : Z) (acc : string) :
  String.length (hex_digits n u acc) = (n + String.length acc)%nat.
Proof.
  revert u acc. induction n as [|n IH]; intros u acc; [done|].
  simpl hex_digits. rewrite IH. simpl. lia.
Qed.

(** The sort key of a bucket survives its encoding as a member of the
    sorted set: [hexToU64] reads back what [u64ToHex] wrote, and the
    member has 16 characters. *)
Theorem hexToU64_u64ToHex (u : Z) :
  is_u64 u →
  hexToU64 (u64ToHex u) = Some u ∧ String.length (u64ToHex u) = 16%nat.
Proof.
  intros [Hlo Hhi]. split; [|unfold u64ToHex; by rewrite hex_digits_length].
  unfold hexToU64, ParseUint, u64ToHex.
  assert (u `mod` 16 ^ Z.of_nat 16 = u) as Hmod
    by (apply Z.mod_small; unfold u64_max in Hhi; simpl; lia).
  destruct (hex_digits 16 u "") as [|c s] eqn:Hs.
  { pose proof (hex_digits_length 16 u "") as Hlen. rewrite Hs in Hlen. done. }
  rewrite <-Hs, ParseUint_loop_hex_digits; [|lia|lia|rewrite Hmod; lia].
  simpl ParseUint_loop. f_equal. lia.
Qed.

Lemma hex_digit_compare (a b : Z) :
  0 ≤ a < 16 → 0 ≤ b < 16 →
  Ascii.compare (hex_digit a) (hex_digit b) = (a ?= b).
Proof.
  intros Ha Hb. unfold Ascii.compare, hex_digit.
  rewrite !Ascii.N_ascii_embedding by (repeat case_match; lia).
  rewrite Z2N.inj_compare by (repeat case_match; lia).
  destruct (a <? 10) eqn:Ha10, (b <? 10) eqn:Hb10;
    rewrite ?Z.ltb_lt, ?Z.ltb_ge in *;
    match goal with
    | |- (?x ?= ?y) = _ =>
        destruct (Z.compare_spec x y), (Z.compare_spec a b); try reflexivity; lia
    end.
Qed.

Lemma hex_digits_compare (n : nat) (u v : Z) (acc1 acc2 : string) :
  0 ≤ u → 0 ≤ v →
  String.compare (hex_digits n u acc1) (hex_digits n v acc2) =
  match u `mod` 16 ^ Z.of_nat n ?= v `mod` 16 ^ Z.of_nat n with
  | Eq => String.compare acc1 acc2
  | c => c
  end.
Proof.
  revert u v acc1 acc2. induction n as [|n IH]; intros u v acc1 acc2 Hu Hv.
  - simpl. by rewrite !Z.mod_1_r.
  - assert (16 ^ Z.of_nat (S n) = 16 * 16 ^ Z.of_nat n) as ->
      by (rewrite Nat2Z.inj_succ, Z.pow_succ_r by lia; done).
    assert (0 < 16 ^ Z.of_nat n) as Hpos by (apply Z.pow_pos_nonneg; lia).
    rewrite !Z.rem_mul_r by lia.
    pose proof (Z.mod_pos_bound u 16 ltac:(lia)) as Hdu.
    pose proof (Z.mod_pos_bound v 16 ltac:(lia)) as Hdv.
    simpl hex_digits. rewrite IH by (apply Z.div_pos; lia).
    simpl String.compare. rewrite hex_digit_compare by lia.
    set (hu := (u / 16) `mod` 16 ^ Z.of_nat n).
    set (hv := (v / 16) `mod` 16 ^ Z.of_nat n).
    set (lu := u `mod` 16) in *. set (lv := v `mod` 16) in *.
    destruct (Z.compare_spec hu hv) as [Hh|Hh|Hh].
    + subst hv. rewrite Hh.
      destruct (Z.compare_spec lu lv) as [Hl|Hl|Hl].
      * rewrite Hl, Z.compare_refl. done.
      * by rewrite (proj2 (Z.compare_lt_iff _ _)) by lia.
      * by rewrite (proj2 (Z.compare_gt_iff _ _)) by lia.
    + by rewrite (proj2 (Z.compare_lt_iff _ _)) by lia.
    + by rewrite (proj2 (Z.compare_gt_iff _ _)) by lia.
Qed.

(** The byte-wise order of the members of a sorted set is the order of the
    sort keys they encode; in particular two sort keys never share a
    member.  This is what lets [Scan] and [getFloorSortedBm] ask Redis for a
    range of members by lexicographic order. *)
Theorem u64ToHex_compare (u v : Z) :
  is_u64 u → is_u64 v →
  String.compare (u64ToHex u) (u64ToHex v) = (u ?= v).
Proof.
  intros [Hu Hu'] [Hv Hv']. unfold u64ToHex.
  rewrite hex_digits_compare by done.
  unfold u64_max in *.
  rewrite !Z.mod_small by (simpl; lia).
  by destruct (u ?= v).
Qed.

Lemma u64ToHex_compare_witness :
  String.compare (u64ToHex 255) (u64ToHex 4096) = Lt.
Proof.
  rewrite (u64ToHex_compare 255 4096); [reflexivity|unfold is_u64, u64_max; lia..].
Defined.

Lemma hexToU64_u64ToHex_witness :
  hexToU64 (u64ToHex 48879) = Some 48879 ∧ u64ToHex 48879 = "000000000000beef".
Proof.
  split; [|reflexivity].
  apply (hexToU64_u64ToHex 48879). unfold is_u64, u64_max. lia.
Defined.

Lemma uint_value_ge (d : Decimal.uint) (n : Z) : 0 ≤ n → n ≤ uint_value d n.
Proof.
  revert n. induction d; intros n Hn; simpl; [lia|..];
    (etrans; [|apply IHd; lia]); lia.
Qed.

Lemma ParseUint_loop_uint (d : Decimal.uint) (n : Z) :
  0 ≤ n → uint_value d n ≤ u64_max →
  ParseUint_loop 10 (NilEmpty.string_of_uint d) n = Some (uint_value d n).
Proof.
  revert n. induction d; intros n Hn Hmax; [done|..];
    cbn [uint_value] in *;
    match goal with
    | H : uint_value ?d ?m ≤ _ |- _ =>
        pose proof (uint_value_ge d m ltac:(lia)) as Hge
    end;
    cbn [NilEmpty.string_of_uint ParseUint_loop];
    match goal with
    | |- context [digit_value ?c] =>
        let v := eval vm_compute in (digit_value c) in
        change (digit_value c) with v
    end;
    cbv iota beta;
    match goal with
    | |- context [10 <=? ?k] => change (10 <=? k) with false
    end;
    cbv iota;
    change (u64_max / 10 + 1) with 1844674407370955162;
    unfold u64_max in *;
    rewrite (proj2 (Z.leb_gt _ n)) by lia;
    cbv zeta;
    rewrite (proj2 (Z.ltb_ge _ _)) by lia;
    apply IHd; lia.
Qed.

Lemma uint_value_of_uint_acc (d : Decimal.uint) (acc : positive) :
  uint_value d (Z.pos acc) = Z.pos (Pos.of_uint_acc d acc).
Proof.
  revert acc. induction d; intros acc; simpl; [done|..];
    rewrite <-IHd; f_equal; lia.
Qed.

Lemma uint_value_of_uint (d : Decimal.uint) :
  uint_value d 0 = Z.of_N (Pos.of_uint d).
Proof.
  induction d; simpl; try done;
    by rewrite <-uint_value_of_uint_acc.
Qed.

Lemma ParseUint_Pos_to_uint (p : positive) :
  Z.pos p ≤ u64_max →
  ParseUint (NilZero.string_of_uint (Pos.to_uint p)) 10 = Some (Z.pos p).
Proof.
  intros Hmax.
  assert (uint_value (Pos.to_uint p) 0 = Z.pos p) as Hv
    by (by rewrite uint_value_of_uint, DecimalPos.Unsigned.of_to).
  pose proof (DecimalPos.Unsigned.to_uint_nonnil p) as Hnil.
  unfold NilZero.string_of_uint, ParseUint.
  destruct (Pos.to_uint p) as [|d|d|d|d|d|d|d|d|d|d] eqn:Hd; [done|..];
    rewrite <-Hv; (rewrite <-ParseUint_loop_uint; [done|done|by rewrite Hv]).
Qed.

(** The forward value that [RedisFvStore.Set] writes with [fmt.Sprint] is
    the one [MGet] reads back with [strconv.ParseUint(sv, 10, 64)], for
    every uint64. *)
Theorem ParseUint_Sprint (value : Z) :
  is_u64 value → ParseUint (Sprint value) 10 = Some value.
Proof.
  intros [Hlo Hhi]. unfold Sprint.
  destruct value as [|p|p]; [done| |lia].
  simpl. by apply ParseUint_Pos_to_uint.
Qed.

Lemma ParseUint_Sprint_witness : ParseUint (Sprint 1577836800) 10 = Some 1577836800.
Proof. apply (ParseUint_Sprint 1577836800). unfold is_u64, u64_max. lia. Defined.

(** ** The callback of List *)

Lemma List_proc_spec (limit : option Z) (batch : list SortId) (acc : list Z) :
  List_proc limit batch acc =
  (match limit with
   | Some n => bool_decide (Z.of_nat (length batch) < Z.max 1 (n - Z.of_nat (length acc)))
   | None => true
   end,
   acc ++ take_quota limit (length acc) (SortId_Id <$> batch)).
Proof.
  revert acc. induction batch as [|x batch IH]; intros acc.
  - simpl. destruct limit as [n|]; simpl.
    + rewrite bool_decide_eq_true_2 by lia. by rewrite take_nil, (right_id_L [] (++)).
    + by rewrite (right_id_L [] (++)).
  - simpl List_proc. destruct limit as [n|]; simpl take_quota.
    + rewrite length_app. simpl length.
      case_bool_decide as Hn.
      * rewrite bool_decide_eq_false_2 by lia. f_equal.
        replace (Z.to_nat (Z.max 1 (n - Z.of_nat (length acc)))) with 1%nat by lia.
        done.
      * rewrite IH. simpl take_quota. rewrite length_app. simpl length.
        f_equal.
        -- apply bool_decide_ext. lia.
        -- rewrite <-(assoc_L (++)). f_equal. simpl.
           replace (Z.to_nat (Z.max 1 (n - Z.of_nat (length acc))))
             with (S (Z.to_nat (Z.max 1 (n - Z.of_nat (length acc + 1)%nat)))) by lia.
           done.
    + rewrite IH. simpl. by rewrite <-(assoc_L (++)).
Qed.

Lemma deliver_List_proc (limit : option Z) (batches : list (list SortId)) (acc : list Z) :
  outcome (deliver (List_proc limit) batches acc) =
  acc ++ take_quota limit (length acc) (SortId_Id <$> mjoin batches).
Proof.
  revert acc. induction batches as [|batch batches IH]; intros acc.
  - simpl. destruct limit; simpl; by rewrite ?take_nil, (right_id_L [] (++)).
  - simpl deliver. rewrite List_proc_spec. simpl mjoin. rewrite fmap_app.
    destruct limit as [n|]; simpl take_quota.
    + case_bool_decide as Hn.
      * rewrite IH. simpl take_quota. rewrite <-(assoc_L (++)). f_equal.
        rewrite length_app, length_take, length_fmap.
        rewrite take_ge by (rewrite length_fmap; lia).
        rewrite take_app_ge by (rewrite length_fmap; lia).
        rewrite length_fmap. f_equal. f_equal. lia.
      * simpl. f_equal.
        rewrite take_app_le by (rewrite length_fmap; lia). done.
    + rewrite IH. simpl. by rewrite <-(assoc_L (++)).
Qed.

Lemma elem_of_bucket_batch (rd : Redis) (indexKey : string) (baseBm : gset Z)
    (reverse_ : bool) (keys : list Z) (id : Z) :
  id ∈ SortId_Id <$> mjoin (omap (bucket_batch rd indexKey baseBm reverse_) keys) →
  id ∈ baseBm ∧ ∃ key, key ∈ keys ∧ id ∈ bucket rd indexKey key.
Proof.
  intros Hin. apply list_elem_of_fmap in Hin as (x & -> & Hx).
  apply list_elem_of_join in Hx as (batch & Hx & Hbatch).
  apply list_elem_of_omap in Hbatch as (key & Hkey & Hbatch).
  unfold bucket_batch in Hbatch. cbv zeta in Hbatch.
  case_bool_decide; [done|]. injection Hbatch as <-.
  assert (x ∈ sorted_ids rd indexKey (bucket rd indexKey key ∩ baseBm)) as Hx'
    by (destruct reverse_; [by apply elem_of_reverse|done]).
  rewrite sorted_ids_Permutation in Hx'.
  apply list_elem_of_fmap in Hx' as (id & -> & Hid). simpl.
  apply elem_of_elements, elem_of_intersection in Hid as [? ?]. eauto.
Qed.

Lemma List_response_ids (rd : Redis) (s : OrdersSearchService) (r : Request) (id : Z) :
  let indexKey := MakeIndexKey (SparseU64IndexReader_Index (CreateTimeIndexReader s)) in
  id ∈ IDs (List_response rd s r) →
  id ∈ matching_ids rd s r ∧
  ∃ key, key ∈ zset rd indexKey ∧ id ∈ bucket rd indexKey key.
Proof.
  intros indexKey. unfold List_response. cbv zeta. fold indexKey.
  set (A := matching_ids rd s r). simpl. intros Hid.
  destruct (bool_decide (Limit r = Some 0) || bool_decide (A = ∅));
    [by apply elem_of_nil in Hid|].
  rewrite deliver_List_proc in Hid. simpl in Hid.
  assert (id ∈ SortId_Id <$>
            mjoin (omap (bucket_batch rd indexKey A true)
                      (reached_keys rd indexKey true))) as Hin.
  { destruct (Limit r); simpl in Hid; [|done].
    apply elem_of_take in Hid as (i & Hi & _). by eapply list_elem_of_lookup_2. }
  apply elem_of_bucket_batch in Hin as (HA & key & Hkey & Hb).
  split; [done|]. exists key. split; [|done].
  assert (key ∈ scan_keys rd indexKey true) as Hscan.
  { eapply elem_of_prefix; [exact Hkey|]. apply reached_prefix. }
  by apply elem_of_scan_keys in Hscan as [? _].
Qed.

(** [List] never fails.  Its total is the number of ids that pass the
    filters; every id it returns passes the filters and is in a stored
    bucket; with a limit of one or more it returns no more ids than the
    limit, with a limit of zero none, and with a limit below zero one at
    most. *)
Theorem List_total_and_bounds `{!SliceSorter} (s : OrdersSearchService) (r : Request)
    (st : State) :
  let A := matching_ids (redis st) s r in
  let indexKey := MakeIndexKey (SparseU64IndexReader_Index (CreateTimeIndexReader s)) in
  ∃ resp st',
    OrdersSearchService_List s r st = Some (resp, st') ∧
    Total resp = Z.of_nat (size A) ∧
    (∀ id, id ∈ IDs resp →
           id ∈ A ∧ ∃ key, key ∈ zset (redis st) indexKey ∧
                           id ∈ bucket (redis st) indexKey key) ∧
    (A = ∅ → IDs resp = []) ∧
    (∀ n, Limit r = Some n →
          Z.of_nat (length (IDs resp)) ≤ Z.max n (if bool_decide (n = 0) then 0 else 1)).
Proof.
  intros A indexKey. rewrite OrdersSearchService_List_run. eexists _, _.
  split; [done|]. split_and!.
  - done.
  - intros id. apply List_response_ids.
  - unfold List_response. cbv zeta. fold A indexKey. simpl.
    intros HA. rewrite (bool_decide_eq_true_2 (A = ∅)) by done.
    by rewrite orb_true_r.
  - unfold List_response. cbv zeta. fold A indexKey. simpl.
    intros n Hn. rewrite Hn.
    case_bool_decide as H0.
    + injection H0 as ->. simpl. lia.
    + rewrite (bool_decide_eq_false_2 (n = 0)) by congruence.
      simpl. destruct (bool_decide (A = ∅)); [simpl; lia|].
      rewrite deliver_List_proc. simpl. rewrite length_take. lia.
Qed.

(** ** The handler of GET /orders *)

Lemma ParseInt_Sprint (value : Z) :
  - 2 ^ 63 ≤ value < 2 ^ 63 → ParseInt (Sprint value) = Some value.
Proof.
  intros Hv. destruct value as [|p|p]; [done|..].
  - unfold Sprint. simpl Z.to_int. simpl NilZero.string_of_int.
    pose proof (ParseUint_Pos_to_uint p) as Hp.
    unfold ParseInt.
    destruct (NilZero.string_of_uint (Pos.to_uint p)) as [|c rest] eqn:Hs.
    { unfold NilZero.string_of_uint in Hs. by destruct (Pos.to_uint p). }
    assert (bool_decide (Z.of_N (Ascii.N_of_ascii c) = 43) = false ∧
            bool_decide (Z.of_N (Ascii.N_of_ascii c) = 45) = false) as [H43 H45].
    { unfold NilZero.string_of_uint in Hs.
      destruct (Pos.to_uint p); simpl in Hs; injection Hs as <- _; done. }
    cbv zeta. rewrite H43, H45. simpl orb. cbv iota.
    rewrite Hp by (unfold u64_max; lia). simpl.
    rewrite (proj2 (Z.leb_gt _ _)) by lia. done.
  - unfold Sprint. simpl Z.to_int. simpl NilZero.string_of_int.
    pose proof (ParseUint_Pos_to_uint p) as Hp.
    unfold ParseInt. cbv zeta.
    match goal with
    | |- context [bool_decide (Z.of_N (Ascii.N_of_ascii ?c) = 45)] =>
        change (bool_decide (Z.of_N (Ascii.N_of_ascii c) = 45)) with true
    end.
    rewrite orb_true_r. cbv iota.
    rewrite Hp by (unfold u64_max; lia). simpl.
    rewrite (proj2 (Z.ltb_ge _ _)) by lia. done.
Qed.

Lemma Sprint_not_empty (value : Z) : Sprint value ≠ "".
Proof.
  unfold Sprint. destruct value as [|p|p]; simpl; [done| |done].
  unfold NilZero.string_of_uint. by destruct (Pos.to_uint p).
Qed.

(** How [QueryOrders] reads the provider filter.  [provider_id_eq=null]
    asks for the rows without provider; any other non-empty value has to
    be a decimal int64, which becomes an equality filter, or the answer is
    400; [provider_id_not_null] counts only when [provider_id_eq] is empty,
    and then any non-empty value, whatever it says, asks for the rows with
    a provider.  The other parameters go to [List] as they are. *)
Theorem QueryOrders_request (status product limit : option Z)
    (providerIDEq providerIDNotNull : string) :
  let q := main.mkQuery status product providerIDEq providerIDNotNull limit in
  let r filter := Some (mkRequest status product filter limit) in
  (providerIDEq = "null" →
   main.request q = r (Some (mkNullableValueFilter FilterModeNull 0))) ∧
  (∀ value, - 2 ^ 63 ≤ value < 2 ^ 63 → providerIDEq = Sprint value →
     main.request q = r (Some (mkNullableValueFilter FilterModeEq value))) ∧
  (providerIDEq ≠ "null" → providerIDEq ≠ "" → ParseInt providerIDEq = None →
   main.request q = None) ∧
  (providerIDEq = "" → providerIDNotNull ≠ "" →
   main.request q = r (Some (mkNullableValueFilter FilterModeNotNull 0))) ∧
  (providerIDEq = "" → providerIDNotNull = "" → main.request q = r None).
Proof.
  intros q r. unfold main.request, q, r. simpl. split_and!.
  - intros ->. done.
  - intros value Hv ->.
    rewrite bool_decide_eq_false_2 by apply Sprint_not_null.
    rewrite bool_decide_eq_true_2 by apply Sprint_not_empty.
    by rewrite ParseInt_Sprint.
  - intros Hnull Hempty ->.
    by rewrite bool_decide_eq_false_2, bool_decide_eq_true_2.
  - intros -> Hnn. by rewrite (bool_decide_eq_true_2 (providerIDNotNull ≠ "")).
  - intros -> ->. done.
Qed.

Lemma orderMap_lookup (orders : list main.Order) (id : Z) (order : main.Order) :
  main.orderMap orders !! id = Some order → main.ID order = id ∧ order ∈ orders.
Proof.
  unfold main.orderMap.
  assert (∀ m : gmap Z main.Order,
    (∀ id o, m !! id = Some o → main.ID o = id ∧ o ∈ orders) →
    ∀ l, l ⊆ orders →
      foldl (λ m o, <[main.ID o := o]> m) m l !! id = Some order →
      main.ID order = id ∧ order ∈ orders) as Hgen.
  { intros m Hm l. revert m Hm. induction l as [|o l IH]; intros m Hm Hl; simpl.
    - apply Hm.
    - apply IH; [|intros x Hx; apply Hl; by right].
      intros id' o'. destruct (decide (main.ID o = id')) as [<-|Hne].
      + rewrite lookup_insert_eq. intros [= <-]. split; [done|]. apply Hl. left.
      + rewrite lookup_insert_ne by done. apply Hm. }
  apply (Hgen ∅); [|done]. intros ??. by rewrite lookup_empty.
Qed.

(** The orders of the answer are in the order of the ids [List] gave, one
    for each id and with that id, whatever rows the database returned;
    each is a row the database returned or, for an id without row, an order
    with the id only. *)
Theorem QueryOrders_orders (ids : list Z) (orders : list main.Order) :
  main.ID <$> main.orders_of ids orders = ids ∧
  ∀ order, order ∈ main.orders_of ids orders →
    order ∈ orders ∨
    (order = main.mkOrder (main.ID order) 0 0 None "" ∧
     ∀ o, o ∈ orders → main.ID o ≠ main.ID order).
Proof.
  split.
  - unfold main.orders_of. rewrite <-list_fmap_compose.
    rewrite <-(list_fmap_id ids) at 2. apply list_fmap_ext. intros i id _. simpl.
    destruct (main.orderMap orders !! id) as [o|] eqn:Ho; [|done].
    by apply orderMap_lookup in Ho as [? _].
  - intros order Hin. unfold main.orders_of in Hin.
    apply list_elem_of_fmap in Hin as (id & -> & _).
    destruct (main.orderMap orders !! id) as [o|] eqn:Ho.
    + left. by apply orderMap_lookup in Ho as [_ ?].
    + right. split; [done|]. simpl. intros o Hin Hid.
      assert (is_Some (main.orderMap orders !! id)) as [? Hsome]; [|congruence].
      clear Ho. unfold main.orderMap.
      assert (∀ m : gmap Z main.Order, ∀ l,
        (is_Some (m !! id) ∨ o ∈ l) →
        is_Some (foldl (λ m o, <[main.ID o := o]> m) m l !! id)) as Hgen.
      { intros m l. revert m. induction l as [|o' l IH]; intros m [Hm|Hl]; simpl.
        - done.
        - by apply elem_of_nil in Hl.
        - apply IH. left. destruct (decide (main.ID o' = id)) as [<-|].
          + by rewrite lookup_insert_eq.
          + by rewrite lookup_insert_ne.
        - apply IH. apply elem_of_cons in Hl as [<-|Hl]; [left|by right].
          rewrite Hid. by rewrite lookup_insert_eq. }
      apply Hgen. by right.
Qed.

(** ** The writer of the term index *)

Lemma TermIndexWriter_Add_run (w : TermIndexWriter) (fv : Term) (id : Z) (st : State) :
  let indexKey := GetIndexKey (TermIndexWriter_Index w) in
  let key := MakeValueKey fv in
  TermIndexWriter_Add w fv id st =
  Some (tt, mkState
              (mkRedis (<[(indexKey, key) := {[id]} ∪ posting (redis st) indexKey key]>
                          (bm_hash (redis st)))
                 (skbm_zs (redis st)) (skbm_hm (redis st)) (fv_hash (redis st)))
              (slog st)).
Proof.
  intros indexKey key. unfold TermIndexWriter_Add. fold indexKey key.
  rewrite (bind_run _ _ _ _ _ (RedisBmStore_Get_run _ _ st)).
  unfold RedisBmStore_Set, roaring.Add, roaring.GetCardinality.
  fold (posting (redis st) indexKey key).
  destruct (Z.of_nat (size ({[id]} ∪ posting (redis st) indexKey key)) =? 0) eqn:Hz; [|done].
  apply Z.eqb_eq in Hz.
  assert (size ({[id]} ∪ posting (redis st) indexKey key) = 0%nat) as Hs by lia.
  apply size_empty_inv in Hs. set_solver.
Qed.

Lemma TermIndexWriter_Remove_run (w : TermIndexWriter) (fv : Term) (id : Z) (st : State) :
  let indexKey := GetIndexKey (TermIndexWriter_Index w) in
  let key := MakeValueKey fv in
  let bm := posting (redis st) indexKey key ∖ {[id]} in
  TermIndexWriter_Remove w fv id st =
  Some (tt, mkState
              (mkRedis (if decide (bm = ∅) then delete (indexKey, key) (bm_hash (redis st))
                        else <[(indexKey, key) := bm]> (bm_hash (redis st)))
                 (skbm_zs (redis st)) (skbm_hm (redis st)) (fv_hash (redis st)))
              (slog st)).
Proof.
  intros indexKey key bm. unfold TermIndexWriter_Remove. fold indexKey key.
  rewrite (bind_run _ _ _ _ _ (RedisBmStore_Get_run _ _ st)).
  unfold RedisBmStore_Set, roaring.Remove, roaring.GetCardinality.
  fold (posting (redis st) indexKey key). fold bm.
  destruct (decide (bm = ∅)) as [He|Hne].
  - rewrite He, size_empty. done.
  - destruct (Z.of_nat (size bm) =? 0) eqn:Hz; [|done].
    apply Z.eqb_eq in Hz. assert (size bm = 0%nat) as Hs by lia.
    by apply size_empty_inv, leibniz_equiv in Hs.
Qed.

Lemma Sprint_inj (a b : Z) : Sprint a = Sprint b → a = b.
Proof.
  unfold Sprint. intros Heq. apply DecimalZ.to_int_inj.
  assert (∀ z, NilZero.int_of_string (NilZero.string_of_int (Z.to_int z)) =
               Some (Z.to_int z)) as Hisi.
  { intros z. apply NilZero.isi; destruct z as [|p|p]; simpl; try done;
      intros [= Hp]; by apply (DecimalPos.Unsigned.to_uint_nonnil p). }
  pose proof (Hisi a) as Ha. rewrite Heq, Hisi in Ha. congruence.
Qed.

Lemma PtrInt64_key_inj (p q : option Z) :
  MakeValueKey (PtrInt64 p) = MakeValueKey (PtrInt64 q) → p = q.
Proof.
  destruct p as [x|], q as [y|]; simpl; intros Heq.
  - f_equal. by apply Sprint_inj.
  - by apply Sprint_not_null in Heq.
  - symmetry in Heq. by apply Sprint_not_null in Heq.
  - done.
Qed.

(** Two values of a field share a posting only if they are the same value:
    the value keys of two int64 are equal only for equal numbers, those of
    two *int64 only for two nil pointers or two pointers to equal numbers. *)
Theorem MakeValueKey_inj (a b : Z) (p q : option Z) :
  (MakeValueKey (Int64 a) = MakeValueKey (Int64 b) → a = b) ∧
  (MakeValueKey (PtrInt64 p) = MakeValueKey (PtrInt64 q) → p = q).
Proof. split; [apply Sprint_inj|apply PtrInt64_key_inj]. Qed.

Lemma posting_Add (w : TermIndexWriter) (fv : Term) (id : Z) (st : State) :
  ∃ st', TermIndexWriter_Add w fv id st = Some (tt, st') ∧
         same_but_postings st st' ∧
         ∀ indexKey valueKey,
           posting (redis st') indexKey valueKey =
           if decide (indexKey = GetIndexKey (TermIndexWriter_Index w) ∧
                      valueKey = MakeValueKey fv)
           then {[id]} ∪ posting (redis st) indexKey valueKey
           else posting (redis st) indexKey valueKey.
Proof.
  eexists. split; [apply TermIndexWriter_Add_run|]. split; [done|].
  intros indexKey valueKey. unfold posting at 1. simpl.
  case_decide as Hk.
  - destruct Hk as [-> ->]. by rewrite lookup_insert_eq.
  - rewrite lookup_insert_ne; [done|]. intros [= <- <-]. by apply Hk.
Qed.

Lemma posting_Remove (w : TermIndexWriter) (fv : Term) (id : Z) (st : State) :
  ∃ st', TermIndexWriter_Remove w fv id st = Some (tt, st') ∧
         same_but_postings st st' ∧
         ∀ indexKey valueKey,
           posting (redis st') indexKey valueKey =
           if decide (indexKey = GetIndexKey (TermIndexWriter_Index w) ∧
                      valueKey = MakeValueKey fv)
           then posting (redis st) indexKey valueKey ∖ {[id]}
           else posting (redis st) indexKey valueKey.
Proof.
  eexists. split; [apply TermIndexWriter_Remove_run|]. split; [done|].
  intros indexKey valueKey. unfold posting at 1. simpl.
  destruct (decide (indexKey = GetIndexKey (TermIndexWriter_Index w) ∧
                    valueKey = MakeValueKey fv)) as [[-> ->]|Hk];
    destruct (decide (_ ∖ {[id]} = ∅)) as [He|He].
  - rewrite lookup_delete_eq. simpl. by rewrite He.
  - by rewrite lookup_insert_eq.
  - rewrite lookup_delete_ne; [done|]. intros [= <- <-]. by apply Hk.
  - rewrite lookup_insert_ne; [done|]. intros [= <- <-]. by apply Hk.
Qed.

(** [TermIndexWriter.Add] and [Remove] never fail.  [Add] puts the id into
    the posting of the value and [Remove] takes it out, whether or not it
    was there; every other posting, the sparse index and the forward map
    are as before. *)
Theorem TermIndexWriter_Add_Remove (w : TermIndexWriter) (fv : Term) (id : Z) (st : State) :
  let i := TermIndexWriter_Index w in
  ∃ st1 st2,
    TermIndexWriter_Add w fv id st = Some (tt, st1) ∧
    TermIndexWriter_Remove w fv id st = Some (tt, st2) ∧
    term_posting (redis st1) i fv = {[id]} ∪ term_posting (redis st) i fv ∧
    term_posting (redis st2) i fv = term_posting (redis st) i fv ∖ {[id]} ∧
    (∀ indexKey valueKey,
       (indexKey, valueKey) ≠ (GetIndexKey i, MakeValueKey fv) →
       bm_hash (redis st1) !! (indexKey, valueKey) = bm_hash (redis st) !! (indexKey, valueKey) ∧
       bm_hash (redis st2) !! (indexKey, valueKey) = bm_hash (redis st) !! (indexKey, valueKey)) ∧
    same_but_postings st st1 ∧ same_but_postings st st2.
Proof.
  intros i. eexists _, _.
  split; [apply TermIndexWriter_Add_run|]. split; [apply TermIndexWriter_Remove_run|].
  unfold term_posting, posting. cbn [redis bm_hash]. fold i.
  set (k := (GetIndexKey i, MakeValueKey fv)).
  set (P := parseBitmap (bm_hash (redis st) !! k)).
  split_and!; try done.
  - by rewrite lookup_insert_eq.
  - destruct (decide (P ∖ {[id]} = ∅)) as [He|He].
    + rewrite lookup_delete_eq. simpl. by rewrite He.
    + by rewrite lookup_insert_eq.
  - intros indexKey valueKey Hne. split.
    + by rewrite lookup_insert_ne.
    + destruct (decide (P ∖ {[id]} = ∅));
        [by rewrite lookup_delete_ne|by rewrite lookup_insert_ne].
Qed.

(** In a store without empty bitmaps, removing an id right after adding it
    to a posting it was not in gives back the store as it was. *)
Theorem TermIndexWriter_Add_then_Remove (w : TermIndexWriter) (fv : Term) (id : Z)
    (st : State) :
  compact (redis st) →
  id ∉ term_posting (redis st) (TermIndexWriter_Index w) fv →
  (TermIndexWriter_Add w fv id;; TermIndexWriter_Remove w fv id) st = Some (tt, st).
Proof.
  intros [Hc _] Hid. unfold term_posting in Hid.
  rewrite (bind_run _ _ _ _ _ (TermIndexWriter_Add_run w fv id st)).
  rewrite TermIndexWriter_Remove_run. cbv zeta. unfold posting. simpl.
  rewrite lookup_insert_eq. simpl.
  set (k := (GetIndexKey (TermIndexWriter_Index w), MakeValueKey fv)) in *.
  set (P := parseBitmap (bm_hash (redis st) !! k)) in *.
  assert (({[id]} ∪ P) ∖ {[id]} = P) as ->.
  { apply set_eq. intros x.
    rewrite elem_of_difference, elem_of_union, elem_of_singleton.
    split; [by intros [[?|?] ?]|]. intros Hx. split; [by right|by intros ->]. }
  destruct st as [[bm zs hm fvs] log]. simpl in *. do 4 f_equal.
  case_decide as He.
  - rewrite delete_insert_eq. apply delete_id.
    destruct (bm !! k) as [b|] eqn:Hb; [|done].
    exfalso. apply (Hc k b Hb). subst P. rewrite ?Hb in He. done.
  - rewrite insert_insert_eq. apply insert_id.
    destruct (bm !! k) as [b|] eqn:Hb; [done|].
    subst P. rewrite ?Hb in He. done.
Qed.

Lemma posting_Move (w : TermIndexWriter) (before after : Term) (id : Z)
    (st : State) :
  let i := TermIndexWriter_Index w in
  ∃ st',
    TermIndexWriter_Move w before after id st = Some (tt, st') ∧
    same_but_postings st st' ∧
    (Term_eqb before after = true → st' = st) ∧
    (Term_eqb before after = false →
     ∀ indexKey valueKey,
       posting (redis st') indexKey valueKey =
       if decide (indexKey = GetIndexKey i ∧ valueKey = MakeValueKey after)
       then {[id]} ∪ posting (redis st) indexKey valueKey
       else if decide (indexKey = GetIndexKey i ∧ valueKey = MakeValueKey before)
       then posting (redis st) indexKey valueKey ∖ {[id]}
       else posting (redis st) indexKey valueKey).
Proof.
  intros i. unfold TermIndexWriter_Move.
  destruct (Term_eqb before after) eqn:Heq.
  - exists st. by split_and!.
  - destruct (posting_Remove w before id st) as (st1 & Hrun1 & Hsame1 & Hp1).
    destruct (posting_Add w after id st1) as (st2 & Hrun2 & Hsame2 & Hp2).
    exists st2. rewrite (bind_run _ _ _ _ _ Hrun1). split; [done|].
    split; [|split; [done|]].
    { destruct Hsame1 as (?&?&?&?), Hsame2 as (?&?&?&?).
      unfold same_but_postings. split_and!; congruence. }
    intros _ indexKey valueKey. rewrite Hp2, Hp1. fold i.
    repeat case_decide; try done.
    apply set_eq. intros x.
    rewrite !elem_of_union, elem_of_difference, elem_of_singleton.
    destruct (decide (x = id)); intuition.
Qed.

(** [TermIndexWriter.Move] on two values that [==] compares by what they
    hold: two int64, or two *int64 of which one at least is nil.  It does
    not fail and touches nothing but postings.  It does nothing when
    [before == after]; otherwise the id is in the posting of [after]
    afterwards and, unless the two values have the same value key, no
    longer in the posting of [before].  (Two non-nil pointers are equal
    when they are one pointer, and [Move] then does nothing; the values of
    the model do not tell, and the statement leaves that case out.) *)
Theorem TermIndexWriter_Move_spec (w : TermIndexWriter) (before after : Term) (id : Z)
    (st : State) :
  let i := TermIndexWriter_Index w in
  compared_by_value before after →
  ∃ st',
    TermIndexWriter_Move w before after id st = Some (tt, st') ∧
    same_but_postings st st' ∧
    (before = after → st' = st) ∧
    (before ≠ after →
     term_posting (redis st') i after = {[id]} ∪ term_posting (redis st) i after ∧
     (MakeValueKey before ≠ MakeValueKey after →
      term_posting (redis st') i before = term_posting (redis st) i before ∖ {[id]})).
Proof.
  intros i Hcmp.
  assert (Term_eqb before after = true ↔ before = after) as Heqb.
  { destruct before as [a|[a|]], after as [b|[b|]]; simpl in *; try done.
    rewrite bool_decide_eq_true. split; [by intros ->|by intros [= ->]]. }
  destruct (posting_Move w before after id st) as (st' & Hrun & Hsame & Heq & Hne).
  exists st'. split_and!; try done.
  { intros Hb. by apply Heq, Heqb. }
  intros Hb.
  assert (Term_eqb before after = false) as Hfalse.
  { destruct (Term_eqb before after); [|done]. by destruct Hb, (proj1 Heqb). }
  specialize (Hne Hfalse). fold i in Hne.
  assert (∀ r v, term_posting r i v = posting r (GetIndexKey i) (MakeValueKey v)) as Htp
    by done.
  rewrite !Htp. split.
  - rewrite Hne. by rewrite decide_True.
  - intros Hkeys. rewrite Hne.
    rewrite decide_False by (by intros [_ ?]). by rewrite decide_True.
Qed.

Lemma TermIndexWriter_Move_spec_witness :
  ∃ st',
    TermIndexWriter_Move (ProviderIdIndexWriter Start) (PtrInt64 None) (PtrInt64 (Some 5)) 7
      one_row = Some (tt, st') ∧
    term_posting (redis st') (TermIndexWriter_Index (ProviderIdIndexWriter Start))
      (PtrInt64 (Some 5)) =
    {[7]} ∪ term_posting (redis one_row) (TermIndexWriter_Index (ProviderIdIndexWriter Start))
              (PtrInt64 (Some 5)).
Proof.
  destruct (TermIndexWriter_Move_spec (ProviderIdIndexWriter Start) (PtrInt64 None)
              (PtrInt64 (Some 5)) 7 one_row I) as (st' & Hrun & _ & _ & Hne).
  exists st'. split; [exact Hrun|]. apply Hne. discriminate.
Defined.

(** ** The store of the sparse index *)

Lemma lookup_hdel {V : Type} (indexKey indexKey' : string) (fields : list Z) (key : Z)
    (m : gmap (string * Z) V) :
  hdel (λ k, (indexKey, k)) fields m !! (indexKey', key) =
  if decide (indexKey' = indexKey ∧ key ∈ fields) then None else m !! (indexKey', key).
Proof.
  unfold hdel. revert m. induction fields as [|f fields IH]; intros m; simpl.
  - rewrite decide_False; [done|]. intros [_ Hin]. by apply elem_of_nil in Hin.
  - rewrite IH. destruct (decide (indexKey' = indexKey ∧ key ∈ fields)) as [[-> Hin]|Hnin].
    + rewrite decide_True; [done|]. split; [done|by right].
    + destruct (decide ((indexKey, f) = (indexKey', key))) as [[= <- <-]|Hne].
      * rewrite lookup_delete_eq, decide_True; [done|]. split; [done|by left].
      * rewrite lookup_delete_ne by done.
        rewrite decide_False; [done|]. intros [-> Hin].
        apply elem_of_cons in Hin as [->|Hin]; [done|]. by apply Hnin.
Qed.

Lemma lookup_hmset_is_Some {V : Type} (indexKey indexKey' : string)
    (pairs : list (Z * V)) (key : Z) (m : gmap (string * Z) V) :
  is_Some (hmset (λ k, (indexKey, k)) pairs m !! (indexKey', key)) ↔
  (indexKey' = indexKey ∧ key ∈ pairs.*1) ∨ is_Some (m !! (indexKey', key)).
Proof.
  unfold hmset. revert m. induction pairs as [|[k v] pairs IH]; intros m; simpl.
  - split; [by right|]. intros [[_ Hin]|?]; [by apply elem_of_nil in Hin|done].
  - rewrite IH. rewrite elem_of_cons.
    destruct (decide ((indexKey, k) = (indexKey', key))) as [[= <- <-]|Hne].
    + rewrite lookup_insert_eq. split; [intros _; left; auto|intros _; right; done].
    + rewrite lookup_insert_ne by done. split.
      * intros [[? ?]|?]; [left|right]; auto.
      * intros [[-> [->|?]]|?]; [done|left|right]; auto.
Qed.

Lemma elem_of_zset_zrem (rd : Redis) (indexKey indexKey' : string) (members : list Z)
    (key : Z) (bm : gmap (string * string) (gset Z)) (hm : gmap (string * Z) (gset Z))
    (fvs : gmap (string * Z) Z) :
  key ∈ zset (mkRedis bm (zrem indexKey members (skbm_zs rd)) hm fvs) indexKey' ↔
  key ∈ zset rd indexKey' ∧ ¬ (indexKey' = indexKey ∧ key ∈ members).
Proof.
  unfold zset. cbn [skbm_zs]. rewrite lookup_zrem. case_decide as Hk.
  - subst. rewrite elem_of_difference, elem_of_list_to_set. tauto.
  - split; [|by intros [? _]]. intros ?. split; [done|]. intros [? _]. congruence.
Qed.

Lemma elem_of_zset_zadd (rd : Redis) (indexKey indexKey' : string) (members : list Z)
    (key : Z) (bm : gmap (string * string) (gset Z)) (hm : gmap (string * Z) (gset Z))
    (fvs : gmap (string * Z) Z) :
  key ∈ zset (mkRedis bm (zadd indexKey members (skbm_zs rd)) hm fvs) indexKey' ↔
  (indexKey' = indexKey ∧ key ∈ members) ∨ key ∈ zset rd indexKey'.
Proof.
  unfold zset. cbn [skbm_zs]. rewrite lookup_zadd. case_decide as Hk.
  - subst. rewrite elem_of_union, elem_of_list_to_set. tauto.
  - split; [by right|]. intros [[? _]|?]; [congruence|done].
Qed.

Lemma in_sync_mset_redis (indexKey : string) (skbms : list SortKeyBitmap) (rd : Redis) :
  in_sync rd → in_sync (mset_redis indexKey skbms rd).
Proof.
  intros Hsync. unfold mset_redis.
  set (delKeys := SortKey <$> filter (λ skbm, is_nil_or_empty skbm = true) skbms).
  set (setSkbms := filter (λ skbm, is_nil_or_empty skbm = false) skbms).
  set (pairs := omap _ setSkbms).
  assert (pairs.*1 = SortKey <$> setSkbms) as Hpairs.
  { assert (Forall (λ e, is_nil_or_empty e = false) setSkbms) as Hall.
    { apply Forall_forall. intros e He. by apply list_elem_of_filter in He as [? _]. }
    subst pairs. clearbody setSkbms.
    induction Hall as [|e l He Hl IH]; [done|].
    apply is_nil_or_empty_false in He as (b & Hb & _).
    cbn. rewrite Hb. cbn. f_equal. exact IH. }
  set (rd1 := match delKeys with [] => rd | _ => _ end).
  assert (in_sync rd1) as Hsync1.
  { subst rd1. destruct delKeys as [|k ks] eqn:Hdel; [done|]. rewrite <-Hdel.
    intros indexKey' key. rewrite (elem_of_zset_zrem rd). cbn [skbm_hm].
    rewrite lookup_hdel. rewrite (Hsync indexKey' key).
    case_decide as Hin; [|tauto].
    split; [intros [_ Hn]; by destruct Hn|by intros [? ?]]. }
  clearbody rd1 pairs. destruct setSkbms as [|s ss]; [done|].
  intros indexKey' key. rewrite (elem_of_zset_zadd rd1). cbn [skbm_hm].
  rewrite lookup_hmset_is_Some, Hpairs, (Hsync1 indexKey' key). done.
Qed.

Section Preserves.
Context (P : Redis → Prop).

Lemma preserves_ret {A : Type} (a : A) : preserves P (mret a).
Proof. by intros st. Qed.

Lemma preserves_panic {A : Type} : preserves P (@panic A).
Proof. by intros st. Qed.

Lemma preserves_gets {A : Type} (f : Redis → A) : preserves P (gets f).
Proof. by intros st. Qed.

Lemma preserves_slog (lv : Level) (msg : string) : preserves P (slog_write lv msg).
Proof. by intros st. Qed.

Lemma preserves_deref {A : Type} (p : option A) : preserves P (deref p).
Proof. destruct p; [apply preserves_ret|apply preserves_panic]. Qed.

Lemma preserves_bind {A B : Type} (m : M A) (f : A → M B) :
  preserves P m → (∀ a, preserves P (f a)) → preserves P (m ≫= f).
Proof.
  intros Hm Hf st Hst. specialize (Hm st Hst).
  unfold mbind, M_bind. destruct (m st) as [[a st']|]; [|done].
  by apply Hf.
Qed.

Lemma preserves_Get (indexKey valueKey : string) :
  preserves P (RedisBmStore_Get indexKey valueKey).
Proof. by intros st. Qed.

Lemma preserves_Scan (indexKey : string) (start stop : Z) (reverse_ : bool) (limit : Z) :
  preserves P (RedisSortKeyBitmapStore_Scan indexKey start stop reverse_ limit).
Proof. intros st Hst. by rewrite RedisSortKeyBitmapStore_Scan_run. Qed.

Lemma preserves_MGet (indexKey : string) (ids : list Z) :
  preserves P (RedisFvStore_MGet indexKey ids).
Proof. intros st. by destruct ids. Qed.

(** A property that the four writes of the stores keep is kept by every
    operation of the writers and by the consumer. *)
Context (HSet : ∀ indexKey valueKey value,
           preserves P (RedisBmStore_Set indexKey valueKey value)).
Context (HMSet : ∀ indexKey skbms,
           preserves P (RedisSortKeyBitmapStore_MSet indexKey skbms)).
Context (HFvSet : ∀ indexKey id value, preserves P (RedisFvStore_Set indexKey id value)).
Context (HFvRemove : ∀ indexKey id, preserves P (RedisFvStore_Remove indexKey id)).

Ltac preserves_steps :=
  repeat first
    [ apply HSet | apply HMSet | apply HFvSet | apply HFvRemove
    | apply preserves_ret | apply preserves_panic | apply preserves_gets
    | apply preserves_slog | apply preserves_deref | apply preserves_Get
    | apply preserves_Scan | apply preserves_MGet
    | apply preserves_bind; [|intros ?]
    | match goal with
      | |- preserves _ (match ?x with _ => _ end) => destruct x
      | |- preserves _ (if ?x then _ else _) => destruct x
      end ].

Lemma preserves_run_write `{!SliceSorter} (op : WriteOp) : preserves P (run_write op).
Proof.
  destruct op; simpl.
  - preserves_steps.
  - preserves_steps.
  - unfold TermIndexWriter_Add. preserves_steps.
  - unfold TermIndexWriter_Remove. preserves_steps.
  - unfold TermIndexWriter_Move, TermIndexWriter_Remove, TermIndexWriter_Add.
    preserves_steps.
  - unfold SparseU64IndexWriter_Add, getFloorSortedBm, QuerySortedIds, add_to_first.
    preserves_steps.
  - unfold SparseU64IndexWriter_Remove, getFloorSortedBm. preserves_steps.
  - unfold SparseU64IndexWriter_Move, SparseU64IndexWriter_Remove,
      SparseU64IndexWriter_Add, getFloorSortedBm, QuerySortedIds, add_to_first.
    preserves_steps.
Qed.

Lemma preserves_ConsumeClaim `{!SliceSorter} (consumer : saramaConsumer)
    (messages : list DataChangedMessage) :
  preserves P (ConsumeClaim consumer messages).
Proof.
  induction messages as [|m messages IH]; simpl; [apply preserves_slog|].
  apply preserves_bind; [apply preserves_slog|intros _].
  apply preserves_bind; [|intros _; exact IH].
  unfold ConsumeMessage, onInsert, onUpdate, onDelete.
  repeat first
    [ apply (preserves_run_write (TermAdd _ _ _))
    | apply (preserves_run_write (TermRemove _ _ _))
    | apply (preserves_run_write (TermMove _ _ _ _))
    | apply (preserves_run_write (SparseAdd _ _ _))
    | apply (preserves_run_write (SparseRemove _ _ _))
    | apply (preserves_run_write (SparseMove _ _ _ _))
    | apply preserves_deref | apply preserves_panic
    | apply preserves_bind; [|intros ?]
    | match goal with
      | |- preserves _ (if ?x then _ else _) => destruct x
      end ].
Qed.

End Preserves.

Lemma in_sync_MSet (indexKey : string) (skbms : list SortKeyBitmap) :
  preserves in_sync (RedisSortKeyBitmapStore_MSet indexKey skbms).
Proof.
  intros st Hst. rewrite RedisSortKeyBitmapStore_MSet_run. simpl.
  by apply in_sync_mset_redis.
Qed.

Lemma in_sync_Set (indexKey valueKey : string) (value : option (gset Z)) :
  preserves in_sync (RedisBmStore_Set indexKey valueKey value).
Proof.
  intros st Hst. unfold RedisBmStore_Set.
  destruct value as [bm|]; [destruct (_ =? _)|]; exact Hst.
Qed.

Lemma well_kept_empty : well_kept empty_redis.
Proof.
  split; [split; apply map_Forall_empty|].
  intros indexKey key. unfold zset. simpl. rewrite !lookup_empty. simpl.
  split; [by intros ?%elem_of_empty|by intros [? ?]].
Qed.

(** Every operation of the two writers and every run of the consumer keeps
    the hash and the sorted set of a sparse index in sync, a sort key
    being a member of the sorted set exactly if it has a bitmap in the hash,
    and keeps the bitmaps non-empty. *)
Theorem writes_keep_the_store_well_kept `{!SliceSorter} (st : State) :
  well_kept (redis st) →
  (∀ op, match run_write op st with
         | Some (_, st') => well_kept (redis st')
         | None => True
         end) ∧
  (∀ consumer messages,
     match ConsumeClaim consumer messages st with
     | Some (_, st') => well_kept (redis st')
     | None => True
     end).
Proof.
  intros [Hc Hs]. split.
  - intros op.
    pose proof (preserves_run_write compact preserves_compact_Set preserves_compact_MSet
                  preserves_compact_FvSet preserves_compact_FvRemove op st Hc) as H1.
    pose proof (preserves_run_write in_sync in_sync_Set in_sync_MSet
                  (λ _ _ _ st H, H) (λ _ _ st H, H) op st Hs) as H2.
    by destruct (run_write op st) as [[[] st']|].
  - intros consumer messages.
    pose proof (preserves_ConsumeClaim compact preserves_compact_Set preserves_compact_MSet
                  preserves_compact_FvSet preserves_compact_FvRemove consumer messages
                  st Hc) as H1.
    pose proof (preserves_ConsumeClaim in_sync in_sync_Set in_sync_MSet
                  (λ _ _ _ st H, H) (λ _ _ st H, H) consumer messages st Hs) as H2.
    by destruct (ConsumeClaim consumer messages st) as [[[] st']|].
Qed.

(** [RedisSortKeyBitmapStore.Scan] never fails.  It returns the buckets
    whose sort keys lie between the two bounds, both included, smallest
    key first or, reversed, greatest key first, each with the bitmap stored
    for it; with a limit above zero it returns the first [limit] of them,
    with any other limit all of them.  In a store that is compact and in
    sync none of the bitmaps is empty. *)
Theorem RedisSortKeyBitmapStore_Scan_spec (indexKey : string) (start stop : Z)
    (reverse_ : bool) (limit : Z) (st : State) :
  let rd := redis st in
  let lo := if reverse_ then stop else start in
  let hi := if reverse_ then start else stop in
  let in_range := filter (λ k, lo ≤ k ≤ hi) (zset_members rd indexKey) in
  let all := if reverse_ then reverse in_range else in_range in
  let keys := if 0 <? limit then take (Z.to_nat limit) all else all in
  RedisSortKeyBitmapStore_Scan indexKey start stop reverse_ limit st =
    Some ((λ key, mkSortKeyBitmap key (Some (bucket rd indexKey key))) <$> keys, st) ∧
  StronglySorted (scan_lt reverse_) all ∧
  (∀ k, k ∈ all ↔ k ∈ zset rd indexKey ∧ lo ≤ k ≤ hi) ∧
  keys `prefix_of` all ∧
  (0 < limit → Z.of_nat (length keys) ≤ limit) ∧
  (well_kept rd → ∀ k, k ∈ keys → bucket rd indexKey k ≠ ∅).
Proof.
  intros rd lo hi in_range all keys.
  assert (∀ k, k ∈ all ↔ k ∈ zset rd indexKey ∧ lo ≤ k ≤ hi) as Hall.
  { intros k. subst all in_range.
    destruct reverse_; rewrite ?elem_of_reverse, list_elem_of_filter,
      elem_of_zset_members; tauto. }
  assert (keys `prefix_of` all) as Hprefix.
  { subst keys. destruct (0 <? limit); [apply prefix_take|reflexivity]. }
  split_and!.
  - rewrite RedisSortKeyBitmapStore_Scan_run. subst keys all in_range lo hi.
    unfold zrange. by destruct reverse_.
  - subst all in_range. destruct reverse_; simpl.
    + apply StronglySorted_reverse, StronglySorted_filter, zset_members_sorted.
    + apply StronglySorted_filter, zset_members_sorted.
  - exact Hall.
  - exact Hprefix.
  - intros Hlimit. subst keys. rewrite (proj2 (Z.ltb_lt 0 limit)) by done.
    rewrite length_take. lia.
  - intros [[_ Hc] Hs] k Hk.
    assert (k ∈ zset rd indexKey) as Hz.
    { apply (elem_of_prefix _ _ _ Hk) in Hprefix. by apply Hall in Hprefix as [? _]. }
    apply Hs in Hz as [bm Hbm]. unfold bucket. rewrite Hbm. simpl.
    by apply (Hc _ _ Hbm).
Qed.

(** [getFloorSortedBm] never fails.  It returns nil when no sort key of
    the index lies between zero and [fv]; otherwise the bucket with the
    greatest such sort key, with its stored bitmap. *)
Theorem getFloorSortedBm_spec (fieldKey : string) (fv : Z) (st : State) :
  let rd := redis st in
  ∃ floorSortedBm,
    getFloorSortedBm fieldKey fv st = Some (floorSortedBm, st) ∧
    match floorSortedBm with
    | None => ∀ k, k ∈ zset rd fieldKey → ¬ (0 ≤ k ≤ fv)
    | Some floor =>
        SortKey floor ∈ zset rd fieldKey ∧ 0 ≤ SortKey floor ≤ fv ∧
        (∀ k, k ∈ zset rd fieldKey → 0 ≤ k ≤ fv → k ≤ SortKey floor) ∧
        Bitmap floor = Some (bucket rd fieldKey (SortKey floor))
    end.
Proof.
  intros rd. rewrite getFloorSortedBm_run. subst rd.
  destruct (floor_key (redis st) fieldKey fv) as [k|] eqn:Hfloor.
  - apply floor_key_Some in Hfloor as (Hin & Hrange & Hmax).
    eexists. split; [done|]. simpl. split_and!; [done|lia|lia|exact Hmax|done].
  - eexists. split; [done|]. simpl. by apply floor_key_None.
Qed.

(** ** The writer of the sparse index *)

Lemma mret_run {A : Type} (a : A) (st : State) : (mret a : M A) st = Some (a, st).
Proof. done. Qed.

Lemma add_to_first_run (k : Z) (bm : gset Z) (rest : list SortKeyBitmap) (id : Z)
    (st : State) :
  add_to_first (mkSortKeyBitmap k (Some bm) :: rest) id st =
  Some (mkSortKeyBitmap k (Some ({[id]} ∪ bm)) :: rest, st).
Proof. done. Qed.

Lemma RedisFvStore_Set_run (indexKey : string) (id value : Z) (st : State) :
  RedisFvStore_Set indexKey id value st =
  Some (tt, mkState (set_fv indexKey id value (redis st)) (slog st)).
Proof. done. Qed.

Lemma RedisFvStore_Remove_run (indexKey : string) (id : Z) (st : State) :
  RedisFvStore_Remove indexKey id st =
  Some (tt, mkState (remove_fv indexKey id (redis st)) (slog st)).
Proof. done. Qed.

Lemma Add_tail_run (fieldKey : string) (k : Z) (bm : gset Z) (rest : list SortKeyBitmap)
    (fv id : Z) (st : State) :
  (updateSortedBms ← add_to_first (mkSortKeyBitmap k (Some bm) :: rest) id;
   RedisFvStore_Set fieldKey id fv;;
   RedisSortKeyBitmapStore_MSet fieldKey updateSortedBms) st =
  Some (tt, mkState (mset_redis fieldKey (mkSortKeyBitmap k (Some ({[id]} ∪ bm)) :: rest)
                       (set_fv fieldKey id fv (redis st))) (slog st)).
Proof.
  rewrite (bind_run _ _ _ _ _ (add_to_first_run _ _ _ _ st)).
  rewrite (bind_run _ _ _ _ _ (RedisFvStore_Set_run _ _ _ st)).
  by rewrite RedisSortKeyBitmapStore_MSet_run.
Qed.

Lemma SparseAdd_run `{!SliceSorter} (w : SparseU64IndexWriter) (fv id : Z) (st : State) :
  let fieldKey := MakeIndexKey (SparseU64IndexWriter_Index w) in
  let rd := redis st in
  0 < uint64 (SplitThreshold w) ∨ well_kept rd →
  ∃ skbms,
    SparseU64IndexWriter_Add w fv id st =
      Some (tt, mkState (mset_redis fieldKey skbms (set_fv fieldKey id fv rd)) (slog st)) ∧
    match floor_key rd fieldKey fv with
    | None => skbms = [mkSortKeyBitmap fv (Some {[id]})]
    | Some k =>
        roaring.GetCardinality (bucket rd fieldKey k) < uint64 (SplitThreshold w) →
        skbms = [mkSortKeyBitmap k (Some ({[id]} ∪ bucket rd fieldKey k))]
    end.
Proof.
  intros fieldKey rd Hok. unfold SparseU64IndexWriter_Add. fold fieldKey.
  rewrite (bind_run _ _ _ _ _ (getFloorSortedBm_run _ _ st)). fold rd.
  destruct (floor_key rd fieldKey fv) as [k|] eqn:Hfloor.
  - cbn [fmap option_fmap option_map Bitmap deref].
    destruct (roaring.GetCardinality (bucket rd fieldKey k) <? uint64 (SplitThreshold w))
      eqn:Hcard.
    + eexists. split; [|intros _; reflexivity].
      rewrite (bind_run _ _ st st [mkSortKeyBitmap k (Some (bucket rd fieldKey k))]);
        [|by rewrite (bind_run _ _ _ _ _ (mret_run _ st)), Hcard].
      apply Add_tail_run.
    + pose proof Hcard as Hcardb. apply Z.ltb_ge in Hcard.
      assert (bucket rd fieldKey k ≠ ∅) as HB.
      { destruct Hok as [Hthr|[[_ Hc] Hs]].
        - intros He. rewrite He in Hcard. unfold roaring.GetCardinality in Hcard.
          rewrite size_empty in Hcard. lia.
        - apply floor_key_Some in Hfloor as [Hin _].
          apply Hs in Hin as [bm Hbm]. unfold bucket. rewrite Hbm. simpl.
          by apply (Hc _ _ Hbm). }
      set (sortedIds := sort_Slice SortedId_less
             ((λ id, mkSortedId id (forward_value rd fieldKey id)) <$>
                roaring.Iterator (bucket rd fieldKey k))).
      assert (length sortedIds = size (bucket rd fieldKey k)) as Hlen.
      { subst sortedIds. rewrite sort_Slice_Permutation, length_fmap.
        unfold roaring.Iterator. by rewrite merge_sort_Permutation. }
      assert (size (bucket rd fieldKey k) ≠ 0%nat) as Hsize.
      { intros Hz. by apply HB, leibniz_equiv, size_empty_iff. }
      destruct (lookup_lt_is_Some_2 sortedIds 0%nat ltac:(lia)) as [first Hfirst].
      destruct (lookup_lt_is_Some_2 sortedIds (length sortedIds / 2)%nat) as [second Hsecond].
      { apply Nat.div_lt; lia. }
      set (bm1 := add_all (roaring.Clear (bucket rd fieldKey k))
                    (take (length sortedIds / 2) sortedIds)).
      set (bm2 := add_all roaring.New (drop (length sortedIds / 2) sortedIds)).
      set (upd := [mkSortKeyBitmap (SortedId_Score first) (Some bm1);
                   mkSortKeyBitmap (SortedId_Score second) (Some bm2)]).
      exists (if bool_decide (SortedId_Score second ≤ fv)
              then [mkSortKeyBitmap (SortedId_Score second) (Some ({[id]} ∪ bm2));
                    mkSortKeyBitmap (SortedId_Score first) (Some bm1)]
              else [mkSortKeyBitmap (SortedId_Score first) (Some ({[id]} ∪ bm1));
                    mkSortKeyBitmap (SortedId_Score second) (Some bm2)]).
      split; [|intros Hlt; lia].
      rewrite (bind_run _ _ st st
                 (if bool_decide (SortedId_Score second ≤ fv) then reverse upd else upd)).
      * destruct (bool_decide (SortedId_Score second ≤ fv)); apply Add_tail_run.
      * rewrite (bind_run _ _ _ _ _ (mret_run _ st)), Hcardb.
        rewrite (bind_run _ _ _ _ _ (QuerySortedIds_run _ _ st HB)). fold rd sortedIds.
        rewrite Hfirst, Hsecond. cbn [deref].
        rewrite !(bind_run _ _ _ _ _ (mret_run _ st)).
        by destruct (bool_decide (SortedId_Score second ≤ fv)).
  - eexists. split; [|rewrite <-(right_id_L ∅ (∪) {[id]}); reflexivity].
    cbn [fmap option_fmap option_map].
    rewrite (bind_run _ _ _ _ _ (mret_run _ st)). apply Add_tail_run.
Qed.

Lemma SparseRemove_run (w : SparseU64IndexWriter) (fv id : Z) (st : State) :
  let fieldKey := MakeIndexKey (SparseU64IndexWriter_Index w) in
  let rd := redis st in
  SparseU64IndexWriter_Remove w fv id st =
  Some (tt, match floor_key rd fieldKey fv with
            | Some k =>
                mkState (remove_fv fieldKey id
                           (mset_redis fieldKey
                              [mkSortKeyBitmap k (Some (bucket rd fieldKey k ∖ {[id]}))] rd))
                  (slog st)
            | None =>
                mkState (remove_fv fieldKey id rd)
                  (slog st ++ [(LevelWarn, "cannot find floor sorted bitmap")])
            end).
Proof.
  intros fieldKey rd. unfold SparseU64IndexWriter_Remove. fold fieldKey.
  unfold mbind, M_bind. rewrite getFloorSortedBm_run. fold rd.
  destruct (floor_key rd fieldKey fv) as [k|]; [|done].
  cbn [fmap option_fmap option_map Bitmap SortKey deref mret M_ret].
  by rewrite RedisSortKeyBitmapStore_MSet_run.
Qed.

Lemma mset_redis_frame (indexKey : string) (skbms : list SortKeyBitmap) (rd : Redis) :
  bm_hash (mset_redis indexKey skbms rd) = bm_hash rd ∧
  fv_hash (mset_redis indexKey skbms rd) = fv_hash rd.
Proof.
  unfold mset_redis.
  destruct (SortKey <$> filter _ skbms), (filter (λ skbm, is_nil_or_empty skbm = false) skbms);
    done.
Qed.

(** What [MSet] of one bucket leaves in the store. *)
Lemma mset_redis_one (indexKey : string) (k : Z) (bm : gset Z) (rd : Redis) :
  let rd' := mset_redis indexKey [mkSortKeyBitmap k (Some bm)] rd in
  (∀ indexKey' k',
     bucket rd' indexKey' k' =
     if decide (indexKey' = indexKey ∧ k' = k) then bm else bucket rd indexKey' k') ∧
  (∀ indexKey' k',
     k' ∈ zset rd' indexKey' ↔
     if decide (indexKey' = indexKey ∧ k' = k) then bm ≠ ∅ else k' ∈ zset rd indexKey').
Proof.
  intros rd'. subst rd'. unfold mset_redis.
  destruct (decide (bm = ∅)) as [->|Hne].
  - assert (is_nil_or_empty (mkSortKeyBitmap k (Some ∅)) = true) as Hempty.
    { unfold is_nil_or_empty. simpl. by rewrite GetCardinality_0, bool_decide_eq_true_2. }
    rewrite (filter_cons_True (λ skbm, is_nil_or_empty skbm = true)) by done.
    rewrite (filter_cons_False (λ skbm, is_nil_or_empty skbm = false))
      by (by rewrite Hempty).
    rewrite !filter_nil. simpl. split.
    + intros indexKey' k'. unfold bucket. cbn [skbm_hm].
      rewrite (lookup_hdel indexKey indexKey' [k] k').
      destruct (decide (indexKey' = indexKey ∧ k' = k)) as [[-> ->]|Hk].
      * rewrite decide_True; [done|]. split; [done|apply list_elem_of_here].
      * rewrite decide_False; [done|]. intros [-> Hin].
        apply list_elem_of_singleton in Hin. by apply Hk.
    + intros indexKey' k'. rewrite (elem_of_zset_zrem rd).
      destruct (decide (indexKey' = indexKey ∧ k' = k)) as [[-> ->]|Hk].
      * split; [|done]. intros [_ Hn]. destruct Hn. split; [done|apply list_elem_of_here].
      * split; [by intros [? _]|]. intros Hin. split; [done|]. intros [-> Hin'].
        apply list_elem_of_singleton in Hin'. by apply Hk.
  - assert (is_nil_or_empty (mkSortKeyBitmap k (Some bm)) = false) as Hfull.
    { apply is_nil_or_empty_false. by exists bm. }
    rewrite (filter_cons_False (λ skbm, is_nil_or_empty skbm = true))
      by (by rewrite Hfull).
    rewrite (filter_cons_True (λ skbm, is_nil_or_empty skbm = false)) by done.
    rewrite !filter_nil. simpl. split.
    + intros indexKey' k'. unfold bucket, hmset. cbn [skbm_hm foldl fst snd].
      destruct (decide (indexKey' = indexKey ∧ k' = k)) as [[-> ->]|Hk].
      * by rewrite lookup_insert_eq.
      * rewrite lookup_insert_ne; [done|]. intros [= <- <-]. by apply Hk.
    + intros indexKey' k'. rewrite (elem_of_zset_zadd rd).
      destruct (decide (indexKey' = indexKey ∧ k' = k)) as [[-> ->]|Hk].
      * split; [done|]. intros _. left. split; [done|apply list_elem_of_here].
      * split; [|by right]. intros [[-> Hin]|?]; [|done].
        apply list_elem_of_singleton in Hin. by destruct Hk.
Qed.

Lemma SparseWriter_runs `{!SliceSorter} (w : SparseU64IndexWriter)
    (fv id : Z) (st : State) :
  let fieldKey := MakeIndexKey (SparseU64IndexWriter_Index w) in
  0 < uint64 (SplitThreshold w) ∨ well_kept (redis st) →
  ∃ st1 st2,
    SparseU64IndexWriter_Add w fv id st = Some (tt, st1) ∧
    SparseU64IndexWriter_Remove w fv id st = Some (tt, st2) ∧
    bm_hash (redis st1) = bm_hash (redis st) ∧
    bm_hash (redis st2) = bm_hash (redis st) ∧
    fv_hash (redis st1) = <[(fieldKey, id) := fv]> (fv_hash (redis st)) ∧
    fv_hash (redis st2) = delete (fieldKey, id) (fv_hash (redis st)) ∧
    slog st1 = slog st.
Proof.
  intros fieldKey Hok.
  destruct (SparseAdd_run w fv id st Hok) as (skbms & Hadd & _).
  eexists _, _. split; [exact Hadd|]. split; [apply SparseRemove_run|].
  fold fieldKey. cbn [redis slog].
  destruct (mset_redis_frame fieldKey skbms (set_fv fieldKey id fv (redis st))) as [-> ->].
  split_and!; try done;
    destruct (floor_key (redis st) fieldKey fv) as [k|]; cbn [redis remove_fv bm_hash fv_hash];
    try done;
    destruct (mset_redis_frame fieldKey
                [mkSortKeyBitmap k (Some (bucket (redis st) fieldKey k ∖ {[id]}))]
                (redis st)) as [Hb Hf];
    by rewrite ?Hb, ?Hf.
Qed.

(** With a split threshold above zero, or on a well kept store,
    [SparseU64IndexWriter.Add] and [Remove] do not fail.  Neither touches
    a term posting.  On every path, the split included, [Add] records [fv]
    as the forward value of [id] and leaves the other forward values
    alone; [Remove] removes the forward value of [id], with or without a
    floor bucket. *)
Theorem SparseU64IndexWriter_forward_values `{!SliceSorter} (w : SparseU64IndexWriter)
    (fv id : Z) (st : State) :
  let fieldKey := MakeIndexKey (SparseU64IndexWriter_Index w) in
  0 < uint64 (SplitThreshold w) ∨ well_kept (redis st) →
  ∃ st1 st2,
    SparseU64IndexWriter_Add w fv id st = Some (tt, st1) ∧
    SparseU64IndexWriter_Remove w fv id st = Some (tt, st2) ∧
    bm_hash (redis st1) = bm_hash (redis st) ∧
    bm_hash (redis st2) = bm_hash (redis st) ∧
    fv_hash (redis st1) = <[(fieldKey, id) := fv]> (fv_hash (redis st)) ∧
    fv_hash (redis st2) = delete (fieldKey, id) (fv_hash (redis st)) ∧
    slog st1 = slog st.
Proof. exact (SparseWriter_runs w fv id st). Qed.

Lemma SparseU64IndexWriter_forward_values_witness :
  ∃ st1, SparseU64IndexWriter_Add (H:=stable_sorter) small_writer 10 1 initial = Some (tt, st1) ∧
         fv_hash (redis st1) !! (create_time_key, 1) = Some 10.
Proof.
  destruct (SparseU64IndexWriter_forward_values (H:=stable_sorter) small_writer 10 1 initial)
    as (st1 & st2 & Hadd & _ & _ & _ & Hfv & _).
  { left. vm_compute. reflexivity. }
  exists st1. split; [exact Hadd|]. rewrite Hfv. apply lookup_insert_eq.
Defined.

(** ** The consumer and the table *)

Lemma term_exact_insert (i : TermIndex) (f : Order → Term) (rows : gmap Z Order)
    (rd rd' : Redis) (o : Order) :
  rows !! ID o = None → term_exact i f rows rd →
  (∀ vk, posting rd' (GetIndexKey i) vk =
         if decide (vk = MakeValueKey (f o))
         then {[ID o]} ∪ posting rd (GetIndexKey i) vk
         else posting rd (GetIndexKey i) vk) →
  term_exact i f (<[ID o := o]> rows) rd'.
Proof.
  intros Hnew Hex Hp vk id. rewrite Hp.
  destruct (decide (id = ID o)) as [->|Hid].
  - rewrite lookup_insert_eq. case_decide as Hk.
    + split; [eauto|]. intros _. apply elem_of_union_l. by apply elem_of_singleton.
    + rewrite (Hex vk (ID o)), Hnew. split; [by intros (? & ? & ?)|].
      intros (o' & [= <-] & ?). by destruct Hk.
  - rewrite lookup_insert_ne by done. rewrite <-(Hex vk id).
    case_decide; [|done]. rewrite elem_of_union, elem_of_singleton. tauto.
Qed.

Lemma term_exact_delete (i : TermIndex) (f : Order → Term) (rows : gmap Z Order)
    (rd rd' : Redis) (o : Order) :
  rows !! ID o = Some o → term_exact i f rows rd →
  (∀ vk, posting rd' (GetIndexKey i) vk =
         if decide (vk = MakeValueKey (f o))
         then posting rd (GetIndexKey i) vk ∖ {[ID o]}
         else posting rd (GetIndexKey i) vk) →
  term_exact i f (delete (ID o) rows) rd'.
Proof.
  intros Hrow Hex Hp vk id. rewrite Hp.
  destruct (decide (id = ID o)) as [->|Hid].
  - rewrite lookup_delete_eq. split; [|by intros (? & ? & ?)].
    case_decide as Hk.
    + rewrite elem_of_difference, elem_of_singleton. tauto.
    + rewrite (Hex vk (ID o)), Hrow. intros (o' & [= <-] & ?). by destruct Hk.
  - rewrite lookup_delete_ne by done. rewrite <-(Hex vk id).
    case_decide; [|done]. rewrite elem_of_difference, elem_of_singleton. tauto.
Qed.

Lemma term_exact_same (i : TermIndex) (f : Order → Term) (rows : gmap Z Order)
    (rd rd' : Redis) (before after : Order) :
  rows !! ID before = Some before → ID after = ID before →
  MakeValueKey (f after) = MakeValueKey (f before) →
  term_exact i f rows rd →
  (∀ vk, posting rd' (GetIndexKey i) vk = posting rd (GetIndexKey i) vk) →
  term_exact i f (<[ID after := after]> (delete (ID before) rows)) rd'.
Proof.
  intros Hrow Hid Hkey Hex Hp vk id. rewrite Hp, (Hex vk id), Hid.
  destruct (decide (id = ID before)) as [->|Hne].
  - rewrite lookup_insert_eq, Hrow. split.
    + intros (o & [= <-] & ?). exists after. split; [done|congruence].
    + intros (o & [= <-] & ?). exists before. split; [done|congruence].
  - by rewrite lookup_insert_ne, lookup_delete_ne by done.
Qed.

Lemma term_exact_move (i : TermIndex) (f : Order → Term) (rows : gmap Z Order)
    (rd rd' : Redis) (before after : Order) :
  rows !! ID before = Some before → ID after = ID before →
  term_exact i f rows rd →
  (∀ vk, posting rd' (GetIndexKey i) vk =
         if decide (vk = MakeValueKey (f after))
         then {[ID after]} ∪ posting rd (GetIndexKey i) vk
         else if decide (vk = MakeValueKey (f before))
         then posting rd (GetIndexKey i) vk ∖ {[ID after]}
         else posting rd (GetIndexKey i) vk) →
  term_exact i f (<[ID after := after]> (delete (ID before) rows)) rd'.
Proof.
  intros Hrow Hid Hex Hp vk id. rewrite Hp, Hid.
  destruct (decide (id = ID before)) as [->|Hne].
  - rewrite lookup_insert_eq. destruct (decide (vk = MakeValueKey (f after))) as [->|Ha].
    + split; [eauto|]. intros _. apply elem_of_union_l. by apply elem_of_singleton.
    + split; [|intros (o & [= <-] & ?); congruence].
      case_decide as Hb.
      * rewrite elem_of_difference, elem_of_singleton. tauto.
      * rewrite (Hex vk (ID before)), Hrow. intros (o' & [= <-] & ?). by destruct Hb.
  - rewrite lookup_insert_ne, lookup_delete_ne by done. rewrite <-(Hex vk id).
    repeat case_decide; rewrite ?elem_of_union, ?elem_of_difference, ?elem_of_singleton;
      tauto.
Qed.

Lemma term_exact_ext (i : TermIndex) (f : Order → Term) (rows : gmap Z Order)
    (rd rd' : Redis) :
  term_exact i f rows rd →
  (∀ vk, posting rd' (GetIndexKey i) vk = posting rd (GetIndexKey i) vk) →
  term_exact i f rows rd'.
Proof. intros Hex Hp vk id. by rewrite Hp. Qed.

Lemma Term_eqb_true (before after : Term) :
  Term_eqb before after = true → MakeValueKey after = MakeValueKey before.
Proof.
  destruct before as [a|[a|]], after as [b|[b|]]; simpl; try done.
  by intros ->%bool_decide_eq_true.
Qed.

Lemma posting_frame (rd rd' : Redis) :
  bm_hash rd' = bm_hash rd → ∀ ik vk, posting rd' ik vk = posting rd ik vk.
Proof. intros Hbm ik vk. unfold posting. by rewrite Hbm. Qed.

Ltac index_keys Hdist :=
  unfold distinct_indexes in Hdist;
  repeat match type of Hdist with
         | NoDup (_ :: _) =>
             let Hn := fresh "Hn" in
             apply NoDup_cons in Hdist as [Hn Hdist];
             rewrite ?not_elem_of_cons in Hn
         end.

Ltac posting_cases :=
  repeat match goal with
         | |- context [decide (?a = ?b ∧ ?c = ?d)] =>
             destruct (decide (a = b ∧ c = d)) as [[? ?]|?]
         | |- context [decide (?a = ?b)] => destruct (decide (a = b))
         end; try done; try (exfalso; intuition congruence).

Section ConsumerExact.
Context `{!SliceSorter} (consumer : saramaConsumer).
Context (Hdist : distinct_indexes consumer).
Context (Hthr : 0 < uint64 (SplitThreshold (CreateTimeIndexWriter consumer))).

Lemma onInsert_exact (rows : gmap Z Order) (o : Order) (st : State) :
  rows !! ID o = None → terms_exact consumer rows (redis st) →
  ∃ st', onInsert consumer o st = Some (tt, st') ∧
         terms_exact consumer (<[ID o := o]> rows) (redis st').
Proof.
  intros Hnew (Hall & Hstatus & Hproduct & Hprovider & Hfv).
  pose proof Hdist as Hd. index_keys Hd.
  unfold onInsert.
  destruct (posting_Add (AllIndexWriter consumer) (Int64 0) (ID o) st)
    as (st1 & Hrun1 & (_ & _ & Hf1 & _) & Hp1).
  destruct (posting_Add (OrderStatusIndexWriter consumer) (Int64 (OrderStatus o)) (ID o) st1)
    as (st2 & Hrun2 & (_ & _ & Hf2 & _) & Hp2).
  destruct (posting_Add (ProductIdIndexWriter consumer) (Int64 (ProductID o)) (ID o) st2)
    as (st3 & Hrun3 & (_ & _ & Hf3 & _) & Hp3).
  destruct (posting_Add (ProviderIdIndexWriter consumer) (PtrInt64 (ProviderID o)) (ID o) st3)
    as (st4 & Hrun4 & (_ & _ & Hf4 & _) & Hp4).
  destruct (SparseWriter_runs (CreateTimeIndexWriter consumer)
              (CreateTime o) (ID o) st4 (or_introl Hthr))
    as (st5 & _ & Hrun5 & _ & Hbm5 & _ & Hf5 & _ & _).
  pose proof (posting_frame _ _ Hbm5) as Hp5.
  exists st5.
  rewrite (bind_run _ _ _ _ _ Hrun1), (bind_run _ _ _ _ _ Hrun2),
    (bind_run _ _ _ _ _ Hrun3), (bind_run _ _ _ _ _ Hrun4).
  split; [exact Hrun5|].
  split_and!.
  - apply (term_exact_insert _ _ rows (redis st)); [done..|].
    intros vk. rewrite Hp5, Hp4, Hp3, Hp2, Hp1. simpl. posting_cases.
  - apply (term_exact_insert _ _ rows (redis st)); [done..|].
    intros vk. rewrite Hp5, Hp4, Hp3, Hp2, Hp1. simpl. posting_cases.
  - apply (term_exact_insert _ _ rows (redis st)); [done..|].
    intros vk. rewrite Hp5, Hp4, Hp3, Hp2, Hp1. simpl. posting_cases.
  - apply (term_exact_insert _ _ rows (redis st)); [done..|].
    intros vk. rewrite Hp5, Hp4, Hp3, Hp2, Hp1. simpl. posting_cases.
  - intros id. rewrite Hf5, Hf4, Hf3, Hf2, Hf1.
    destruct (decide (id = ID o)) as [->|Hne].
    + by rewrite !lookup_insert_eq.
    + rewrite !lookup_insert_ne by congruence. apply Hfv.
Qed.

Lemma onDelete_exact (rows : gmap Z Order) (o : Order) (st : State) :
  rows !! ID o = Some o → terms_exact consumer rows (redis st) →
  ∃ st', onDelete consumer o st = Some (tt, st') ∧
         terms_exact consumer (delete (ID o) rows) (redis st').
Proof.
  intros Hrow (Hall & Hstatus & Hproduct & Hprovider & Hfv).
  pose proof Hdist as Hd. index_keys Hd.
  unfold onDelete.
  destruct (posting_Remove (AllIndexWriter consumer) (Int64 0) (ID o) st)
    as (st1 & Hrun1 & (_ & _ & Hf1 & _) & Hp1).
  destruct (posting_Remove (OrderStatusIndexWriter consumer) (Int64 (OrderStatus o)) (ID o)
              st1) as (st2 & Hrun2 & (_ & _ & Hf2 & _) & Hp2).
  destruct (posting_Remove (ProductIdIndexWriter consumer) (Int64 (ProductID o)) (ID o) st2)
    as (st3 & Hrun3 & (_ & _ & Hf3 & _) & Hp3).
  destruct (posting_Remove (ProviderIdIndexWriter consumer) (PtrInt64 (ProviderID o)) (ID o)
              st3) as (st4 & Hrun4 & (_ & _ & Hf4 & _) & Hp4).
  destruct (SparseWriter_runs (CreateTimeIndexWriter consumer)
              (CreateTime o) (ID o) st4 (or_introl Hthr))
    as (_ & st5 & _ & Hrun5 & _ & Hbm5 & _ & Hf5 & _).
  pose proof (posting_frame _ _ Hbm5) as Hp5.
  exists st5.
  rewrite (bind_run _ _ _ _ _ Hrun1), (bind_run _ _ _ _ _ Hrun2),
    (bind_run _ _ _ _ _ Hrun3), (bind_run _ _ _ _ _ Hrun4).
  split; [exact Hrun5|].
  split_and!.
  - apply (term_exact_delete _ _ rows (redis st)); [done..|].
    intros vk. rewrite Hp5, Hp4, Hp3, Hp2, Hp1. simpl. posting_cases.
  - apply (term_exact_delete _ _ rows (redis st)); [done..|].
    intros vk. rewrite Hp5, Hp4, Hp3, Hp2, Hp1. simpl. posting_cases.
  - apply (term_exact_delete _ _ rows (redis st)); [done..|].
    intros vk. rewrite Hp5, Hp4, Hp3, Hp2, Hp1. simpl. posting_cases.
  - apply (term_exact_delete _ _ rows (redis st)); [done..|].
    intros vk. rewrite Hp5, Hp4, Hp3, Hp2, Hp1. simpl. posting_cases.
  - intros id. rewrite Hf5, Hf4, Hf3, Hf2, Hf1.
    destruct (decide (id = ID o)) as [->|Hne].
    + by rewrite !lookup_delete_eq.
    + rewrite !lookup_delete_ne by congruence. apply Hfv.
Qed.

Lemma Move_exact (w : TermIndexWriter) (f : Order → Term) (rows : gmap Z Order)
    (before after : Order) (st : State) :
  rows !! ID before = Some before → ID after = ID before →
  term_exact (TermIndexWriter_Index w) f rows (redis st) →
  ∃ st', TermIndexWriter_Move w (f before) (f after) (ID after) st = Some (tt, st') ∧
         same_but_postings st st' ∧
         term_exact (TermIndexWriter_Index w) f
           (<[ID after := after]> (delete (ID before) rows)) (redis st') ∧
         ∀ ik vk, ik ≠ GetIndexKey (TermIndexWriter_Index w) →
                  posting (redis st') ik vk = posting (redis st) ik vk.
Proof.
  intros Hrow Hid Hex.
  destruct (posting_Move w (f before) (f after) (ID after) st)
    as (st' & Hrun & Hsame & Heq & Hne).
  exists st'. split; [done|]. split; [done|].
  destruct (Term_eqb (f before) (f after)) eqn:Hb.
  - rewrite (Heq eq_refl). split; [|done].
    apply (term_exact_same _ _ rows (redis st)); try done.
    by apply Term_eqb_true.
  - specialize (Hne eq_refl). split.
    + apply (term_exact_move _ _ rows (redis st)); try done.
      intros vk. rewrite Hne. posting_cases.
    + intros ik vk Hik. rewrite Hne. posting_cases.
Qed.

Lemma SparseMove_forward_values (w : SparseU64IndexWriter) (before after id : Z)
    (st : State) :
  0 < uint64 (SplitThreshold w) →
  ∃ st', SparseU64IndexWriter_Move w before after id st = Some (tt, st') ∧
         bm_hash (redis st') = bm_hash (redis st) ∧
         fv_hash (redis st') =
           if bool_decide (before = after) then fv_hash (redis st)
           else <[(MakeIndexKey (SparseU64IndexWriter_Index w), id) := after]>
                  (fv_hash (redis st)).
Proof.
  intros Hw. unfold SparseU64IndexWriter_Move. case_bool_decide; [by exists st|].
  destruct (SparseWriter_runs w before id st (or_introl Hw))
    as (_ & st1 & _ & Hrun1 & _ & Hbm1 & _ & Hfv1 & _).
  destruct (SparseWriter_runs w after id st1 (or_introl Hw))
    as (st2 & _ & Hrun2 & _ & Hbm2 & _ & Hfv2 & _).
  exists st2. rewrite (bind_run _ _ _ _ _ Hrun1). split; [done|].
  split; [congruence|]. rewrite Hfv2, Hfv1. apply insert_delete_eq.
Qed.

Lemma onUpdate_exact (rows : gmap Z Order) (before after : Order) (st : State) :
  rows !! ID before = Some before → ID after = ID before →
  terms_exact consumer rows (redis st) →
  ∃ st', onUpdate consumer before after st = Some (tt, st') ∧
         terms_exact consumer (<[ID after := after]> (delete (ID before) rows))
           (redis st').
Proof.
  intros Hrow Hid (Hall & Hstatus & Hproduct & Hprovider & Hfv).
  pose proof Hdist as Hd. index_keys Hd.
  unfold onUpdate.
  destruct (Move_exact (OrderStatusIndexWriter consumer) (λ o, Int64 (OrderStatus o))
              rows before after st Hrow Hid Hstatus)
    as (st1 & Hrun1 & (_ & _ & Hf1 & _) & Hex1 & Hp1).
  assert (term_exact (TermIndexWriter_Index (ProductIdIndexWriter consumer))
            (λ o, Int64 (ProductID o)) rows (redis st1)) as Hproduct1.
  { apply (term_exact_ext _ _ _ (redis st)); [done|]. intros vk. apply Hp1. intuition. }
  destruct (Move_exact (ProductIdIndexWriter consumer) (λ o, Int64 (ProductID o))
              rows before after st1 Hrow Hid Hproduct1)
    as (st2 & Hrun2 & (_ & _ & Hf2 & _) & Hex2 & Hp2).
  assert (term_exact (TermIndexWriter_Index (ProviderIdIndexWriter consumer))
            (λ o, PtrInt64 (ProviderID o)) rows (redis st2)) as Hprovider2.
  { apply (term_exact_ext _ _ _ (redis st)); [done|]. intros vk.
    rewrite Hp2, Hp1; [done|intuition..]. }
  destruct (Move_exact (ProviderIdIndexWriter consumer) (λ o, PtrInt64 (ProviderID o))
              rows before after st2 Hrow Hid Hprovider2)
    as (st3 & Hrun3 & (_ & _ & Hf3 & _) & Hex3 & Hp3).
  destruct (SparseMove_forward_values (CreateTimeIndexWriter consumer)
              (CreateTime before) (CreateTime after) (ID after) st3 Hthr)
    as (st4 & Hrun4 & Hbm4 & Hf4).
  pose proof (posting_frame _ _ Hbm4) as Hp4.
  exists st4.
  rewrite (bind_run _ _ _ _ _ Hrun1), (bind_run _ _ _ _ _ Hrun2),
    (bind_run _ _ _ _ _ Hrun3).
  split; [exact Hrun4|]. split_and!.
  - apply (term_exact_same _ _ rows (redis st)); try done.
    intros vk. rewrite Hp4, Hp3, Hp2, Hp1; [done|intuition..].
  - apply (term_exact_ext _ _ _ (redis st1)); [done|].
    intros vk. rewrite Hp4, Hp3, Hp2; [done|intuition..].
  - apply (term_exact_ext _ _ _ (redis st2)); [done|].
    intros vk. rewrite Hp4, Hp3; [done|intuition..].
  - apply (term_exact_ext _ _ _ (redis st3)); [done|].
    intros vk. by rewrite Hp4.
  - intros id. rewrite Hf4, Hf3, Hf2, Hf1, Hid.
    destruct (decide (id = ID before)) as [->|Hne].
    + rewrite lookup_insert_eq. simpl. case_bool_decide as Hct.
      * rewrite Hfv, Hrow. simpl. by rewrite Hct.
      * by rewrite lookup_insert_eq.
    + rewrite lookup_insert_ne, lookup_delete_ne by done.
      case_bool_decide; [apply Hfv|].
      rewrite lookup_insert_ne by congruence. apply Hfv.
Qed.

(** The consumer applies every event the table can produce, and the term
    indexes and forward map stay those of the table. *)
Lemma ConsumeClaim_exact (events : list DataChangedMessage) (rows : gmap Z Order)
    (st : State) :
  events_ok rows events → terms_exact consumer rows (redis st) →
  ∃ st', ConsumeClaim consumer events st = Some (tt, st') ∧
         terms_exact consumer (foldl apply_event rows events) (redis st').
Proof.
  revert rows st. induction events as [|m events IH]; intros rows st Hok Hex.
  - eexists. split; [done|]. done.
  - destruct Hok as [Hm Hok]. simpl ConsumeClaim.
    assert (∃ st1, ConsumeMessage consumer m
                     (mkState (redis st) (slog st ++ [(LevelDebug, "Message claimed")])) =
                   Some (tt, st1) ∧
                   terms_exact consumer (apply_event rows m) (redis st1)) as (st1 & Hrun & Hex1).
    { unfold ConsumeMessage, event_ok, apply_event in *.
      repeat case_bool_decide; try done.
      - destruct (After m) as [after|]; [|done]. simpl. by apply onInsert_exact.
      - destruct (Before m) as [before|], (After m) as [after|]; try done.
        destruct Hm as [Hrow Hid]. simpl. by apply onUpdate_exact.
      - destruct (Before m) as [before|]; [|done]. simpl. by apply onDelete_exact. }
    destruct (IH _ st1 Hok Hex1) as (st' & Hrun' & Hex').
    exists st'. split; [|done].
    unfold mbind, M_bind, slog_write. by rewrite Hrun.
Qed.

End ConsumerExact.

Lemma distinct_indexes_Start : distinct_indexes Start.
Proof. apply (bool_decide_unpack _). vm_compute. exact I. Qed.

Lemma threshold_Start : 0 < uint64 (SplitThreshold (CreateTimeIndexWriter Start)).
Proof. vm_compute. reflexivity. Qed.

Lemma terms_exact_empty (consumer : saramaConsumer) : terms_exact consumer ∅ empty_redis.
Proof.
  unfold terms_exact, term_exact, posting. simpl.
  split_and!; intros; rewrite ?lookup_empty; simpl; try done;
    (split; [by intros ?%elem_of_empty|by intros (? & ? & ?)]).
Qed.

Lemma keyed_by_id_apply_event (rows : gmap Z Order) (m : DataChangedMessage) :
  keyed_by_id rows → keyed_by_id (apply_event rows m).
Proof.
  intros Hk. unfold apply_event. repeat case_bool_decide; try done.
  - destruct (After m) as [after|]; [|done]. intros id o.
    destruct (decide (id = ID after)) as [->|?].
    + rewrite lookup_insert_eq. by intros [= <-].
    + rewrite lookup_insert_ne by done. apply Hk.
  - destruct (Before m) as [before|], (After m) as [after|]; try done. intros id o.
    destruct (decide (id = ID after)) as [->|?].
    + rewrite lookup_insert_eq. by intros [= <-].
    + rewrite lookup_insert_ne by done. intros Ho. apply Hk.
      by apply lookup_delete_Some in Ho as [_ ?].
  - destruct (Before m) as [before|]; [|done]. intros id o Ho.
    apply Hk. by apply lookup_delete_Some in Ho as [_ ?].
Qed.

Lemma keyed_by_id_foldl (events : list DataChangedMessage) (rows : gmap Z Order) :
  keyed_by_id rows → keyed_by_id (foldl apply_event rows events).
Proof.
  revert rows. induction events as [|m events IH]; intros rows Hk; [done|].
  simpl. by apply IH, keyed_by_id_apply_event.
Qed.

Lemma elem_of_live_rows (rows : gmap Z Order) (r : Request) (o : Order) :
  keyed_by_id rows →
  o ∈ live_rows rows r ↔ rows !! ID o = Some o ∧ satisfies r o = true.
Proof.
  intros Hk. unfold live_rows. rewrite list_elem_of_filter, list_elem_of_fmap. split.
  - intros [Hsat ([id o'] & -> & Hin)]. apply elem_of_map_to_list in Hin.
    simpl. split; [|done]. by rewrite (Hk _ _ Hin).
  - intros [Hrow Hsat]. split; [done|]. exists (ID o, o). split; [done|].
    by apply elem_of_map_to_list.
Qed.

Lemma NoDup_live_rows (rows : gmap Z Order) (r : Request) :
  keyed_by_id rows → NoDup (ID <$> live_rows rows r).
Proof.
  intros Hk. unfold live_rows.
  eapply sublist_NoDup; [|apply fmap_sublist, sublist_filter].
  rewrite <-list_fmap_compose.
  rewrite (list_fmap_ext _ fst (map_to_list rows)).
  - apply NoDup_fst_map_to_list.
  - intros i [id o] Hin. simpl. apply Hk.
    by apply elem_of_map_to_list, list_elem_of_lookup_2 with i.
Qed.

Lemma matching_ids_exact (rows : gmap Z Order) (rd : Redis) (r : Request) (id : Z) :
  terms_exact Start rows rd →
  id ∈ matching_ids rd NewOrdersSearchService r ↔
  ∃ o, rows !! id = Some o ∧ satisfies r o = true.
Proof.
  intros (Hall & Hstatus & Hproduct & Hprovider & _).
  assert (∀ i v, term_posting rd i v = posting rd (GetIndexKey i) (MakeValueKey v)) as Htp
    by done.
  unfold matching_ids, equality_matches, provider_equals, satisfies.
  destruct r as [status product filter limit]. cbn [OrderStatusEq ProductIDEq ProviderIDFilter].
  (* the accumulator after the equality filters *)
  set (A0 := term_posting rd _ (Int64 0)).
  assert (∀ id, id ∈ A0 ↔ ∃ o, rows !! id = Some o) as HA0.
  { intros id'. subst A0. rewrite Htp, (Hall _ id'). split.
    - intros (o & ? & _). eauto.
    - intros (o & ?). eauto. }
  set (A1 := match status with Some v => A0 ∩ _ | None => A0 end).
  assert (∀ id, id ∈ A1 ↔
            ∃ o, rows !! id = Some o ∧
                 match status with
                 | Some v => bool_decide (OrderStatus o = v)
                 | None => true
                 end = true) as HA1.
  { intros id'. subst A1. destruct status as [v|].
    - rewrite elem_of_intersection, HA0, Htp, (Hstatus _ id'). split.
      + intros [_ (o & Ho & Hkey)]. exists o. split; [done|].
        apply bool_decide_eq_true. by apply Sprint_inj in Hkey.
      + intros (o & Ho & Hv%bool_decide_eq_true). split; [eauto|].
        exists o. split; [done|]. by rewrite Hv.
    - rewrite HA0. split; intros (o & ?); [|destruct H]; eauto. }
  set (A2 := match product with Some v => A1 ∩ _ | None => A1 end).
  assert (∀ id, id ∈ A2 ↔
            ∃ o, rows !! id = Some o ∧
                 match status with
                 | Some v => bool_decide (OrderStatus o = v)
                 | None => true
                 end &&
                 match product with
                 | Some v => bool_decide (ProductID o = v)
                 | None => true
                 end = true) as HA2.
  { intros id'. subst A2. destruct product as [v|].
    - rewrite elem_of_intersection, HA1, Htp, (Hproduct _ id'). split.
      + intros [(o & Ho & Hs) (o' & Ho' & Hkey)]. simplify_eq. exists o. split; [done|].
        rewrite Hs. simpl. apply bool_decide_eq_true. by apply Sprint_inj in Hkey.
      + intros (o & Ho & [Hs Hv%bool_decide_eq_true]%andb_true_iff).
        split; [eauto|]. exists o. split; [done|]. by rewrite Hv.
    - rewrite HA1. split; intros (o & Ho & Hs); exists o; split; try done.
      + by rewrite Hs.
      + by apply andb_true_iff in Hs as [? _]. }
  clearbody A2. clear HA1 HA0 A1 A0.
  destruct filter as [[mode value]|]; cbn [Mode Value].
  - destruct mode.
    + rewrite elem_of_intersection, HA2, Htp, (Hprovider _ id). split.
      * intros [(o & Ho & Hs) (o' & Ho' & Hkey)]. simplify_eq. exists o. split; [done|].
        rewrite Hs. simpl. apply bool_decide_eq_true.
        by apply PtrInt64_key_inj in Hkey.
      * intros (o & Ho & [Hs Hv%bool_decide_eq_true]%andb_true_iff).
        split; [eauto|]. exists o. split; [done|]. by rewrite Hv.
    + rewrite elem_of_intersection, HA2, Htp, (Hprovider _ id). split.
      * intros [(o & Ho & Hs) (o' & Ho' & Hkey)]. simplify_eq. exists o. split; [done|].
        rewrite Hs. simpl. apply bool_decide_eq_true.
        by apply PtrInt64_key_inj in Hkey.
      * intros (o & Ho & [Hs Hv%bool_decide_eq_true]%andb_true_iff).
        split; [eauto|]. exists o. split; [done|]. by rewrite Hv.
    + rewrite elem_of_difference, HA2, Htp, (Hprovider _ id). split.
      * intros [(o & Ho & Hs) Hnot]. exists o. split; [done|].
        rewrite Hs. simpl. apply bool_decide_eq_true. intros Hnone.
        apply Hnot. exists o. split; [done|]. by rewrite Hnone.
      * intros (o & Ho & [Hs Hv%bool_decide_eq_true]%andb_true_iff).
        split; [eauto|]. intros (o' & Ho' & Hkey). simplify_eq.
        by apply PtrInt64_key_inj in Hkey.
  - rewrite HA2. split; intros (o & Ho & Hs); exists o; split; try done.
    + by rewrite Hs.
    + by apply andb_true_iff in Hs as [? _].
Qed.

Lemma matching_ids_live_rows (rows : gmap Z Order) (rd : Redis) (r : Request) :
  keyed_by_id rows → terms_exact Start rows rd →
  matching_ids rd NewOrdersSearchService r = list_to_set (ID <$> live_rows rows r).
Proof.
  intros Hk Hex. apply set_eq. intros id.
  rewrite (matching_ids_exact rows) by done.
  rewrite elem_of_list_to_set, list_elem_of_fmap. split.
  - intros (o & Ho & Hs). exists o. rewrite (elem_of_live_rows _ _ _ Hk).
    pose proof (Hk _ _ Ho) as Hid. split; [done|]. by rewrite Hid.
  - intros (o & -> & Hin). apply (elem_of_live_rows _ _ _ Hk) in Hin as [? ?]. eauto.
Qed.

(** After any sequence of events the table can have produced, the total
    of [List] is the number of rows of the table that satisfy the filters
    of the request, and every id it returns is the id of such a row. *)
Theorem List_counts_the_rows `{!SliceSorter} (events : list DataChangedMessage)
    (r : Request) :
  events_ok ∅ events →
  ∃ st resp st',
    ConsumeClaim Start events initial = Some (tt, st) ∧
    OrdersSearchService_List NewOrdersSearchService r st = Some (resp, st') ∧
    Total resp = Total (expected_response (rows_after events) r) ∧
    ∀ id, id ∈ IDs resp →
          ∃ o, rows_after events !! id = Some o ∧ satisfies r o = true.
Proof.
  intros Hok.
  destruct (ConsumeClaim_exact Start distinct_indexes_Start threshold_Start events ∅ initial
              Hok (terms_exact_empty Start)) as (st & Hrun & Hex).
  assert (keyed_by_id (rows_after events)) as Hk by (by apply keyed_by_id_foldl).
  exists st. eexists _, _. split; [done|].
  split; [apply OrdersSearchService_List_run|]. split.
  - unfold List_response, expected_response. simpl.
    fold (live_rows (rows_after events) r).
    rewrite (matching_ids_live_rows (rows_after events)) by done.
    rewrite size_list_to_set by (by apply NoDup_live_rows).
    by rewrite length_fmap.
  - intros id [Hid _]%List_response_ids.
    by apply (matching_ids_exact (rows_after events)) in Hid.
Qed.

(** ** The sparse index while no bucket is split *)

Lemma floor_key_kept (rd rd' : Redis) (indexKey : string) (v k : Z) :
  floor_key rd indexKey v = Some k →
  k ∈ zset rd' indexKey →
  (∀ k', k' ∈ zset rd' indexKey → 0 ≤ k' ≤ v → k' ∈ zset rd indexKey ∨ k' ≤ k) →
  floor_key rd' indexKey v = Some k.
Proof.
  intros (Hin & Hrange & Hmax)%floor_key_Some Hin' Hnew.
  apply floor_key_Some. split; [done|]. split; [done|].
  intros k' Hk' Hr. destruct (Hnew k' Hk' Hr) as [Hold|?]; [|done]. by apply Hmax.
Qed.

Lemma sparse_exact_bucket_size (indexKey : string) (fvs : gmap Z Z) (rd : Redis) (k : Z) :
  sparse_exact indexKey fvs rd → (size (bucket rd indexKey k) ≤ size fvs)%nat.
Proof.
  intros (_ & _ & Hb & _). rewrite <-size_dom. apply subseteq_size.
  intros id Hid. apply Hb in Hid as (v & Hv & _). by apply elem_of_dom.
Qed.

Section SparseExact.
Context `{!SliceSorter} (w : SparseU64IndexWriter).
Let fieldKey := MakeIndexKey (SparseU64IndexWriter_Index w).

Lemma SparseAdd_exact (fvs : gmap Z Z) (fv id : Z) (st : State) :
  sparse_exact fieldKey fvs (redis st) →
  fvs !! id = None → 0 ≤ fv →
  Z.of_nat (size fvs) < uint64 (SplitThreshold w) →
  ∃ st', SparseU64IndexWriter_Add w fv id st = Some (tt, st') ∧
         bm_hash (redis st') = bm_hash (redis st) ∧
         (∀ k, k ∈ zset (redis st') fieldKey → k = fv ∨ k ∈ zset (redis st) fieldKey) ∧
         sparse_exact fieldKey (<[id := fv]> fvs) (redis st').
Proof.
  intros Hex Hnew Hfv Hsize.
  pose proof Hex as (Hfvs & Hkeys & Hbucket & Hfloor).
  destruct (SparseAdd_run w fv id st) as (skbms & Hrun & Hskbms); [left; lia|].
  fold fieldKey in Hrun, Hskbms.
  eexists. split; [exact Hrun|]. cbn [redis].
  split; [by destruct (mset_redis_frame fieldKey skbms
                         (set_fv fieldKey id fv (redis st))) as [-> _]|].
  assert (∀ id', fv_hash (mset_redis fieldKey skbms (set_fv fieldKey id fv (redis st)))
                   !! (fieldKey, id') = <[id := fv]> fvs !! id') as Hfvs'.
  { intros id'. destruct (mset_redis_frame fieldKey skbms
                            (set_fv fieldKey id fv (redis st))) as [_ ->].
    cbn [set_fv fv_hash]. destruct (decide (id' = id)) as [->|Hne].
    - by rewrite !lookup_insert_eq.
    - rewrite !lookup_insert_ne by congruence. apply Hfvs. }
  destruct (floor_key (redis st) fieldKey fv) as [k0|] eqn:Hf0.
  - (* the floor bucket takes the id *)
    assert (skbms = [mkSortKeyBitmap k0 (Some ({[id]} ∪ bucket (redis st) fieldKey k0))])
      as ->.
    { apply Hskbms.
      pose proof (sparse_exact_bucket_size fieldKey fvs (redis st) k0 Hex).
      unfold roaring.GetCardinality. lia. }
    clear Hskbms.
    destruct (mset_redis_one fieldKey k0 ({[id]} ∪ bucket (redis st) fieldKey k0)
                (set_fv fieldKey id fv (redis st))) as [Hb' Hz'].
    change (bucket (set_fv fieldKey id fv (redis st))) with (bucket (redis st)) in Hb'.
    change (zset (set_fv fieldKey id fv (redis st))) with (zset (redis st)) in Hz'.
    set (rd' := mset_redis _ _ _) in *.
    assert (∀ k, k ∈ zset rd' fieldKey ↔ k ∈ zset (redis st) fieldKey) as Hzset.
    { intros k. rewrite Hz'. case_decide as Hk; [|done]. destruct Hk as [_ ->].
      apply floor_key_Some in Hf0 as [Hin _]. split; [done|]. intros _.
      apply non_empty_inhabited_L with id. apply elem_of_union_l. by apply elem_of_singleton. }
    assert (∀ v, floor_key rd' fieldKey v = floor_key (redis st) fieldKey v) as Hfl.
    { intros v. destruct (floor_key (redis st) fieldKey v) as [k|] eqn:Hv.
      - eapply floor_key_kept; [exact Hv| |].
        + apply Hzset. by apply floor_key_Some in Hv as [? _].
        + intros k' Hk' _. left. by apply Hzset.
      - apply floor_key_None. intros k Hk. apply Hzset in Hk.
        by apply (proj1 (floor_key_None _ _ _) Hv). }
    split; [intros k Hk; right; by apply Hzset|].
    split_and!.
    + exact Hfvs'.
    + intros k. rewrite Hzset, Hb', Hkeys. case_decide as Hk; [|done].
      destruct Hk as [_ ->]. split; [|intros _].
      * intros _. apply non_empty_inhabited_L with id.
        apply elem_of_union_l. by apply elem_of_singleton.
      * apply Hkeys. by apply floor_key_Some in Hf0 as [? _].
    + intros k id'. rewrite Hb'. setoid_rewrite Hfl.
      destruct (decide (id' = id)) as [->|Hne].
      * rewrite lookup_insert_eq. case_decide as Hk.
        -- destruct Hk as [_ ->]. split; [eauto|]. intros _.
           apply elem_of_union_l. by apply elem_of_singleton.
        -- split.
           ++ intros Hin. apply Hbucket in Hin as (v & Hv & _). congruence.
           ++ intros (v & [= <-] & Hv). destruct Hk. split; [done|congruence].
      * rewrite lookup_insert_ne by done. rewrite <-Hbucket.
        case_decide as Hk; [|done]. destruct Hk as [_ ->].
        rewrite elem_of_union, elem_of_singleton. tauto.
    + intros id' v. rewrite Hfl. destruct (decide (id' = id)) as [->|Hne].
      * rewrite lookup_insert_eq. intros [= <-]. by rewrite Hf0.
      * rewrite lookup_insert_ne by done. apply Hfloor.
  - (* a new bucket under the value *)
    subst skbms.
    destruct (mset_redis_one fieldKey fv {[id]} (set_fv fieldKey id fv (redis st)))
      as [Hb' Hz'].
    change (bucket (set_fv fieldKey id fv (redis st))) with (bucket (redis st)) in Hb'.
    change (zset (set_fv fieldKey id fv (redis st))) with (zset (redis st)) in Hz'.
    set (rd' := mset_redis _ _ _) in *.
    pose proof (proj1 (floor_key_None _ _ _) Hf0) as Hnone.
    assert (∀ k, k ∈ zset rd' fieldKey ↔ k = fv ∨ k ∈ zset (redis st) fieldKey) as Hzset.
    { intros k. rewrite Hz'. case_decide as Hk.
      - destruct Hk as [_ ->]. split; [by left|]. intros _.
        apply non_empty_inhabited_L with id. by apply elem_of_singleton.
      - split; [by right|]. intros [->|?]; [by destruct Hk|done]. }
    assert (floor_key rd' fieldKey fv = Some fv) as Hfl_new.
    { apply floor_key_Some. split; [apply Hzset; by left|]. split; [lia|].
      intros k [->|Hk]%Hzset Hr; [lia|]. by destruct (Hnone k Hk). }
    assert (∀ v k, floor_key (redis st) fieldKey v = Some k →
                   floor_key rd' fieldKey v = Some k ∧ k ≠ fv) as Hfl_old.
    { intros v k Hv. pose proof Hv as (Hin & Hr & _)%floor_key_Some.
      assert (fv < k) as Hlt.
      { destruct (decide (fv < k)); [done|]. destruct (Hnone k Hin). lia. }
      split; [|lia].
      eapply floor_key_kept; [exact Hv|apply Hzset; by right|].
      intros k' [->|Hk']%Hzset _; [right; lia|by left]. }
    split; [intros k Hk; by apply Hzset|].
    split_and!.
    + exact Hfvs'.
    + intros k. rewrite Hzset, Hb'. case_decide as Hk.
      * destruct Hk as [_ ->]. split; [|by left]. intros _.
        apply non_empty_inhabited_L with id. by apply elem_of_singleton.
      * rewrite <-Hkeys. split; [|by right]. intros [->|?]; [by destruct Hk|done].
    + intros k id'. rewrite Hb'. destruct (decide (id' = id)) as [->|Hne].
      * rewrite lookup_insert_eq. case_decide as Hk.
        -- destruct Hk as [_ ->]. rewrite elem_of_singleton. split; [eauto|done].
        -- split.
           ++ intros Hin. apply Hbucket in Hin as (v & Hv & _). congruence.
           ++ intros (v & [= <-] & Hv). destruct Hk. split; [done|congruence].
      * rewrite lookup_insert_ne by done. case_decide as Hk.
        -- destruct Hk as [_ ->]. rewrite elem_of_singleton. split; [done|].
           intros (v & Hv & Hfl). destruct (Hfloor _ _ Hv) as [k Hk].
           destruct (Hfl_old _ _ Hk) as [Hk' ?]. congruence.
        -- rewrite Hbucket. split.
           ++ intros (v & Hv & Hfl). exists v. split; [done|]. by apply Hfl_old.
           ++ intros (v & Hv & Hfl). exists v. split; [done|].
              destruct (Hfloor _ _ Hv) as [k1 Hk1].
              destruct (Hfl_old _ _ Hk1) as [Hk1' _]. congruence.
    + intros id' v. destruct (decide (id' = id)) as [->|Hne].
      * rewrite lookup_insert_eq. intros [= <-]. by rewrite Hfl_new.
      * rewrite lookup_insert_ne by done. intros Hv.
        destruct (Hfloor _ _ Hv) as [k Hk]. destruct (Hfl_old _ _ Hk) as [-> _]. done.
Qed.

Lemma SparseRemove_exact (fvs : gmap Z Z) (fv id : Z) (st : State) :
  sparse_exact fieldKey fvs (redis st) →
  fvs !! id = Some fv →
  ∃ st', SparseU64IndexWriter_Remove w fv id st = Some (tt, st') ∧
         bm_hash (redis st') = bm_hash (redis st) ∧
         (∀ k, k ∈ zset (redis st') fieldKey → k ∈ zset (redis st) fieldKey) ∧
         sparse_exact fieldKey (delete id fvs) (redis st').
Proof.
  intros Hex Hid.
  pose proof Hex as (Hfvs & Hkeys & Hbucket & Hfloor).
  rewrite SparseRemove_run. fold fieldKey.
  destruct (Hfloor _ _ Hid) as [k0 Hf0]. rewrite Hf0.
  eexists. split; [done|]. cbn [redis].
  set (B := bucket (redis st) fieldKey k0 ∖ {[id]}).
  destruct (mset_redis_frame fieldKey [mkSortKeyBitmap k0 (Some B)] (redis st)) as [Hbm Hfv].
  destruct (mset_redis_one fieldKey k0 B (redis st)) as [Hb' Hz'].
  set (rd1 := mset_redis _ _ _) in *.
  split; [done|]. unfold sparse_exact.
  change (bucket (remove_fv fieldKey id rd1)) with (bucket rd1).
  change (zset (remove_fv fieldKey id rd1)) with (zset rd1).
  change (floor_key (remove_fv fieldKey id rd1)) with (floor_key rd1).
  assert (∀ id' v, id' ≠ id → fvs !! id' = Some v →
                   floor_key rd1 fieldKey v = floor_key (redis st) fieldKey v) as Hfl.
  { intros id' v Hne Hv. destruct (Hfloor _ _ Hv) as [k Hk]. rewrite Hk.
    eapply floor_key_kept; [exact Hk| |].
    - apply Hz'. case_decide as Hkk.
      + destruct Hkk as [_ ->]. apply non_empty_inhabited_L with id'.
        subst B. rewrite elem_of_difference, elem_of_singleton. split; [|done].
        apply Hbucket. eauto.
      + by apply floor_key_Some in Hk as [? _].
    - intros k' Hk' _. apply Hz' in Hk'. case_decide as Hkk; [|by left].
      destruct Hkk as [_ ->]. left. by apply floor_key_Some in Hf0 as [? _]. }
  split.
  { intros k Hk. apply Hz' in Hk. case_decide as Hkk; [|done].
    destruct Hkk as [_ ->]. by apply floor_key_Some in Hf0 as [? _]. }
  split_and!.
  - intros id'. cbn [remove_fv fv_hash]. rewrite Hfv.
    destruct (decide (id' = id)) as [->|Hne].
    + by rewrite !lookup_delete_eq.
    + rewrite !lookup_delete_ne by congruence. apply Hfvs.
  - intros k. rewrite Hz', Hb'. case_decide; [done|]. apply Hkeys.
  - intros k id'. rewrite Hb'.
    destruct (decide (id' = id)) as [->|Hne].
    + rewrite lookup_delete_eq. split; [|by intros (? & ? & ?)].
      case_decide as Hk.
      * subst B. rewrite elem_of_difference, elem_of_singleton. tauto.
      * intros Hin. apply Hbucket in Hin as (v & Hv & Hfl'). destruct Hk.
        split; [done|]. congruence.
    + rewrite lookup_delete_ne by done.
      assert (id' ∈ (if decide (fieldKey = fieldKey ∧ k = k0) then B
                     else bucket (redis st) fieldKey k) ↔
              id' ∈ bucket (redis st) fieldKey k) as ->.
      { case_decide as Hk; [|done]. destruct Hk as [_ ->]. subst B.
        rewrite elem_of_difference, elem_of_singleton. tauto. }
      rewrite Hbucket. split; intros (v & Hv & Hfl'); exists v; split; try done.
      * by rewrite (Hfl id' v).
      * by rewrite <-(Hfl id' v).
  - intros id' v. destruct (decide (id' = id)) as [->|Hne].
    + by rewrite lookup_delete_eq.
    + rewrite lookup_delete_ne by done. intros Hv. rewrite (Hfl id' v) by done.
      by apply (Hfloor id').
Qed.

Lemma SparseMove_exact (fvs : gmap Z Z) (before after id : Z) (st : State) :
  sparse_exact fieldKey fvs (redis st) →
  fvs !! id = Some before → 0 ≤ after →
  Z.of_nat (size fvs) ≤ uint64 (SplitThreshold w) →
  ∃ st', SparseU64IndexWriter_Move w before after id st = Some (tt, st') ∧
         bm_hash (redis st') = bm_hash (redis st) ∧
         (∀ k, k ∈ zset (redis st') fieldKey → k = after ∨ k ∈ zset (redis st) fieldKey) ∧
         sparse_exact fieldKey (<[id := after]> fvs) (redis st').
Proof.
  intros Hex Hid Hafter Hsize. unfold SparseU64IndexWriter_Move.
  case_bool_decide as Heq.
  - subst after. exists st. split; [done|]. split; [done|]. split; [by right|].
    by rewrite insert_id.
  - destruct (SparseRemove_exact fvs before id st Hex Hid)
      as (st1 & Hrun1 & Hbm1 & Hk1 & Hex1).
    destruct (SparseAdd_exact (delete id fvs) after id st1 Hex1)
      as (st2 & Hrun2 & Hbm2 & Hk2 & Hex2).
    + apply lookup_delete_eq.
    + done.
    + pose proof (map_size_delete_Some id fvs (mk_is_Some _ _ Hid)).
      assert (size fvs ≠ 0%nat).
      { intros Hz. apply map_size_empty_inv in Hz. subst fvs. by rewrite lookup_empty in Hid. }
      lia.
    + exists st2. rewrite (bind_run _ _ _ _ _ Hrun1). split; [done|].
      split; [congruence|]. split; [|by rewrite insert_delete_eq in Hex2].
      intros k [?|?]%Hk2; [by left|right; by apply Hk1].
Qed.

End SparseExact.

Lemma same_but_postings_trans (st1 st2 st3 : State) :
  same_but_postings st1 st2 → same_but_postings st2 st3 → same_but_postings st1 st3.
Proof.
  intros (?&?&?&?) (?&?&?&?). unfold same_but_postings. split_and!; congruence.
Qed.

Lemma sparse_fits_frame (indexKey : string) (threshold : Z) (rows : gmap Z Order)
    (st st' : State) :
  same_but_postings st st' →
  sparse_fits indexKey threshold rows (redis st) →
  sparse_fits indexKey threshold rows (redis st').
Proof.
  intros (Hzs & Hhm & Hfv & _).
  unfold sparse_fits, sparse_exact, floor_key, keys_from, zset_members, bucket, zset.
  by rewrite Hzs, Hhm, Hfv.
Qed.

Section ConsumerSparse.
Context `{!SliceSorter} (consumer : saramaConsumer).
Let fieldKey := MakeIndexKey (SparseU64IndexWriter_Index (CreateTimeIndexWriter consumer)).
Let threshold := uint64 (SplitThreshold (CreateTimeIndexWriter consumer)).

Lemma onInsert_sparse (rows : gmap Z Order) (o : Order) (st : State) :
  sparse_fits fieldKey threshold rows (redis st) →
  rows !! ID o = None → 1 ≤ CreateTime o ≤ u64_max →
  Z.of_nat (size rows) < threshold →
  ∃ st', onInsert consumer o st = Some (tt, st') ∧
         sparse_fits fieldKey threshold (<[ID o := o]> rows) (redis st').
Proof.
  intros Hsp Hnew Hct Hsize. unfold onInsert.
  destruct (posting_Add (AllIndexWriter consumer) (Int64 0) (ID o) st)
    as (st1 & Hrun1 & Hs1 & _).
  destruct (posting_Add (OrderStatusIndexWriter consumer) (Int64 (OrderStatus o)) (ID o) st1)
    as (st2 & Hrun2 & Hs2 & _).
  destruct (posting_Add (ProductIdIndexWriter consumer) (Int64 (ProductID o)) (ID o) st2)
    as (st3 & Hrun3 & Hs3 & _).
  destruct (posting_Add (ProviderIdIndexWriter consumer) (PtrInt64 (ProviderID o)) (ID o) st3)
    as (st4 & Hrun4 & Hs4 & _).
  assert (sparse_fits fieldKey threshold rows (redis st4)) as (Hex & Hkeys & _ & Hrows).
  { eapply sparse_fits_frame; [|exact Hsp].
    eauto using same_but_postings_trans. }
  destruct (SparseAdd_exact (CreateTimeIndexWriter consumer) (CreateTime <$> rows)
              (CreateTime o) (ID o) st4 Hex) as (st5 & Hrun5 & _ & Hk5 & Hex5).
  { by rewrite lookup_fmap, Hnew. }
  { lia. }
  { by rewrite map_size_fmap. }
  exists st5.
  rewrite (bind_run _ _ _ _ _ Hrun1), (bind_run _ _ _ _ _ Hrun2),
    (bind_run _ _ _ _ _ Hrun3), (bind_run _ _ _ _ _ Hrun4).
  split; [exact Hrun5|]. split_and!.
  - by rewrite fmap_insert.
  - intros k [->|Hk]%Hk5; [lia|by apply Hkeys].
  - rewrite map_size_insert_None by done. lia.
  - intros id o'. destruct (decide (id = ID o)) as [->|Hne].
    + rewrite lookup_insert_eq. by intros [= <-].
    + rewrite lookup_insert_ne by done. apply Hrows.
Qed.

Lemma onDelete_sparse (rows : gmap Z Order) (o : Order) (st : State) :
  sparse_fits fieldKey threshold rows (redis st) →
  rows !! ID o = Some o →
  ∃ st', onDelete consumer o st = Some (tt, st') ∧
         sparse_fits fieldKey threshold (delete (ID o) rows) (redis st').
Proof.
  intros Hsp Hrow. unfold onDelete.
  destruct (posting_Remove (AllIndexWriter consumer) (Int64 0) (ID o) st)
    as (st1 & Hrun1 & Hs1 & _).
  destruct (posting_Remove (OrderStatusIndexWriter consumer) (Int64 (OrderStatus o)) (ID o)
              st1) as (st2 & Hrun2 & Hs2 & _).
  destruct (posting_Remove (ProductIdIndexWriter consumer) (Int64 (ProductID o)) (ID o) st2)
    as (st3 & Hrun3 & Hs3 & _).
  destruct (posting_Remove (ProviderIdIndexWriter consumer) (PtrInt64 (ProviderID o)) (ID o)
              st3) as (st4 & Hrun4 & Hs4 & _).
  assert (sparse_fits fieldKey threshold rows (redis st4)) as (Hex & Hkeys & Hsize & Hrows).
  { eapply sparse_fits_frame; [|exact Hsp].
    eauto using same_but_postings_trans. }
  destruct (SparseRemove_exact (CreateTimeIndexWriter consumer) (CreateTime <$> rows)
              (CreateTime o) (ID o) st4 Hex) as (st5 & Hrun5 & _ & Hk5 & Hex5).
  { by rewrite lookup_fmap, Hrow. }
  exists st5.
  rewrite (bind_run _ _ _ _ _ Hrun1), (bind_run _ _ _ _ _ Hrun2),
    (bind_run _ _ _ _ _ Hrun3), (bind_run _ _ _ _ _ Hrun4).
  split; [exact Hrun5|]. split_and!.
  - by rewrite fmap_delete.
  - intros k Hk%Hk5. by apply Hkeys.
  - pose proof (map_size_delete_Some (ID o) rows (mk_is_Some _ _ Hrow)). lia.
  - intros id o' Ho'. apply lookup_delete_Some in Ho' as [_ Ho']. by apply (Hrows id).
Qed.

Lemma onUpdate_sparse (rows : gmap Z Order) (before after : Order) (st : State) :
  sparse_fits fieldKey threshold rows (redis st) →
  rows !! ID before = Some before → ID after = ID before →
  1 ≤ CreateTime after ≤ u64_max →
  ∃ st', onUpdate consumer before after st = Some (tt, st') ∧
         sparse_fits fieldKey threshold (<[ID after := after]> (delete (ID before) rows))
           (redis st').
Proof.
  intros Hsp Hrow Hid Hct. unfold onUpdate.
  destruct (posting_Move (OrderStatusIndexWriter consumer)
              (Int64 (OrderStatus before)) (Int64 (OrderStatus after)) (ID after) st)
    as (st1 & Hrun1 & Hs1 & _).
  destruct (posting_Move (ProductIdIndexWriter consumer)
              (Int64 (ProductID before)) (Int64 (ProductID after)) (ID after) st1)
    as (st2 & Hrun2 & Hs2 & _).
  destruct (posting_Move (ProviderIdIndexWriter consumer)
              (PtrInt64 (ProviderID before)) (PtrInt64 (ProviderID after)) (ID after) st2)
    as (st3 & Hrun3 & Hs3 & _).
  assert (sparse_fits fieldKey threshold rows (redis st3)) as (Hex & Hkeys & Hsize & Hrows).
  { eapply sparse_fits_frame; [|exact Hsp].
    eauto using same_but_postings_trans. }
  destruct (SparseMove_exact (CreateTimeIndexWriter consumer) (CreateTime <$> rows)
              (CreateTime before) (CreateTime after) (ID after) st3 Hex)
    as (st4 & Hrun4 & _ & Hk4 & Hex4).
  { by rewrite Hid, lookup_fmap, Hrow. }
  { lia. }
  { by rewrite map_size_fmap. }
  exists st4.
  rewrite (bind_run _ _ _ _ _ Hrun1), (bind_run _ _ _ _ _ Hrun2),
    (bind_run _ _ _ _ _ Hrun3).
  split; [exact Hrun4|].
  assert (<[ID after := after]> (delete (ID before) rows) = <[ID after := after]> rows)
    as -> by (by rewrite Hid, insert_delete_eq).
  split_and!.
  - by rewrite fmap_insert.
  - intros k [->|Hk]%Hk4; [lia|by apply Hkeys].
  - rewrite map_size_insert_Some; [done|]. by rewrite Hid, Hrow.
  - intros id o'. destruct (decide (id = ID after)) as [->|Hne].
    + rewrite lookup_insert_eq. by intros [= <-].
    + rewrite lookup_insert_ne by done. apply Hrows.
Qed.

Lemma ConsumeClaim_sparse (events : list DataChangedMessage) (rows : gmap Z Order)
    (st : State) :
  events_ok rows events → events_fit threshold rows events →
  sparse_fits fieldKey threshold rows (redis st) →
  ∃ st', ConsumeClaim consumer events st = Some (tt, st') ∧
         sparse_fits fieldKey threshold (foldl apply_event rows events) (redis st').
Proof.
  revert rows st. induction events as [|m events IH]; intros rows st Hok Hfit Hsp.
  - eexists. split; [done|]. done.
  - destruct Hok as [Hm Hok], Hfit as [[Hct Hsize] Hfit]. simpl ConsumeClaim.
    assert (∃ st1, ConsumeMessage consumer m
                     (mkState (redis st) (slog st ++ [(LevelDebug, "Message claimed")])) =
                   Some (tt, st1) ∧
                   sparse_fits fieldKey threshold (apply_event rows m) (redis st1))
      as (st1 & Hrun & Hsp1).
    { unfold ConsumeMessage, event_ok, apply_event in *.
      repeat case_bool_decide; try done.
      - destruct (After m) as [after|]; [|done]. simpl. apply onInsert_sparse; auto.
      - destruct (Before m) as [before|], (After m) as [after|]; try done.
        destruct Hm as [Hrow Hid]. simpl. by apply onUpdate_sparse.
      - destruct (Before m) as [before|]; [|done]. simpl. by apply onDelete_sparse. }
    destruct (IH _ st1 Hok Hfit Hsp1) as (st' & Hrun' & Hsp').
    exists st'. split; [|done].
    unfold mbind, M_bind, slog_write. by rewrite Hrun.
Qed.

End ConsumerSparse.

(** ** List on a table that fits one bucket *)

Global Instance SortId_after_strict : StrictOrder SortId_after.
Proof.
  split.
  - intros [i k]. unfold complement, SortId_after. simpl. lia.
  - intros [] [] []. unfold SortId_after. simpl. lia.
Qed.

Global Instance newer_trans : Transitive newer.
Proof. intros a b c. unfold newer. lia. Qed.

Global Instance newer_total : base.Total newer.
Proof. intros a b. unfold newer. lia. Qed.

Lemma reverse_sorted_ids_strict (rd : Redis) (indexKey : string) (bm : gset Z) :
  StronglySorted SortId_after (reverse (sorted_ids rd indexKey bm)).
Proof.
  assert (NoDup (sorted_ids rd indexKey bm)) as Hnd.
  { rewrite sorted_ids_Permutation. apply NoDup_fmap_2_strong; [|apply NoDup_elements].
    by intros x y _ _ [= ->]. }
  pose proof (sorted_ids_sorted rd indexKey bm) as Hs.
  apply (StronglySorted_iff (flip (λ a b, SortId_le a b ∧ a ≠ b))).
  { intros [i1 k1] [i2 k2]. unfold flip, SortId_le, SortId_after. simpl.
    intros [Hle Hne]. destruct (decide (i1 = i2)) as [->|?]; [|lia].
    destruct (decide (k1 = k2)) as [->|?]; [done|lia]. }
  apply StronglySorted_reverse.
  induction Hs as [|x l Hl IH Hx]; [constructor|].
  apply NoDup_cons in Hnd as [Hx' Hnd]. constructor; [by apply IH|].
  apply Forall_forall. intros y Hy. rewrite Forall_forall in Hx.
  split; [by apply Hx|]. by intros ->.
Qed.

Lemma StronglySorted_SortId_of (l : list Order) :
  StronglySorted newer l → NoDup (ID <$> l) →
  StronglySorted SortId_after (SortId_of <$> l).
Proof.
  induction 1 as [|x l Hl IH Hx]; intros Hnd; [constructor|].
  rewrite fmap_cons in Hnd. apply NoDup_cons in Hnd as [Hx' Hnd].
  rewrite fmap_cons. constructor; [by apply IH|].
  apply Forall_forall. intros y' (y & -> & Hy)%list_elem_of_fmap.
  rewrite Forall_forall in Hx. specialize (Hx y Hy).
  assert (ID x ≠ ID y) as Hne.
  { intros Heq. apply Hx'. rewrite Heq. by apply list_elem_of_fmap_2. }
  unfold newer in Hx. unfold SortId_after, SortId_of. simpl. lia.
Qed.

Section ListExact.
Context (rd : Redis) (indexKey : string) (rows : gmap Z Order) (r : Request).
Context (Hk : keyed_by_id rows).
Context (Hsp : sparse_exact indexKey (CreateTime <$> rows) rd).
Context (Hkeys : ∀ k, k ∈ zset rd indexKey → 1 ≤ k).
Context (Hrows : ∀ id o, rows !! id = Some o → 1 ≤ CreateTime o ≤ u64_max).
Let A : gset Z := list_to_set (ID <$> live_rows rows r).

Lemma elem_of_batches (keys : list Z) (x : SortId) :
  x ∈ mjoin (omap (bucket_batch rd indexKey A true) keys) ↔
  ∃ o k, o ∈ live_rows rows r ∧ k ∈ keys ∧
         floor_key rd indexKey (CreateTime o) = Some k ∧ x = SortId_of o.
Proof.
  destruct Hsp as (Hfv & _ & Hbucket & _).
  assert (∀ o, o ∈ live_rows rows r →
               forward_value rd indexKey (ID o) = CreateTime o ∧
               (CreateTime <$> rows) !! ID o = Some (CreateTime o)) as Hlive.
  { intros o [Ho _]%(elem_of_live_rows _ _ _ Hk).
    unfold forward_value. by rewrite Hfv, lookup_fmap, Ho. }
  split.
  - intros (batch & Hx & Hbatch)%list_elem_of_join.
    apply list_elem_of_omap in Hbatch as (k & Hkin & Hbatch).
    unfold bucket_batch in Hbatch. cbv zeta in Hbatch.
    case_bool_decide; [done|]. injection Hbatch as <-.
    rewrite elem_of_reverse, sorted_ids_Permutation in Hx.
    apply list_elem_of_fmap in Hx as (id & -> & Hid).
    apply elem_of_elements, elem_of_intersection in Hid as [Hb HA].
    apply elem_of_list_to_set, list_elem_of_fmap in HA as (o & -> & Ho).
    destruct (Hlive o Ho) as [Hf Hv].
    apply Hbucket in Hb as (v & Hv' & Hfloor).
    rewrite Hv in Hv'. injection Hv' as <-.
    exists o, k. split_and!; try done. unfold SortId_of. by rewrite Hf.
  - intros (o & k & Ho & Hkin & Hfloor & ->).
    destruct (Hlive o Ho) as [Hf Hv].
    assert (ID o ∈ bucket rd indexKey k ∩ A) as Hin.
    { apply elem_of_intersection. split.
      - apply Hbucket. eauto.
      - apply elem_of_list_to_set. by apply list_elem_of_fmap_2. }
    apply list_elem_of_join. eexists. split; last first.
    + apply list_elem_of_omap. exists k. split; [done|].
      unfold bucket_batch. cbv zeta.
      rewrite bool_decide_eq_false_2; [done|]. intros Hempty.
      rewrite Hempty in Hin. by apply elem_of_empty in Hin.
    + rewrite elem_of_reverse, sorted_ids_Permutation.
      apply list_elem_of_fmap. exists (ID o). split.
      * unfold SortId_of. by rewrite Hf.
      * by apply elem_of_elements.
Qed.

Lemma batches_sorted (keys : list Z) :
  StronglySorted (flip Z.lt) keys →
  StronglySorted SortId_after (mjoin (omap (bucket_batch rd indexKey A true) keys)).
Proof.
  induction 1 as [|k keys Hs IH Hlt]; [constructor|].
  pose proof (elem_of_batches [k]) as Hhead.
  change (omap (bucket_batch rd indexKey A true) (k :: keys))
    with (match bucket_batch rd indexKey A true k with
          | Some batch => batch :: omap (bucket_batch rd indexKey A true) keys
          | None => omap (bucket_batch rd indexKey A true) keys
          end).
  change (omap (bucket_batch rd indexKey A true) [k])
    with (match bucket_batch rd indexKey A true k with
          | Some batch => [batch]
          | None => []
          end) in Hhead.
  destruct (bucket_batch rd indexKey A true k) as [batch|] eqn:Hbatch; [|exact IH].
  change (mjoin [batch]) with (batch ++ []) in Hhead.
  rewrite (right_id_L [] (++)) in Hhead.
  change (StronglySorted SortId_after
            (batch ++ mjoin (omap (bucket_batch rd indexKey A true) keys))).
  apply StronglySorted_app_2; [| |exact IH].
  2:{ unfold bucket_batch in Hbatch. cbv zeta in Hbatch.
      case_bool_decide; [done|]. injection Hbatch as <-.
      apply reverse_sorted_ids_strict. }
  intros x1 x2 (o1 & k1 & _ & Hk1 & Hf1 & ->)%Hhead
               (o2 & k2 & _ & Hk2 & Hf2 & ->)%elem_of_batches.
  apply list_elem_of_singleton in Hk1 as ->.
  rewrite Forall_forall in Hlt. specialize (Hlt k2 Hk2). unfold flip in Hlt.
  apply floor_key_Some in Hf1 as (Hin1 & Hr1 & _).
  apply floor_key_Some in Hf2 as (_ & Hr2 & Hmax).
  left. unfold SortId_of. simpl.
  destruct (decide (k ≤ CreateTime o2)) as [Hle|?]; [|lia].
  specialize (Hmax k Hin1). lia.
Qed.

Lemma scan_reaches_every_key : reached_keys rd indexKey true = scan_keys rd indexKey true.
Proof.
  unfold reached_keys. apply (reached_complete true).
  - apply scan_keys_sorted.
  - apply Forall_forall. by intros k [_ ?]%elem_of_scan_keys.
  - intros [H0%Hkeys _]%elem_of_scan_keys. simpl in H0. lia.
  - done.
Qed.

Lemma batches_are_the_rows :
  mjoin (omap (bucket_batch rd indexKey A true) (reached_keys rd indexKey true)) =
  SortId_of <$> merge_sort newer (live_rows rows r).
Proof.
  rewrite scan_reaches_every_key.
  apply (StronglySorted_strict_ext SortId_after).
  - apply batches_sorted, (scan_keys_sorted rd indexKey true).
  - apply StronglySorted_SortId_of.
    + apply StronglySorted_merge_sort; apply _.
    + rewrite merge_sort_Permutation. by apply NoDup_live_rows.
  - intros x. rewrite elem_of_batches, list_elem_of_fmap.
    setoid_rewrite merge_sort_Permutation. split.
    + intros (o & k & Ho & _ & _ & ->). eauto.
    + intros (o & -> & Ho). pose proof Ho as [Hrow _]%(elem_of_live_rows _ _ _ Hk).
      destruct Hsp as (_ & _ & _ & Hfloor).
      destruct (Hfloor (ID o) (CreateTime o)) as [k Hfk];
        [by rewrite lookup_fmap, Hrow|].
      exists o, k. split_and!; try done.
      pose proof Hfk as (Hin & Hr & _)%floor_key_Some.
      apply elem_of_scan_keys. split; [done|].
      specialize (Hrows _ _ Hrow). unfold is_u64. lia.
Qed.

End ListExact.

Lemma sparse_fits_empty (indexKey : string) (threshold : Z) :
  0 ≤ threshold → sparse_fits indexKey threshold ∅ empty_redis.
Proof.
  intros Hthr. unfold sparse_fits, sparse_exact.
  assert (∀ k, bucket empty_redis indexKey k = ∅) as Hb by done.
  assert (zset empty_redis indexKey = ∅) as Hz by done.
  split; [split_and!|split_and!].
  - intros id. by rewrite fmap_empty, !lookup_empty.
  - intros k. rewrite Hz, Hb. split; [by intros ?%elem_of_empty|done].
  - intros k id. rewrite Hb. split; [by intros ?%elem_of_empty|].
    intros (v & Hv & _). by rewrite fmap_empty, lookup_empty in Hv.
  - intros id v Hv. by rewrite fmap_empty, lookup_empty in Hv.
  - intros k. rewrite Hz. by intros ?%elem_of_empty.
  - rewrite map_size_empty. lia.
  - intros id o Ho. by rewrite lookup_empty in Ho.
Qed.

(** While the table has never had more rows than fit one bucket, and no
    row has a [create_time] of zero or beyond uint64, [List] answers as the
    query on the table does: the count of the rows that satisfy the
    filters, and their ids by [create_time] descending, then id descending,
    cut at the limit.  The limit must not be negative. *)
Theorem List_answers_as_the_table `{!SliceSorter} (events : list DataChangedMessage)
    (r : Request) :
  events_ok ∅ events → events_fit 1000 ∅ events →
  (∀ n, Limit r = Some n → 0 ≤ n) →
  ∃ st st',
    ConsumeClaim Start events initial = Some (tt, st) ∧
    OrdersSearchService_List NewOrdersSearchService r st =
    Some (expected_response (rows_after events) r, st').
Proof.
  intros Hok Hfit Hlimit.
  destruct (ConsumeClaim_exact Start distinct_indexes_Start threshold_Start events ∅ initial
              Hok (terms_exact_empty Start)) as (st & Hrun & Hex).
  destruct (ConsumeClaim_sparse Start events ∅ initial Hok Hfit) as (st2 & Hrun2 & Hsp).
  { apply sparse_fits_empty. by vm_compute. }
  rewrite Hrun in Hrun2. injection Hrun2 as <-.
  destruct Hsp as (Hsp & Hkeys & _ & Hrows).
  assert (keyed_by_id (rows_after events)) as Hk by (by apply keyed_by_id_foldl).
  exists st. eexists. split; [done|].
  rewrite OrdersSearchService_List_run. f_equal. f_equal.
  unfold List_response, expected_response. cbv zeta.
  fold (live_rows (rows_after events) r).
  rewrite (matching_ids_live_rows (rows_after events)) by done.
  rewrite size_list_to_set by (by apply NoDup_live_rows).
  rewrite length_fmap. f_equal.
  rewrite deliver_List_proc.
  change (MakeIndexKey (SparseU64IndexReader_Index
            (CreateTimeIndexReader NewOrdersSearchService)))
    with (MakeIndexKey (SparseU64IndexWriter_Index (CreateTimeIndexWriter Start))).
  rewrite (batches_are_the_rows _ _ (rows_after events) r Hk Hsp Hkeys Hrows).
  rewrite <-list_fmap_compose.
  change (SortId_Id ∘ SortId_of) with ID.
  destruct (live_rows (rows_after events) r) as [|o live] eqn:Hlive.
  { rewrite (bool_decide_eq_true_2 (list_to_set _ = ∅)) by done.
    rewrite orb_true_r.
    change (merge_sort newer []) with (@nil Order).
    destruct (Limit r); [|done]. by rewrite fmap_nil, take_nil. }
  rewrite (bool_decide_eq_false_2 (list_to_set _ = ∅)); last first.
  { intros Hempty. apply (elem_of_empty (C := gset Z) (ID o)). rewrite <-Hempty.
    apply elem_of_list_to_set. rewrite fmap_cons. apply list_elem_of_here. }
  rewrite orb_false_r. unfold take_quota. simpl length.
  destruct (Limit r) as [n|] eqn:Hn; [|by rewrite bool_decide_eq_false_2].
  specialize (Hlimit n eq_refl).
  case_bool_decide as H0.
  - injection H0 as ->. done.
  - assert (n ≠ 0) by congruence.
    by replace (Z.to_nat (Z.max 1 (n - Z.of_nat 0))) with (Z.to_nat n) by lia.
Qed.

(** ** The consumer from an empty index *)

(** After the consumer has taken in the events of a table, from an empty
    table and an empty store, the postings are those of the table: the
    posting of [__all] holds the ids of the rows; the posting of a value of
    [order_status], [product_id] or [provider_id], null included, holds
    the ids of the rows with this value; and the forward map holds the
    [create_time] of every row, and nothing else. *)
Theorem ConsumeClaim_postings_are_the_rows `{!SliceSorter}
    (events : list DataChangedMessage) :
  events_ok ∅ events →
  let rows := rows_after events in
  ∃ st,
    ConsumeClaim Start events initial = Some (tt, st) ∧
    (∀ id, id ∈ term_posting (redis st) (TermIndexWriter_Index (AllIndexWriter Start))
                  (Int64 0) ↔ is_Some (rows !! id)) ∧
    (∀ v id, id ∈ term_posting (redis st)
                    (TermIndexWriter_Index (OrderStatusIndexWriter Start)) (Int64 v) ↔
             ∃ o, rows !! id = Some o ∧ OrderStatus o = v) ∧
    (∀ v id, id ∈ term_posting (redis st)
                    (TermIndexWriter_Index (ProductIdIndexWriter Start)) (Int64 v) ↔
             ∃ o, rows !! id = Some o ∧ ProductID o = v) ∧
    (∀ p id, id ∈ term_posting (redis st)
                    (TermIndexWriter_Index (ProviderIdIndexWriter Start)) (PtrInt64 p) ↔
             ∃ o, rows !! id = Some o ∧ ProviderID o = p) ∧
    (∀ id, fv_hash (redis st) !! (create_time_key, id) = CreateTime <$> rows !! id).
Proof.
  intros Hok rows.
  destruct (ConsumeClaim_exact Start distinct_indexes_Start threshold_Start events ∅ initial
              Hok (terms_exact_empty Start))
    as (st & Hrun & Hall & Hstatus & Hproduct & Hprovider & Hfv).
  fold (rows_after events) in *. fold rows in Hall, Hstatus, Hproduct, Hprovider, Hfv.
  assert (∀ i v, term_posting (redis st) i v =
                 posting (redis st) (GetIndexKey i) (MakeValueKey v)) as Htp by done.
  exists st. split_and!; try done.
  - intros id. rewrite Htp, (Hall _ id). split.
    + intros (o & Ho & _). by exists o.
    + intros [o Ho]. by exists o.
  - intros v id. rewrite Htp, (Hstatus _ id). split.
    + intros (o & Ho & Hkey%Sprint_inj). eauto.
    + intros (o & Ho & <-). eauto.
  - intros v id. rewrite Htp, (Hproduct _ id). split.
    + intros (o & Ho & Hkey%Sprint_inj). eauto.
    + intros (o & Ho & <-). eauto.
  - intros p id. rewrite Htp, (Hprovider _ id). split.
    + intros (o & Ho & Hkey%PtrInt64_key_inj). eauto.
    + intros (o & Ho & <-). eauto.
Qed.

(** While the table has never had more rows than fit one bucket, and no
    row has a [create_time] of zero or beyond uint64, a sort key is a
    member of the sorted set of the [create_time] index exactly if a
    non-empty bitmap is stored for it, no member is zero, and the id of
    every row is in one bucket only: the one with the greatest sort key
    that is not above the [create_time] of the row.  No bucket holds any
    other id. *)
Theorem ConsumeClaim_buckets_are_the_rows `{!SliceSorter}
    (events : list DataChangedMessage) :
  events_ok ∅ events → events_fit 1000 ∅ events →
  let rows := rows_after events in
  ∃ st,
    ConsumeClaim Start events initial = Some (tt, st) ∧
    (∀ k, k ∈ zset (redis st) create_time_key ↔
          bucket (redis st) create_time_key k ≠ ∅) ∧
    (∀ k, k ∈ zset (redis st) create_time_key → 1 ≤ k) ∧
    (∀ k id, id ∈ bucket (redis st) create_time_key k ↔
             ∃ o, rows !! id = Some o ∧
                  floor_key (redis st) create_time_key (CreateTime o) = Some k) ∧
    (∀ id o, rows !! id = Some o →
             is_Some (floor_key (redis st) create_time_key (CreateTime o))).
Proof.
  intros Hok Hfit rows.
  destruct (ConsumeClaim_sparse Start events ∅ initial Hok Hfit)
    as (st & Hrun & (_ & Hz & Hb & Hfloor) & Hkeys & _ & _).
  { apply sparse_fits_empty. by vm_compute. }
  fold (rows_after events) in *. fold rows in Hb, Hfloor.
  exists st. split_and!; try done.
  - intros k id. rewrite (Hb k id). split.
    + intros (v & Hv & Hk). rewrite lookup_fmap in Hv.
      destruct (rows !! id) as [o|]; [|done]. injection Hv as <-. eauto.
    + intros (o & Ho & Hk). exists (CreateTime o). by rewrite lookup_fmap, Ho.
  - intros id o Ho. apply (Hfloor id). by rewrite lookup_fmap, Ho.
Qed.

(** ** Examples *)

Lemma TermIndexWriter_Add_then_Remove_witness :
  (TermIndexWriter_Add (OrderStatusIndexWriter Start) (Int64 2) 7;;
   TermIndexWriter_Remove (OrderStatusIndexWriter Start) (Int64 2) 7) one_row =
  Some (tt, one_row).
Proof.
  apply (TermIndexWriter_Add_then_Remove (OrderStatusIndexWriter Start) (Int64 2) 7 one_row).
  - apply (bool_decide_unpack _). vm_compute. exact I.
  - apply (bool_decide_unpack _). vm_compute. exact I.
Defined.

Lemma writes_keep_the_store_well_kept_witness :
  match run_write (H:=stable_sorter) (SparseAdd small_writer 10 1) initial with
  | Some (_, st') => well_kept (redis st')
  | None => True
  end.
Proof.
  exact (proj1 (writes_keep_the_store_well_kept (H:=stable_sorter) initial well_kept_empty)
           (SparseAdd small_writer 10 1)).
Defined.

Lemma List_counts_the_rows_witness :
  ∃ st resp st',
    ConsumeClaim (H:=stable_sorter) Start insert_two_delete_one initial = Some (tt, st) ∧
    OrdersSearchService_List (H:=stable_sorter) NewOrdersSearchService any_order st =
      Some (resp, st') ∧
    Total resp = Total (expected_response (rows_after insert_two_delete_one) any_order) ∧
    ∀ id, id ∈ IDs resp →
          ∃ o, rows_after insert_two_delete_one !! id = Some o ∧
               satisfies any_order o = true.
Proof.
  apply (List_counts_the_rows (H:=stable_sorter) insert_two_delete_one any_order).
  apply (bool_decide_unpack _). vm_compute. exact I.
Defined.

Lemma List_answers_as_the_table_witness :
  ∃ st st',
    ConsumeClaim (H:=stable_sorter) Start insert_two_delete_one initial = Some (tt, st) ∧
    OrdersSearchService_List (H:=stable_sorter) NewOrdersSearchService any_order st =
    Some (expected_response (rows_after insert_two_delete_one) any_order, st').
Proof.
  apply (List_answers_as_the_table (H:=stable_sorter) insert_two_delete_one any_order).
  - apply (bool_decide_unpack _). vm_compute. exact I.
  - apply (bool_decide_unpack _). vm_compute. exact I.
  - intros n Hn. discriminate Hn.
Defined.

Lemma ConsumeClaim_postings_are_the_rows_witness :
  ∃ st,
    ConsumeClaim (H:=stable_sorter) Start insert_two_delete_one initial = Some (tt, st) ∧
    ∀ id, id ∈ term_posting (redis st) (TermIndexWriter_Index (AllIndexWriter Start))
                 (Int64 0) ↔ is_Some (rows_after insert_two_delete_one !! id).
Proof.
  destruct (ConsumeClaim_postings_are_the_rows (H:=stable_sorter) insert_two_delete_one)
    as (st & Hrun & Hall & _).
  - apply (bool_decide_unpack _). vm_compute. exact I.
  - exists st. split; [exact Hrun|exact Hall].
Defined.

Lemma ConsumeClaim_buckets_are_the_rows_witness :
  ∃ st,
    ConsumeClaim (H:=stable_sorter) Start insert_two_delete_one initial = Some (tt, st) ∧
    ∀ k, k ∈ zset (redis st) create_time_key ↔ bucket (redis st) create_time_key k ≠ ∅.
Proof.
  destruct (ConsumeClaim_buckets_are_the_rows (H:=stable_sorter) insert_two_delete_one)
    as (st & Hrun & Hz & _).
  - apply (bool_decide_unpack _). vm_compute. exact I.
  - apply (bool_decide_unpack _). vm_compute. exact I.
  - exists st. split; [exact Hrun|exact Hz].
Defined.

(** ** What MSet writes *)

Lemma NoDup_fmap_elem_inj {A B : Type} (f : A → B) (l : list A) (x y : A) :
  NoDup (f <$> l) → x ∈ l → y ∈ l → f x = f y → x = y.
Proof.
  induction l as [|a l IH]; intros Hnd Hx Hy Hf; [by apply elem_of_nil in Hx|].
  rewrite fmap_cons in Hnd. apply NoDup_cons in Hnd as [Ha Hnd].
  apply elem_of_cons in Hx as [->|Hx], Hy as [->|Hy]; [done| | |by apply IH].
  - destruct Ha. rewrite Hf. by apply list_elem_of_fmap_2.
  - destruct Ha. rewrite <-Hf. by apply list_elem_of_fmap_2.
Qed.

Lemma lookup_hmset_NoDup {V : Type} (indexKey : string) (pairs : list (Z * V))
    (m : gmap (string * Z) V) (k : Z) (v : V) :
  NoDup pairs.*1 → (k, v) ∈ pairs →
  hmset (λ k, (indexKey, k)) pairs m !! (indexKey, k) = Some v.
Proof.
  unfold hmset. revert m. induction pairs as [|[k0 v0] pairs IH]; intros m Hnd Hin;
    [by apply elem_of_nil in Hin|].
  rewrite fmap_cons in Hnd. apply NoDup_cons in Hnd as [Hk0 Hnd]. simpl in Hk0.
  apply elem_of_cons in Hin as [[= -> ->]|Hin]; simpl.
  - change (foldl _ ?m0 pairs) with (hmset (λ k, (indexKey, k)) pairs m0).
    rewrite lookup_hmset_ne; [apply lookup_insert_eq|].
    intros p Hp [= Heq]. apply Hk0. rewrite <-Heq. by apply list_elem_of_fmap_2.
  - by apply IH.
Qed.

Lemma mset_pairs_keys (setSkbms : list SortKeyBitmap) :
  Forall (λ e, is_nil_or_empty e = false) setSkbms →
  (omap (λ skbm, match Bitmap skbm with
                 | Some raw => Some (SortKey skbm, raw)
                 | None => None
                 end) setSkbms).*1 = SortKey <$> setSkbms.
Proof.
  induction 1 as [|e l He Hl IH]; [done|].
  apply is_nil_or_empty_false in He as (b & Hb & _).
  cbn. rewrite Hb. cbn. f_equal. exact IH.
Qed.

Lemma mset_redis_view (indexKey : string) (skbms : list SortKeyBitmap) (rd : Redis) :
  let delKeys := SortKey <$> filter (λ skbm, is_nil_or_empty skbm = true) skbms in
  let setSkbms := filter (λ skbm, is_nil_or_empty skbm = false) skbms in
  let pairs := omap (λ skbm, match Bitmap skbm with
                             | Some raw => Some (SortKey skbm, raw)
                             | None => None
                             end) setSkbms in
  skbm_hm (mset_redis indexKey skbms rd) =
    hmset (λ k, (indexKey, k)) pairs (hdel (λ k, (indexKey, k)) delKeys (skbm_hm rd)) ∧
  ∀ indexKey' k,
    k ∈ zset (mset_redis indexKey skbms rd) indexKey' ↔
    (indexKey' = indexKey ∧ k ∈ SortKey <$> setSkbms) ∨
    (k ∈ zset rd indexKey' ∧ ¬ (indexKey' = indexKey ∧ k ∈ delKeys)).
Proof.
  intros delKeys setSkbms pairs. unfold mset_redis. fold delKeys setSkbms pairs.
  assert (∀ rd1 : Redis,
            skbm_hm match setSkbms with
                    | [] => rd1
                    | _ => mkRedis (bm_hash rd1)
                             (zadd indexKey (SortKey <$> setSkbms) (skbm_zs rd1))
                             (hmset (λ k, (indexKey, k)) pairs (skbm_hm rd1)) (fv_hash rd1)
                    end = hmset (λ k, (indexKey, k)) pairs (skbm_hm rd1) ∧
            ∀ indexKey' k,
              k ∈ zset match setSkbms with
                       | [] => rd1
                       | _ => mkRedis (bm_hash rd1)
                                (zadd indexKey (SortKey <$> setSkbms) (skbm_zs rd1))
                                (hmset (λ k, (indexKey, k)) pairs (skbm_hm rd1))
                                (fv_hash rd1)
                       end indexKey' ↔
              (indexKey' = indexKey ∧ k ∈ SortKey <$> setSkbms) ∨ k ∈ zset rd1 indexKey')
    as Hset.
  { intros rd1. subst pairs. destruct setSkbms as [|s ss] eqn:Hs.
    - split; [done|]. intros indexKey' k. split; [by right|].
      intros [[_ Hin]|?]; [by apply elem_of_nil in Hin|done].
    - rewrite <-Hs. split; [done|]. intros indexKey' k.
      apply (elem_of_zset_zadd rd1). }
  destruct delKeys as [|d ds] eqn:Hd.
  - destruct (Hset rd) as [-> Hz]. split; [done|].
    intros indexKey' k. rewrite Hz. split.
    + intros [?|?]; [by left|right]. split; [done|]. intros [_ Hin].
      by apply elem_of_nil in Hin.
    + intros [?|[? _]]; [by left|by right].
  - rewrite <-Hd.
    destruct (Hset (mkRedis (bm_hash rd) (zrem indexKey delKeys (skbm_zs rd))
                      (hdel (λ k, (indexKey, k)) delKeys (skbm_hm rd)) (fv_hash rd)))
      as [-> Hz].
    split; [done|]. intros indexKey' k. rewrite Hz, (elem_of_zset_zrem rd). done.
Qed.

(** [RedisSortKeyBitmapStore.MSet] never fails and touches neither the
    postings nor the forward map.  Given buckets with distinct sort keys,
    it stores every non-empty bitmap under its sort key and makes the key
    a member of the sorted set; for a nil or empty bitmap it deletes the
    field and takes the key out of the sorted set.  The buckets with other
    sort keys, and those of other indexes, stay as they are. *)
Theorem RedisSortKeyBitmapStore_MSet_spec (indexKey : string) (skbms : list SortKeyBitmap)
    (st : State) :
  NoDup (SortKey <$> skbms) →
  ∃ st',
    RedisSortKeyBitmapStore_MSet indexKey skbms st = Some (tt, st') ∧
    bm_hash (redis st') = bm_hash (redis st) ∧
    fv_hash (redis st') = fv_hash (redis st) ∧
    slog st' = slog st ∧
    (∀ e, e ∈ skbms →
          skbm_hm (redis st') !! (indexKey, SortKey e) =
            (if is_nil_or_empty e then None else Bitmap e) ∧
          (SortKey e ∈ zset (redis st') indexKey ↔ is_nil_or_empty e = false)) ∧
    (∀ indexKey' k,
       ¬ (indexKey' = indexKey ∧ k ∈ SortKey <$> skbms) →
       skbm_hm (redis st') !! (indexKey', k) = skbm_hm (redis st) !! (indexKey', k) ∧
       (k ∈ zset (redis st') indexKey' ↔ k ∈ zset (redis st) indexKey')).
Proof.
  intros Hnd. eexists. split; [apply RedisSortKeyBitmapStore_MSet_run|].
  cbn [redis slog].
  destruct (mset_redis_frame indexKey skbms (redis st)) as [-> ->].
  destruct (mset_redis_view indexKey skbms (redis st)) as [Hhm Hz].
  cbv zeta in Hhm, Hz. rewrite Hhm. clear Hhm.
  set (delKeys := SortKey <$> filter (λ skbm, is_nil_or_empty skbm = true) skbms) in *.
  set (setSkbms := filter (λ skbm, is_nil_or_empty skbm = false) skbms) in *.
  set (pairs := omap _ setSkbms).
  assert (pairs.*1 = SortKey <$> setSkbms) as Hpairs.
  { apply mset_pairs_keys, Forall_forall. intros e He.
    by apply list_elem_of_filter in He as [? _]. }
  assert (∀ k, k ∈ delKeys → k ∈ SortKey <$> skbms) as Hdel.
  { intros k (e & -> & He)%list_elem_of_fmap. apply list_elem_of_fmap_2.
    by apply list_elem_of_filter in He as [_ ?]. }
  assert (∀ k, k ∈ SortKey <$> setSkbms → k ∈ SortKey <$> skbms) as Hset.
  { intros k (e & -> & He)%list_elem_of_fmap. apply list_elem_of_fmap_2.
    by apply list_elem_of_filter in He as [_ ?]. }
  split_and!; try done.
  - intros e He. destruct (is_nil_or_empty e) eqn:Hempty.
    + assert (SortKey e ∈ delKeys) as Hin.
      { apply list_elem_of_fmap_2. by apply list_elem_of_filter. }
      assert (SortKey e ∉ SortKey <$> setSkbms) as Hnin.
      { intros (e' & Heq & He')%list_elem_of_fmap.
        apply list_elem_of_filter in He' as [Hfull He'].
        assert (e = e') as <- by (by apply (NoDup_fmap_elem_inj SortKey skbms)).
        congruence. }
      split.
      * rewrite lookup_hmset_ne; [by rewrite lookup_hdel, decide_True|].
        intros p Hp [= Heq]. apply Hnin. rewrite <-Hpairs, <-Heq.
        by apply list_elem_of_fmap_2.
      * rewrite Hz. split; [|done]. intros [[_ ?]|[_ Hn]]; [done|]. by destruct Hn.
    + pose proof Hempty as (b & Hb & _)%is_nil_or_empty_false.
      assert (e ∈ setSkbms) as Hin by (by apply list_elem_of_filter).
      split.
      * rewrite Hb. apply lookup_hmset_NoDup.
        -- rewrite Hpairs. eapply sublist_NoDup; [exact Hnd|].
           apply fmap_sublist, sublist_filter.
        -- apply list_elem_of_omap. exists e. by rewrite Hb.
      * rewrite Hz. split; [done|]. intros _. left. split; [done|].
        by apply list_elem_of_fmap_2.
  - intros indexKey' k Hk. split.
    + rewrite lookup_hmset_ne.
      * rewrite lookup_hdel, decide_False; [done|]. intros [-> Hin]. apply Hk. auto.
      * intros p Hp [= <- <-]. apply Hk. split; [done|]. apply Hset.
        rewrite <-Hpairs. by apply list_elem_of_fmap_2.
    + rewrite Hz. split.
      * intros [[-> Hin]|[? _]]; [|done]. destruct Hk. auto.
      * intros Hin. right. split; [done|]. intros [-> Hin']. apply Hk. auto.
Qed.

Lemma RedisSortKeyBitmapStore_MSet_spec_witness :
  ∃ st',
    RedisSortKeyBitmapStore_MSet create_time_key
      [mkSortKeyBitmap 10 (Some {[1]}); mkSortKeyBitmap 20 None] initial = Some (tt, st') ∧
    skbm_hm (redis st') !! (create_time_key, 10) = Some {[1]} ∧
    ¬ 20 ∈ zset (redis st') create_time_key.
Proof.
  destruct (RedisSortKeyBitmapStore_MSet_spec create_time_key
              [mkSortKeyBitmap 10 (Some {[1]}); mkSortKeyBitmap 20 None] initial)
    as (st' & Hrun & _ & _ & _ & Hin & _).
  - apply (bool_decide_unpack _). vm_compute. exact I.
  - exists st'. split; [exact Hrun|]. split.
    + exact (proj1 (Hin (mkSortKeyBitmap 10 (Some {[1]})) (list_elem_of_here _ _))).
    + intros H20.
      apply (proj2 (Hin (mkSortKeyBitmap 20 None)
                      (list_elem_of_further _ _ _ (list_elem_of_here _ _)))) in H20.
      discriminate H20.
Defined.

(** ** Smaller facts of the stores and the consumer *)

(** [RedisBmStore.Set] never fails and [Get] right after it returns the
    bitmap that was set, a new empty bitmap when that was nil; a nil or
    empty bitmap leaves no field behind.  [Get] of any other field returns
    what it returned before.  Nothing but the one field changes. *)
Theorem RedisBmStore_Set_then_Get (indexKey valueKey : string) (value : option (gset Z))
    (indexKey' valueKey' : string) (st : State) :
  ∃ st',
    RedisBmStore_Set indexKey valueKey value st = Some (tt, st') ∧
    RedisBmStore_Get indexKey' valueKey' st' =
      Some (if decide (indexKey' = indexKey ∧ valueKey' = valueKey)
            then default roaring.New value
            else parseBitmap (bm_hash (redis st) !! (indexKey', valueKey')), st') ∧
    (is_Some (bm_hash (redis st') !! (indexKey, valueKey)) ↔
     ∃ bm, value = Some bm ∧ bm ≠ ∅) ∧
    same_but_postings st st'.
Proof.
  assert (∀ (m : gmap (string * string) (gset Z)) v,
            <[(indexKey, valueKey) := v]> m !! (indexKey', valueKey') =
            if decide (indexKey' = indexKey ∧ valueKey' = valueKey)
            then Some v else m !! (indexKey', valueKey')) as Hins.
  { intros m v. case_decide as Hk.
    - destruct Hk as [-> ->]. apply lookup_insert_eq.
    - apply lookup_insert_ne. intros [= <- <-]. by apply Hk. }
  assert (∀ m : gmap (string * string) (gset Z),
            delete (indexKey, valueKey) m !! (indexKey', valueKey') =
            if decide (indexKey' = indexKey ∧ valueKey' = valueKey)
            then None else m !! (indexKey', valueKey')) as Hdel.
  { intros m. case_decide as Hk.
    - destruct Hk as [-> ->]. apply lookup_delete_eq.
    - apply lookup_delete_ne. intros [= <- <-]. by apply Hk. }
  unfold RedisBmStore_Set. destruct value as [bm|].
  - rewrite GetCardinality_0. case_bool_decide as Hempty.
    + eexists. split; [done|]. rewrite RedisBmStore_Get_run. cbn [redis bm_hash].
      rewrite Hdel, lookup_delete_eq. split_and!; [|split|done].
      * subst bm. by case_decide.
      * by intros [? ?].
      * intros (bm' & [= <-] & Hne). done.
    + eexists. split; [done|]. rewrite RedisBmStore_Get_run. cbn [redis bm_hash].
      rewrite Hins, lookup_insert_eq. split_and!; [|split|done].
      * by case_decide.
      * intros _. by exists bm.
      * done.
  - eexists. split; [done|]. rewrite RedisBmStore_Get_run. cbn [redis bm_hash].
    rewrite Hdel, lookup_delete_eq. split_and!; [|split|done].
    + by case_decide.
    + by intros [? ?].
    + by intros (bm' & ? & _).
Qed.

(** [QuerySortedIds] fails on an empty bitmap: [MGet] then asks Redis for
    no field and returns the error.  On every other bitmap it does not
    fail, and with every sort routine it returns each id of the bitmap
    once, with its forward value as the score, zero for an id without one,
    in ascending order of the scores.  The order of ids with equal scores
    is the sort routine's. *)
Theorem QuerySortedIds_spec `{!SliceSorter} (fieldKey : string) (bm : gset Z)
    (st : State) :
  (bm = ∅ → QuerySortedIds fieldKey bm st = None) ∧
  (bm ≠ ∅ →
   ∃ sortedIds,
     QuerySortedIds fieldKey bm st = Some (sortedIds, st) ∧
     sortedIds ≡ₚ (λ id, mkSortedId id (forward_value (redis st) fieldKey id)) <$>
                    elements bm ∧
     NoDup (SortedId_Id <$> sortedIds) ∧
     length sortedIds = size bm ∧
     StronglySorted (λ a b, SortedId_Score a ≤ SortedId_Score b) sortedIds).
Proof.
  split; [intros ->; apply QuerySortedIds_empty|]. intros Hbm.
  eexists. split; [by apply QuerySortedIds_run|].
  assert (sort_Slice SortedId_less
            ((λ id, mkSortedId id (forward_value (redis st) fieldKey id)) <$>
               roaring.Iterator bm) ≡ₚ
          (λ id, mkSortedId id (forward_value (redis st) fieldKey id)) <$> elements bm)
    as Hperm.
  { rewrite sort_Slice_Permutation. unfold roaring.Iterator.
    by rewrite merge_sort_Permutation. }
  split_and!.
  - exact Hperm.
  - rewrite Hperm, <-list_fmap_compose.
    rewrite (list_fmap_ext _ id (elements bm)) by done.
    rewrite list_fmap_id. apply NoDup_elements.
  - by rewrite Hperm, length_fmap.
  - apply SortedId_Score_sorted.
Qed.

(** [ConsumeClaim] does not get to the end of a claim that has a message
    with an unknown op, or without the row image its op reads: it stops,
    with an error or a nil dereference, at that message or before. *)
Theorem ConsumeClaim_stops_at_a_bad_message `{!SliceSorter} (consumer : saramaConsumer)
    (messages : list DataChangedMessage) (st : State) :
  Exists bad_message messages → ConsumeClaim consumer messages st = None.
Proof.
  intros Hbad. revert st. induction Hbad as [m rest Hm|m rest Hrest IH]; intros st.
  - simpl. unfold mbind, M_bind, slog_write.
    assert (∀ st0, ConsumeMessage consumer m st0 = None) as ->; [|done].
    intros st0. unfold ConsumeMessage, bad_message in *.
    repeat case_bool_decide; try done.
    + by rewrite Hm.
    + destruct (Before m) as [before|]; [|done].
      destruct Hm as [?|Hm]; [done|]. by rewrite Hm.
    + by rewrite Hm.
  - simpl. unfold mbind, M_bind, slog_write.
    destruct (ConsumeMessage consumer m _) as [[[] st1]|]; [|done]. apply IH.
Qed.

Lemma ConsumeClaim_stops_at_a_bad_message_witness :
  ConsumeClaim (H:=stable_sorter) Start
    [created 1 10; mkDataChangedMessage "t" None None] initial = None.
Proof.
  apply (ConsumeClaim_stops_at_a_bad_message (H:=stable_sorter)).
  apply Exists_cons_tl, Exists_cons_hd. exact I.
Defined.

